(** * Enki plugins: tag navigator (ctags.py) and preview synchronisation
      (preview_sync.py)

    A shallow embedding of the two plugins and the properties their
    specification states about them.

    - [ScrollAlign]  : [PreviewSync._alignScrollAmount], a pure function on
                       Python integers (unbounded, hence [Z]).
    - [PyStr]        : the Python 2 string builtins the tag parser relies on
                       ([split], [splitlines], [int], [in], negative indices).
    - [Ctags]        : [parseTags] with its nested [parseTag] and [findScope],
                       over an explicit store of [Tag] objects.
    - [Worker]       : [processText] and [ProcessorThread] as a transition
                       system whose atomic steps are the sections the thread
                       runs under [self._lock].
    - [Preview]      : the part of [PreviewSync] that reacts to events: the
                       capability gate, the cursor-movement timer and
                       [syncTextToPreview]. *)

From Stdlib Require Import ZArith List String Ascii Bool Lia.
From stdpp Require Import base option list strings.

(** ** Scroll alignment *)

Module ScrollAlign.

#[local] Open Scope Z_scope.

(** [PreviewSync._alignScrollAmount] (preview_sync.py, lines 93-131).  [self]
    is not used by the body.  The three assignments to [delta] are kept as
    three bindings. *)
Definition _alignScrollAmount
  (sourceGlobalTop sourceCursorBottom
   targetGlobalTop targetCursorBottom
   targetHeight targetCursorHeight padding : Z) : Z :=
  let delta :=
    (sourceGlobalTop + sourceCursorBottom) -
    (targetGlobalTop + targetCursorBottom) in
  let delta :=
    Z.max (- targetCursorBottom + targetCursorHeight + padding) delta in
  let delta := Z.min (targetHeight - targetCursorBottom - padding) delta in
  delta.

(** The two bounds the comments of the function talk about. *)
Definition topBound (targetCursorBottom targetCursorHeight padding : Z) : Z :=
  - targetCursorBottom + targetCursorHeight + padding.

Definition bottomBound (targetHeight targetCursorBottom padding : Z) : Z :=
  targetHeight - targetCursorBottom - padding.

End ScrollAlign.

(** ** Python builtins used by the tag parser

    ctags.py is Python 2 code (PyQt4, [QVariant]); the text handed to
    [parseTags] is the [str] read from the pipe of the ctags process, that is
    a byte string.  The builtins below follow the [str] methods of Python 2. *)

Module PyStr.

(** The exceptions the modelled code can raise. *)
Inductive exn : Set :=
| IndexError
| ValueError
| OSError
| AttributeError
| SystemExit.

(** Outcome of running a piece of Python: a value, an exception that
    propagates, or the model's recursion budget exhausted. *)
Inductive result (A : Type) : Type :=
| Ok (a : A)
| Raise (e : exn)
| OutOfFuel.

Arguments Ok {A} a.
Arguments Raise {A} e.
Arguments OutOfFuel {A}.

#[export] Instance result_ret : MRet result := fun A a => Ok a.
#[export] Instance result_bind : MBind result := fun A B f m =>
  match m with
  | Ok a => f a
  | Raise e => Raise e
  | OutOfFuel => OutOfFuel
  end.

(** Code that indexes lists and converts strings raises [IndexError] or
    [ValueError] when it raises, and needs no budget. *)
Definition benign {A} (m : result A) : Prop :=
  match m with
  | Ok _ => True
  | Raise e => e = IndexError \/ e = ValueError
  | OutOfFuel => False
  end.

Definition tab : ascii := "009"%char.
Definition LF : ascii := "010"%char.
Definition CR : ascii := "013"%char.

(** [s.split(sep)] for a one-character separator: never empty, keeps empty
    fields. *)
Fixpoint split (sep : ascii) (s : string) : list string :=
  match s with
  | EmptyString => [EmptyString]
  | String c rest =>
      let r := split sep rest in
      if Ascii.eqb c sep then EmptyString :: r
      else match r with
           | [] => [String c EmptyString]
           | w :: ws => String c w :: ws
           end
  end.

(** [s.splitlines()] on a byte string: lines end at LF, CR or CR LF; the line
    ends are dropped and a final line end opens no further line.  [cur] is
    the line read so far. *)
Fixpoint splitlines_from (cur : string) (s : string) : list string :=
  match s with
  | EmptyString =>
      match cur with EmptyString => [] | _ => [cur] end
  | String c rest =>
      if Ascii.eqb c LF then cur :: splitlines_from EmptyString rest
      else if Ascii.eqb c CR then
        match rest with
        | String c' rest' =>
            if Ascii.eqb c' LF then cur :: splitlines_from EmptyString rest'
            else cur :: splitlines_from EmptyString rest
        | EmptyString => cur :: splitlines_from EmptyString rest
        end
      else splitlines_from (cur ++ String c EmptyString) rest
  end.

Definition splitlines (s : string) : list string :=
  splitlines_from EmptyString s.

(** [l[0]] and [l[-k]] (k >= 1): [IndexError] outside the list. *)
Definition getitem0 {A} (l : list A) : result A :=
  match l with
  | x :: _ => Ok x
  | [] => Raise IndexError
  end.

Definition getitem_neg {A} (l : list A) (k : nat) : result A :=
  if (length l <? k)%nat then Raise IndexError
  else match l !! (length l - k)%nat with
       | Some x => Ok x
       | None => Raise IndexError
       end.

(** [needle in hay] on strings: [needle] occurs as a contiguous piece. *)
Fixpoint contains (needle hay : string) : bool :=
  String.prefix needle hay ||
  match hay with
  | EmptyString => false
  | String _ rest => contains needle rest
  end.

(** [int(s)] on a [str]: white space around the literal is dropped, then
    come an optional sign and at least one decimal digit; anything else is a
    [ValueError]. *)
Definition is_space (c : ascii) : bool :=
  let n := nat_of_ascii c in
  (n =? 32)%nat || ((9 <=? n)%nat && (n <=? 13)%nat).

Fixpoint lstrip (s : string) : string :=
  match s with
  | EmptyString => EmptyString
  | String c rest => if is_space c then lstrip rest else s
  end.

Definition strip (s : string) : string :=
  String.rev (lstrip (String.rev (lstrip s))).

Definition digit_val (c : ascii) : option Z :=
  let n := nat_of_ascii c in
  if ((48 <=? n)%nat && (n <=? 57)%nat) then Some (Z.of_nat (n - 48)) else None.

Fixpoint digits (acc : Z) (s : string) : option Z :=
  match s with
  | EmptyString => Some acc
  | String c rest =>
      match digit_val c with
      | Some d => digits (10 * acc + d)%Z rest
      | None => None
      end
  end.

Definition int_ (s : string) : result Z :=
  let s := strip s in
  let '(sign, body) :=
    match s with
    | String "-"%char r => ((-1)%Z, r)
    | String "+"%char r => (1%Z, r)
    | _ => (1%Z, s)
    end in
  match body with
  | EmptyString => Raise ValueError
  | _ => match digits 0 body with
         | Some n => Ok (sign * n)%Z
         | None => Raise ValueError
         end
  end.

End PyStr.

(** ** The tag parser *)

Module Ctags.
Import PyStr.

(** A [Tag] object.  Objects live in a store indexed by allocation order;
    [parent] and the entries of [children] are references into it, so that
    [parent.children.append(tag)] is an update of the parent in the store
    that every holder of the reference sees. *)
Record Tag : Type := mkTag {
  name : string;
  lineNumber : Z;
  parent : option nat;
  children : list nat
}.

Abbreviation store := (list Tag).

(** The tuple [parseTag] returns: (name, lineNumber, type_, scope). *)
Definition record : Type := (string * Z * string * option string)%type.

(** [parseTag(line)], lines 38-53. *)
Definition parseTag (line : string) : result record :=
  let items := split tab line in
  name ← getitem0 items;
  '(type_, lineText, scopeText) ←
    (if (length items =? 5)%nat then
       type_ ← getitem_neg items 2;
       lineText ← getitem_neg items 1;
       Ok (type_, lineText, None)
     else
       type_ ← getitem_neg items 3;
       lineText ← getitem_neg items 2;
       scopeText ← getitem_neg items 1;
       Ok (type_, lineText, Some scopeText));
  lineField ← getitem_neg (split ":" lineText) 1;
  lineNumber ← int_ lineField;
  scope ←
    match scopeText with
    | Some (String c s) =>
        afterColon ← getitem_neg (split ":" (String c s)) 1;
        afterDot ← getitem_neg (split "." afterColon) 1;
        Ok (Some afterDot)
    | _ => Ok None
    end;
  Ok (name, lineNumber, type_, scope).

(** [tag.name == scopeName], where [scopeName] is a string or [None]. *)
Definition nameIs (t : Tag) (scopeName : option string) : bool :=
  match scopeName with
  | Some s => String.eqb (name t) s
  | None => false
  end.

(** [findScope(tag, scopeName)], lines 55-66.  The recursion follows
    [tag.parent]; [fuel] bounds its depth.  A reference is always to an object
    of the store; the [AttributeError] of the other case only makes the
    function total. *)
Fixpoint findScope (h : store) (fuel : nat)
    (tag : option nat) (scopeName : option string) : result (option nat) :=
  match tag with
  | None => Ok None
  | Some a =>
      match h !! a with
      | None => Raise AttributeError
      | Some t =>
          if nameIs t scopeName then Ok (Some a)
          else match parent t with
               | Some p =>
                   match fuel with
                   | O => OutOfFuel
                   | S fuel' => findScope h fuel' (Some p) scopeName
                   end
               | None => Ok None
               end
      end
  end.

(** [ignoredTypes = ('variable')]: the parentheses build no tuple, the value
    is the string. *)
Definition ignoredTypes : string := "variable".

(** [type_ in ignoredTypes]. *)
Definition ignored (type_ : string) : bool := contains type_ ignoredTypes.

(** The variables of the loop of [parseTags], with the store. *)
Record state : Type := mkState {
  heap : store;
  tags : list nat;
  lastTag : option nat
}.

Definition initial : state := {| heap := []; tags := []; lastTag := None |}.

(** [parent.children.append(tag)]. *)
Definition appendChild (p tag : nat) (h : store) : store :=
  alter (fun t => {| name := name t; lineNumber := lineNumber t;
                     parent := parent t; children := children t ++ [tag] |})
        p h.

(** Lines 74-81: the body of the loop once the line is parsed. *)
Definition addRecord (st : state) (r : record) : result state :=
  let '(name, lineNumber, type_, scope) := r in
  if negb (ignored type_) then
    parent ← findScope (heap st) (length (heap st)) (lastTag st) scope;
    let tag := length (heap st) in
    let h := heap st ++ [mkTag name lineNumber parent []] in
    match parent with
    | Some p =>
        Ok {| heap := appendChild p tag h; tags := tags st;
              lastTag := Some tag |}
    | None =>
        Ok {| heap := h; tags := tags st ++ [tag]; lastTag := Some tag |}
    end
  else Ok st.

(** Lines 72-81: one iteration. *)
Definition loopBody (st : state) (line : string) : result state :=
  r ← parseTag line;
  addRecord st r.

Fixpoint loop (st : state) (lines : list string) : result state :=
  match lines with
  | [] => Ok st
  | line :: rest => st' ← loopBody st line; loop st' rest
  end.

(** [parseTags(text)], lines 37-83.  The value returned is [tags]; the store
    comes with it, since the references in [tags] are read through it. *)
Definition parseTags (text : string) : result state :=
  loop initial (splitlines text).


(** *** Reading the result as a forest *)

#[local] Unset Elimination Schemes.
Inductive Tree : Type :=
| Node (name : string) (lineNumber : Z) (children : list Tree).

#[local] Set Elimination Schemes.

(** The tree below a reference, children in list order. *)
Fixpoint treeAt (h : store) (fuel : nat) (a : nat) : list Tree :=
  match fuel with
  | O => []
  | S fuel' =>
      match h !! a with
      | None => []
      | Some t =>
          [Node (name t) (lineNumber t)
                (concat (map (treeAt h fuel') (children t)))]
      end
  end.

Definition forest (st : state) : list Tree :=
  concat (map (treeAt (heap st) (length (heap st))) (tags st)).

(** The references of the nodes of that tree, in the same order. *)
Fixpoint nodesAt (h : store) (fuel : nat) (a : nat) : list nat :=
  match fuel with
  | O => []
  | S fuel' =>
      match h !! a with
      | None => []
      | Some t => a :: concat (map (nodesAt h fuel') (children t))
      end
  end.

Abbreviation occ := (count_occ Nat.eq_dec).

Definition nodes (st : state) : list nat :=
  concat (map (nodesAt (heap st) (length (heap st))) (tags st)).

Fixpoint treeSize (t : Tree) : nat :=
  match t with
  | Node _ _ cs => S (list_sum (map treeSize cs))
  end.

Definition forestSize (f : list Tree) : nat := list_sum (map treeSize f).

(** The references met from a node up to the top of its parent chain, the
    node first.  [None] when the walk does not end within [fuel] steps. *)
Fixpoint parentChain (h : store) (fuel : nat) (a : nat) : option (list nat) :=
  match fuel with
  | O => None
  | S fuel' =>
      match h !! a with
      | None => None
      | Some t =>
          match parent t with
          | None => Some [a]
          | Some p => cs ← parentChain h fuel' p; Some (a :: cs)
          end
      end
  end.

(** References point backwards along [parent] and forwards along
    [children], and stay inside the store. *)
Definition wfStore (h : store) : Prop :=
  forall a t, h !! a = Some t ->
    (forall p, parent t = Some p -> (p < a)%nat)
    /\ (forall c, In c (children t) -> (a < c < length h)%nat).

(** What holds of the loop variables between two iterations: the store is
    well formed, [lastTag] and the roots are in it, every tag without a
    parent is a root, and the nodes of the forest are the objects of the
    store, each once. *)
Record Inv (st : state) : Prop := mkInv {
  inv_store : wfStore (heap st);
  inv_last : forall a, lastTag st = Some a -> (a < length (heap st))%nat;
  inv_tags : forall r, In r (tags st) -> (r < length (heap st))%nat;
  inv_roots : forall a t,
      heap st !! a = Some t -> parent t = None -> In a (tags st);
  inv_nodes : nodes st ≡ₚ seq 0 (length (heap st))
}.

(** A parsed record is kept when its kind is not ignored; a line is kept
    when it parses to such a record. *)
Definition kept (r : record) : bool :=
  let '(_, _, type_, _) := r in negb (ignored type_).

Definition keptLine (line : string) : bool :=
  match parseTag line with
  | Ok r => kept r
  | _ => false
  end.

(** Number of records of the text that are not ignored. *)
Definition countKept (text : string) : nat :=
  length (List.filter keptLine (splitlines text)).




End Ctags.

(** ** The extraction worker *)

Module Worker.
Import PyStr Ctags.

(** What lines 87-95 of [processText] do outside this program: make a
    scratch directory, write [text] to [fileName] in it, execute ctags on the
    file and read its standard output, remove the directory.  The outcome is
    the output read, or the exception one of these calls raised (the
    [finally] clause removes the directory and lets it pass). *)
Definition tool : Type := string -> string -> result string.

(** [processText(fileName, text)], lines 86-97. *)
Definition processText (ctags : tool) (fileName text : string)
  : result Ctags.state :=
  stdout ← ctags fileName text;
  parseTags stdout.

(** Where the thread is.  [NotRunning]: before [start()] and after it has
    finished.  [LoopTop]: about to enter the first locked section of [run].
    [Processing fileName text]: holding these locals, at line 184 or waiting
    for the second locked section.  [Returning]: out of the loop, by [break]
    or by an exception, but not finished yet, so that [isRunning()] still
    answers true. *)
Inductive pc : Type :=
| NotRunning
| LoopTop
| Processing (fileName text : string)
| Returning.

(** One [tagsReady.emit(tags)], tagged with the locals it was computed
    from. *)
Record emission : Type := mkEmission {
  em_fileName : string;
  em_text : string;
  em_tags : Ctags.state
}.

Record world : Type := mkWorld {
  _fileName : option string;
  _text : option string;
  _haveData : bool;
  thread : pc;
  (** every emission of [tagsReady], oldest first *)
  emitted : list emission;
  (** emissions queued for the main thread, not yet handled *)
  queued : list emission;
  (** exceptions that left [run] without being handled *)
  escaped : list exn;
  (** [TagModel._tags], what the tree view shows *)
  model_tags : Ctags.state
}.

(** [ProcessorThread.__init__], lines 158-163, with a model showing [shown]. *)
Definition init (shown : Ctags.state) : world :=
  {| _fileName := None; _text := None; _haveData := false;
     thread := NotRunning; emitted := []; queued := []; escaped := [];
     model_tags := shown |}.

(** [self.isRunning()]. *)
Definition isRunning (w : world) : bool :=
  match thread w with
  | NotRunning => false
  | _ => true
  end.

(** [ProcessorThread.process], lines 165-173; one locked section. *)
Definition process (fileName text : string) (w : world) : world :=
  {| _fileName := Some fileName;
     _text := Some text;
     _haveData := true;
     thread := if negb (isRunning w) then LoopTop else thread w;
     emitted := emitted w; queued := queued w; escaped := escaped w;
     model_tags := model_tags w |}.

Definition setThread (t : pc) (w : world) : world :=
  {| _fileName := _fileName w; _text := _text w; _haveData := _haveData w;
     thread := t;
     emitted := emitted w; queued := queued w; escaped := escaped w;
     model_tags := model_tags w |}.

(** An exception leaves [run]: nothing in [run] handles it. *)
Definition uncaught (e : exn) (w : world) : world :=
  {| _fileName := _fileName w; _text := _text w; _haveData := _haveData w;
     thread := Returning;
     emitted := emitted w; queued := queued w;
     escaped := escaped w ++ [e];
     model_tags := model_tags w |}.

(** [self.tagsReady.emit(tags)] followed by [break]. *)
Definition emit (e : emission) (w : world) : world :=
  {| _fileName := _fileName w; _text := _text w; _haveData := _haveData w;
     thread := Returning;
     emitted := emitted w ++ [e]; queued := queued w ++ [e];
     escaped := escaped w;
     model_tags := model_tags w |}.

(** One step of the thread in [run], lines 175-190: the first locked
    section; or line 184 and the second locked section; or the end of the
    thread.  [processText] runs outside the lock and reads the locals only,
    so it is evaluated where its result is looked at. *)
Definition threadStep (ctags : tool) (w : world) : world :=
  match thread w with
  | NotRunning => w
  | LoopTop =>
      match _fileName w, _text w with
      | Some fileName, Some text =>
          {| _fileName := _fileName w; _text := _text w; _haveData := false;
             thread := Processing fileName text;
             emitted := emitted w; queued := queued w; escaped := escaped w;
             model_tags := model_tags w |}
      | _, _ =>
          (* [os.path.join(tmpDir, None)] in [processText] *)
          uncaught AttributeError
            {| _fileName := _fileName w; _text := _text w; _haveData := false;
               thread := thread w;
               emitted := emitted w; queued := queued w; escaped := escaped w;
               model_tags := model_tags w |}
      end
  | Processing fileName text =>
      match processText ctags fileName text with
      | Ok tags =>
          if negb (_haveData w) then emit (mkEmission fileName text tags) w
          else setThread LoopTop w
      | Raise e => uncaught e w
      | OutOfFuel => w
      end
  | Returning => setThread NotRunning w
  end.

(** The main thread handles one queued [tagsReady]: [TagModel.setTags]. *)
Definition deliver (w : world) : world :=
  match queued w with
  | [] => w
  | e :: rest =>
      {| _fileName := _fileName w; _text := _text w; _haveData := _haveData w;
         thread := thread w;
         emitted := emitted w; queued := rest; escaped := escaped w;
         model_tags := em_tags e |}
  end.

Inductive event : Type :=
| Process (fileName text : string)
| ThreadStep
| Deliver.

Definition step (ctags : tool) (w : world) (ev : event) : world :=
  match ev with
  | Process fileName text => process fileName text w
  | ThreadStep => threadStep ctags w
  | Deliver => deliver w
  end.

(** A schedule is the order in which the calls of [process], the steps of
    the thread and the deliveries happen.  [process] holds [self._lock] from
    its first line to its last, as do the sections of [run] that read or
    write the attributes, so each of them is one step. *)
Definition execute (ctags : tool) (w : world) (schedule : list event) : world :=
  fold_left (step ctags) schedule w.

(** Schedules of the worker and of deliveries alone: no new request. *)
Definition isProcess (ev : event) : bool :=
  match ev with
  | Process _ _ => true
  | _ => false
  end.

Definition isThreadStep (ev : event) : bool :=
  match ev with
  | ThreadStep => true
  | _ => false
  end.

Definition noProcess (schedule : list event) : bool :=
  forallb (fun ev => negb (isProcess ev)) schedule.

Definition threadSteps (schedule : list event) : nat :=
  length (List.filter isThreadStep schedule).



End Worker.

(** ** Preview synchronisation: the capability gate and the debounce timer *)

Module Preview.
Import PyStr.

(** A [QTimer]: [remaining] is the number of milliseconds left before the
    next [timeout], [None] when the timer is not active.  The timer is
    created with the default [singleShot = False]. *)
Record QTimer : Type := mkTimer {
  interval : nat;
  remaining : option nat
}.

Definition timer_stop (t : QTimer) : QTimer :=
  {| interval := interval t; remaining := None |}.

Definition timer_start (t : QTimer) : QTimer :=
  {| interval := interval t; remaining := Some (interval t) |}.

Inductive signal : Type :=
| cursorPositionChanged
| currentDocumentChanged
| timeout.

Inductive slot : Type :=
| onCursorPositionChanged
| onDocumentChanged
| syncTextToPreviewSlot.

(** The [PreviewSync] object and what it touches.  An attribute that
    [__init__] has not assigned is [None]; reading it raises
    [AttributeError]. *)
Record world : Type := mkWorld {
  (** module level: [findApproxTextInTarget] is a function, not [None] *)
  capability : bool;
  (** the resource [:/qtwebchannel/qwebchannel.js] can be opened *)
  qwebchannel_js : bool;
  (** [self._dock] is assigned *)
  _dock : bool;
  (** [self._dock.isVisible()] *)
  dockVisible : bool;
  _cursorMovementTimer : option QTimer;
  _previewToTextSyncRunning : option bool;
  (** [self._runLatest] is assigned *)
  _runLatest : bool;
  (** [self.channel] is registered with the page *)
  channel : bool;
  (** the signal connections made so far, in order *)
  connections : list (signal * slot);
  (** calls of [page().toPlainText(self._havePlainText)], each of which
      starts one approximate match *)
  matchRequests : nat;
  (** calls of [self._runLatest.future.cancel(True)] *)
  cancels : nat
}.

(** The object once [QObject.__init__(self)] has run. *)
Definition fresh (cap js visible : bool) : world :=
  {| capability := cap; qwebchannel_js := js;
     _dock := false; dockVisible := visible;
     _cursorMovementTimer := None; _previewToTextSyncRunning := None;
     _runLatest := false; channel := false; connections := [];
     matchRequests := 0; cancels := 0 |}.

Definition setTimer (t : QTimer) (w : world) : world :=
  {| capability := capability w; qwebchannel_js := qwebchannel_js w;
     _dock := _dock w; dockVisible := dockVisible w;
     _cursorMovementTimer := Some t;
     _previewToTextSyncRunning := _previewToTextSyncRunning w;
     _runLatest := _runLatest w; channel := channel w;
     connections := connections w;
     matchRequests := matchRequests w; cancels := cancels w |}.

(** [page().toPlainText(self._havePlainText)] on the page of the dock's web
    view. *)
Definition requestPlainText (w : world) : world :=
  {| capability := capability w; qwebchannel_js := qwebchannel_js w;
     _dock := _dock w; dockVisible := dockVisible w;
     _cursorMovementTimer := _cursorMovementTimer w;
     _previewToTextSyncRunning := _previewToTextSyncRunning w;
     _runLatest := _runLatest w; channel := channel w;
     connections := connections w;
     matchRequests := S (matchRequests w); cancels := cancels w |}.

(** [self._runLatest.future.cancel(True)] *)
Definition cancelFuture (w : world) : world :=
  {| capability := capability w; qwebchannel_js := qwebchannel_js w;
     _dock := _dock w; dockVisible := dockVisible w;
     _cursorMovementTimer := _cursorMovementTimer w;
     _previewToTextSyncRunning := _previewToTextSyncRunning w;
     _runLatest := _runLatest w; channel := channel w;
     connections := connections w;
     matchRequests := matchRequests w; cancels := S (cancels w) |}.

Definition setConnections (cs : list (signal * slot)) (w : world) : world :=
  {| capability := capability w; qwebchannel_js := qwebchannel_js w;
     _dock := _dock w; dockVisible := dockVisible w;
     _cursorMovementTimer := _cursorMovementTimer w;
     _previewToTextSyncRunning := _previewToTextSyncRunning w;
     _runLatest := _runLatest w; channel := channel w;
     connections := cs;
     matchRequests := matchRequests w; cancels := cancels w |}.

(** [_initPreviewToTextSync] (lines 465-509) followed by
    [_initTextToPreviewSync] (lines 562-579), after [self._dock] is set. *)
Definition setup (w : world) : world :=
  {| capability := capability w; qwebchannel_js := qwebchannel_js w;
     _dock := true; dockVisible := dockVisible w;
     _cursorMovementTimer := Some {| interval := 300; remaining := None |};
     _previewToTextSyncRunning := Some false;
     _runLatest := true; channel := true;
     connections := connections w ++
                    [(timeout, syncTextToPreviewSlot);
                     (cursorPositionChanged, onCursorPositionChanged);
                     (currentDocumentChanged, onDocumentChanged)];
     matchRequests := matchRequests w; cancels := cancels w |}.

(** [PreviewSync.__init__], lines 46-60.  [_initPreviewToTextSync] raises
    [SystemExit] when it cannot open qwebchannel.js (lines 471-475), before it
    has changed anything but [self._dock]. *)
Definition __init__ (w : world) : result world :=
  if negb (capability w) then Ok w
  else if negb (qwebchannel_js w) then Raise SystemExit
  else Ok (setup w).

(** [_onCursorPositionChanged], lines 585-596. *)
Definition _onCursorPositionChanged (w : world) : result world :=
  match _previewToTextSyncRunning w with
  | None => Raise AttributeError
  | Some running =>
      if negb running then
        if _dock w then
          if dockVisible w then
            match _cursorMovementTimer w with
            | None => Raise AttributeError
            | Some t => Ok (setTimer (timer_start (timer_stop t)) w)
            end
          else Ok w
        else Raise AttributeError
      else Ok w
  end.

(** [_onDocumentChanged], lines 581-583. *)
Definition _onDocumentChanged (w : world) : result world :=
  if _runLatest w then
    let w := cancelFuture w in
    match _cursorMovementTimer w with
    | None => Raise AttributeError
    | Some t => Ok (setTimer (timer_stop t) w)
    end
  else Raise AttributeError.

(** [syncTextToPreview], lines 598-610. *)
Definition syncTextToPreview (w : world) : result world :=
  if negb (capability w) then Ok w
  else
    match _cursorMovementTimer w with
    | None => Raise AttributeError
    | Some t =>
        let w := setTimer (timer_stop t) w in
        if _dock w then Ok (requestPlainText w)
        else Raise AttributeError
    end.

Definition signal_eqb (a b : signal) : bool :=
  match a, b with
  | cursorPositionChanged, cursorPositionChanged => true
  | currentDocumentChanged, currentDocumentChanged => true
  | timeout, timeout => true
  | _, _ => false
  end.

Definition slot_eqb (a b : slot) : bool :=
  match a, b with
  | onCursorPositionChanged, onCursorPositionChanged => true
  | onDocumentChanged, onDocumentChanged => true
  | syncTextToPreviewSlot, syncTextToPreviewSlot => true
  | _, _ => false
  end.

Definition conn_eqb (a b : signal * slot) : bool :=
  signal_eqb (fst a) (fst b) && slot_eqb (snd a) (snd b).

(** [signal.disconnect(slot)] *)
Definition disconnect (c : signal * slot) (w : world) : world :=
  setConnections (List.filter (fun c' => negb (conn_eqb c' c)) (connections w))
                 w.

(** [terminate], lines 62-74. *)
Definition terminate (w : world) : result world :=
  if capability w then
    match _cursorMovementTimer w with
    | None => Raise AttributeError
    | Some t =>
        let w := setTimer (timer_stop t) w in
        let w :=
          disconnect (cursorPositionChanged, onCursorPositionChanged) w in
        let w := disconnect (currentDocumentChanged, onDocumentChanged) w in
        if _runLatest w then Ok (cancelFuture w)
        else Raise AttributeError
    end
  else Ok w.

Definition call (s : slot) (w : world) : result world :=
  match s with
  | onCursorPositionChanged => _onCursorPositionChanged w
  | onDocumentChanged => _onDocumentChanged w
  | syncTextToPreviewSlot => syncTextToPreview w
  end.

(** Emitting a signal calls the slots connected to it, in connection
    order. *)
Fixpoint callAll (slots : list slot) (w : world) : result world :=
  match slots with
  | [] => Ok w
  | s :: rest => w' ← call s w; callAll rest w'
  end.

Definition slotsOf (sg : signal) (w : world) : list slot :=
  map snd (List.filter (fun c => signal_eqb (fst c) sg) (connections w)).

Definition emitSignal (sg : signal) (w : world) : result world :=
  callAll (slotsOf sg w) w.

(** One millisecond passes.  An active timer counts down; when it reaches
    zero it is rearmed for another interval (it is not single shot) and its
    [timeout] signal is emitted. *)
Definition elapse1 (w : world) : result world :=
  match _cursorMovementTimer w with
  | Some t =>
      match remaining t with
      | Some (S (S k)) =>
          Ok (setTimer {| interval := interval t; remaining := Some (S k) |} w)
      | Some _ => emitSignal timeout (setTimer (timer_start t) w)
      | None => Ok w
      end
  | None => Ok w
  end.

Fixpoint elapse (ms : nat) (w : world) : result world :=
  match ms with
  | O => Ok w
  | S k => w' ← elapse1 w; elapse k w'
  end.

(** What can happen to the object from outside. *)
Inductive event : Type :=
| CursorMoved          (* the workspace emits cursorPositionChanged *)
| DocumentChanged      (* the workspace emits currentDocumentChanged *)
| Elapse (ms : nat)
| CallSync             (* the dock calls syncTextToPreview() *)
| Terminate.

Definition handle (w : world) (ev : event) : result world :=
  match ev with
  | CursorMoved => emitSignal cursorPositionChanged w
  | DocumentChanged => emitSignal currentDocumentChanged w
  | Elapse ms => elapse ms w
  | CallSync => syncTextToPreview w
  | Terminate => terminate w
  end.

Fixpoint handleAll (w : world) (evs : list event) : result world :=
  match evs with
  | [] => Ok w
  | ev :: rest => w' ← handle w ev; handleAll w' rest
  end.

(** The object set up by [__init__] with the capability present and the
    dock visible, as a function of what the timer has left and of the number
    of matches requested. *)
Definition ready (left : option nat) (requests : nat) : world :=
  {| capability := true; qwebchannel_js := true;
     _dock := true; dockVisible := true;
     _cursorMovementTimer := Some {| interval := 300; remaining := left |};
     _previewToTextSyncRunning := Some false;
     _runLatest := true; channel := true;
     connections := [(timeout, syncTextToPreviewSlot);
                     (cursorPositionChanged, onCursorPositionChanged);
                     (currentDocumentChanged, onDocumentChanged)];
     matchRequests := requests; cancels := 0 |}.

End Preview.

(** ** Inputs used in the examples *)

Module Fixtures.
Import PyStr Ctags.
#[local] Open Scope string_scope.

(** One line of ctags output from its fields, and a text from its lines. *)
Definition tsv (fields : list string) : string :=
  String.concat (String tab EmptyString) fields.

Definition text_of (ls : list string) : string :=
  String.concat EmptyString (map (fun l => l ++ String LF EmptyString) ls).

(** The record stream of the specification's example: name, line, kind,
    scope. *)
Definition spec_stream : list record :=
  [("foo", 1%Z, "f", None);
   ("bar", 2%Z, "v", None);
   ("baz", 3%Z, "f", Some "f")].

(** The same stream with the scope of [baz] naming the tag [foo]. *)
Definition spec_stream_foo : list record :=
  [("foo", 1%Z, "f", None);
   ("bar", 2%Z, "v", None);
   ("baz", 3%Z, "f", Some "foo")].


(** Texts that [parseTag] reads as these streams. *)
Definition spec_text : string :=
  text_of [tsv ["foo"; "x.py"; "/^def foo():$/"; "f"; "line:1"];
           tsv ["bar"; "x.py"; "/^bar = 1$/"; "v"; "line:2"];
           tsv ["baz"; "x.py"; "/^  def baz():$/"; "f"; "line:3";
                "function:f"]].

Definition spec_text_foo : string :=
  text_of [tsv ["foo"; "x.py"; "/^def foo():$/"; "f"; "line:1"];
           tsv ["bar"; "x.py"; "/^bar = 1$/"; "v"; "line:2"];
           tsv ["baz"; "x.py"; "/^  def baz():$/"; "f"; "line:3";
                "function:foo"]].

(** A line with four fields, and one with seven. *)
Definition four_fields : string :=
  tsv ["foo"; "function"; "7"; "class:A"].

Definition seven_fields : string :=
  tsv ["foo"; "x.py"; "/^def foo():$/"; "extra"; "function"; "line:7";
       "class:A"].

(** A line with two fields. *)
Definition two_fields : string := tsv ["foo"; "x.py"].

(** Stand-ins for the run of ctags: the program is not installed, so that
    [subprocess.Popen] raises; it prints something that is no tag file; it
    prints the text it was given, which is then taken for a tag file. *)
Definition noCtags : Worker.tool := fun _ _ => Raise OSError.

Definition garbageCtags : Worker.tool := fun _ _ => Ok "ctags: warning".

Definition echoCtags : Worker.tool := fun _ text => Ok text.

End Fixtures.

(** ** Further definitions for the preview synchronisation *)

Module PreviewMore.
Import PyStr Preview.

(** The events that come from the editor and the clock, as opposed to calls
    made by the dock. *)
Definition external (ev : event) : bool :=
  match ev with
  | CursorMoved | DocumentChanged | Elapse _ => true
  | CallSync | Terminate => false
  end.

(** The timer is there and is not running. *)
Definition timerStopped (w : world) : Prop :=
  exists t, _cursorMovementTimer w = Some t /\ remaining t = None.

End PreviewMore.

(** ** Further definitions for the extraction worker *)

Module WorkerMore.
Import PyStr Ctags Worker.


(** The calls of [process] for a list of requests, in order. *)
Definition requests (rs : list (string * string)) : list event :=
  map (fun r => Process (fst r) (snd r)) rs.

(** What the model shows when the emissions [done] have been delivered. *)
Definition shownAfter (shown : Ctags.state) (done : list emission)
  : Ctags.state :=
  match last done with
  | Some e => em_tags e
  | None => shown
  end.

End WorkerMore.

(** ** Further definitions for the tag parser *)

Module CtagsMore.
Import PyStr Ctags.

(** The tag at [a] is called [scopeName]. *)
Definition hasName (h : store) (scopeName : option string) (a : nat) : bool :=
  match h !! a with
  | Some t => nameIs t scopeName
  | None => false
  end.

(** What a tag shows of the record it was made from. *)
Definition label (t : Tag) : string * Z := (name t, lineNumber t).

Definition recordLabel (r : record) : string * Z :=
  let '(nm, ln, _, _) := r in (nm, ln).

(** [parent] and [children] say the same thing: a tag is among the children
    of its parent and of no other tag, the roots are the tags without
    parent, and no list holds a tag twice. *)
Record Linked (st : state) : Prop := mkLinked {
  linked_child : forall a t c,
      heap st !! a = Some t -> In c (children t) ->
      exists tc, heap st !! c = Some tc /\ parent tc = Some a;
  linked_parent : forall c tc a,
      heap st !! c = Some tc -> parent tc = Some a ->
      exists t, heap st !! a = Some t /\ In c (children t);
  linked_root : forall r,
      In r (tags st) -> exists t, heap st !! r = Some t /\ parent t = None;
  linked_children_nodup : forall a t,
      heap st !! a = Some t -> List.NoDup (children t);
  linked_tags_nodup : List.NoDup (tags st)
}.

(** The tags whose subtree is open at the end of the forest: the last root,
    and the last child of such a tag. *)
Inductive OnSpine (h : store) (roots : list nat) : nat -> Prop :=
| spine_root r t :
    h !! r = Some t -> parent t = None -> last roots = Some r ->
    OnSpine h roots r
| spine_child c tc q t :
    h !! c = Some tc -> parent tc = Some q ->
    h !! q = Some t -> last (children t) = Some c ->
    OnSpine h roots q ->
    OnSpine h roots c.

(** The last tag is at the end of the forest, and the forest lists the tags
    in the order in which they were made. *)
Record Ordered (st : state) : Prop := mkOrdered {
  ord_spine : forall a, lastTag st = Some a ->
                        OnSpine (heap st) (tags st) a;
  ord_nodes : nodes st = seq 0 (length (heap st))
}.

(** Name and line of the nodes of a tree, parents before children, children
    in list order. *)
Fixpoint preorder (t : Tree) : list (string * Z) :=
  match t with
  | Node nm ln cs => (nm, ln) :: concat (map preorder cs)
  end.

Definition forestLabels (f : list Tree) : list (string * Z) :=
  concat (map preorder f).

End CtagsMore.

(** ** Further inputs used in the examples *)

Module FixturesMore.
Import PyStr Ctags Fixtures.
#[local] Open Scope string_scope.

(** What [parseTags] returns on [spec_text_foo]: [foo] with its child
    [baz]. *)
Definition parsed_foo : state :=
  {| heap := [mkTag "foo" 1%Z None [1%nat]; mkTag "baz" 3%Z (Some 0%nat) []];
     tags := [0%nat];
     lastTag := Some 1%nat |}.

End FixturesMore.

(** ** Showing the tags: [Tag.format] and [TagModel] *)

From Stdlib Require DecimalString.

Module TagView.
Import PyStr Ctags.

(** [str(n)] of an integer, what ['{}'.format(n)] prints. *)
Definition str_int (n : Z) : string :=
  DecimalString.NilZero.string_of_int (Z.to_int n).

(** [c * n] for a one-character string [c]: empty when [n] is not
    positive. *)
Fixpoint times (c : ascii) (n : nat) : string :=
  match n with
  | O => EmptyString
  | S k => String c (times c k)
  end.

Definition newline : string := String LF EmptyString.

(** A list comprehension whose element expression can raise: elements are
    computed in order, the first exception ends it. *)
Fixpoint mapM {A B} (f : A -> result B) (l : list A) : result (list B) :=
  match l with
  | [] => Ok []
  | x :: rest => y ← f x; ys ← mapM f rest; Ok (y :: ys)
  end.

(** [Tag.format(self, indentLevel=0)], lines 25-34.  The recursion follows
    [children]; [fuel] bounds its depth. *)
Fixpoint format (h : store) (fuel : nat) (self : nat) (indentLevel : Z)
  : result string :=
  match fuel with
  | O => OutOfFuel
  | S fuel' =>
      match h !! self with
      | None => Raise AttributeError
      | Some t =>
          let indent := times tab (Z.to_nat indentLevel) in
          formattedChildren ←
            mapM (fun child => format h fuel' child (indentLevel + 1))
                 (children t);
          let result :=
            indent +:+ str_int (lineNumber t) +:+ " " +:+ name t in
          Ok (match formattedChildren with
              | [] => result
              | _ :: _ =>
                  (result +:+ newline)
                  +:+ String.concat newline formattedChildren
              end)
      end
  end.

(** A valid [QModelIndex] as [createIndex(row, column, ptr)] builds it; the
    invalid index [QModelIndex()] is [None]. *)
Record QModelIndex : Type := createIndex {
  row : Z;
  column : Z;
  internalPointer : nat
}.

(** [l[i]] for a list and an integer: a negative [i] counts from the end. *)
Definition getitem {A} (l : list A) (i : Z) : result A :=
  let n := Z.of_nat (length l) in
  let j := (if i <? 0 then i + n else i)%Z in
  if (j <? 0)%Z || (n <=? j)%Z then Raise IndexError
  else match l !! Z.to_nat j with
       | Some x => Ok x
       | None => Raise IndexError
       end.

(** [l.index(x)] on a list of references: the first position holding the
    same object. *)
Fixpoint list_index (l : list nat) (x : nat) : result Z :=
  match l with
  | [] => Raise ValueError
  | y :: rest =>
      if (y =? x)%nat then Ok 0%Z
      else i ← list_index rest x; Ok (i + 1)%Z
  end.

(** Reading an attribute of the object behind a reference. *)
Definition deref (h : store) (a : nat) : result Tag :=
  match h !! a with
  | Some t => Ok t
  | None => Raise AttributeError
  end.

(** The model [m] is the [TagModel] after [setTags(tags)], lines 105-107:
    [self._tags] is [tags m], read through [heap m]. *)

(** [TagModel.index(row, column, parent)], lines 109-114. *)
Definition index (m : state) (row column : Z) (parent : option QModelIndex)
  : result (option QModelIndex) :=
  match parent with
  | None =>
      t ← getitem (tags m) row;
      Ok (Some (createIndex row column t))
  | Some p =>
      let parentTag := internalPointer p in
      obj ← deref (heap m) parentTag;
      t ← getitem (children obj) row;
      Ok (Some (createIndex row column t))
  end.

(** [TagModel.parent(index)], lines 116-130. *)
Definition parent_ (m : state) (index : option QModelIndex)
  : result (option QModelIndex) :=
  match index with
  | None => Ok None
  | Some i =>
      let tag := internalPointer i in
      obj ← deref (heap m) tag;
      match Ctags.parent obj with
      | Some parent =>
          pobj ← deref (heap m) parent;
          row ←
            match Ctags.parent pobj with
            | Some grand =>
                gobj ← deref (heap m) grand;
                list_index (children gobj) parent
            | None => list_index (tags m) parent
            end;
          Ok (Some (createIndex row 0 parent))
      | None => Ok None
      end
  end.


(** [TagModel.columnCount(index)], lines 139-140. *)
Definition columnCount (m : state) (index : option QModelIndex) : Z := 1.

(** [TagModel.data(index, role)], lines 142-150; [None] is the empty
    [QVariant()], [displayRole] says whether [role == Qt.DisplayRole]. *)
Definition data (m : state) (index : option QModelIndex) (displayRole : bool)
  : result (option string) :=
  match index with
  | None => Ok None
  | Some i =>
      obj ← deref (heap m) (internalPointer i);
      if displayRole
      then Ok (Some (name obj +:+ " " +:+ str_int (lineNumber obj)))
      else Ok None
  end.

(** An index the view can hold: invalid, or pointing at a tag of the
    store. *)
Definition validIndex (m : state) (i : option QModelIndex) : Prop :=
  match i with
  | None => True
  | Some q => (internalPointer q < length (heap m))%nat
  end.


(** The list a tag is a row of: the children of its parent, or the top
    level list. *)
Definition siblings (m : state) (t : Tag) : list nat :=
  match Ctags.parent t with
  | Some g =>
      match heap m !! g with
      | Some tg => children tg
      | None => []
      end
  | None => tags m
  end.

(** The rows [Tag.format] prints for the tree below a reference: indent
    level and tag, in the order of the lines. *)
Fixpoint rowsAt (h : store) (fuel : nat) (a : nat) (indentLevel : Z)
  : list (Z * nat) :=
  match fuel with
  | O => []
  | S fuel' =>
      match h !! a with
      | None => []
      | Some t =>
          (indentLevel, a)
          :: concat (map (fun c => rowsAt h fuel' c (indentLevel + 1))
                         (children t))
      end
  end.

(** One line of [Tag.format]. *)
Definition formatLine (h : store) (r : Z * nat) : string :=
  match h !! (snd r) with
  | Some t =>
      times tab (Z.to_nat (fst r)) +:+ str_int (lineNumber t)
      +:+ " " +:+ name t
  | None => EmptyString
  end.

End TagView.

(** ** The navigator plugin *)

Module Plugin.
Import PyStr Ctags.

(** What the plugin reads of a document: [document.fileName()], which is
    [None] for a document that has no file yet, and
    [document.qutepart.text]. *)
Record document : Type := mkDocument {
  fileName : option string;
  text : string
}.

Record world : Type := mkPlugin {
  (** [core.workspace().currentDocument()] *)
  currentDocument : option document;
  _typingTimer : Preview.QTimer;
  (** [self._thread], with [self._model] as the receiver of [tagsReady] *)
  _thread : Worker.world;
  (** the calls of [self._thread.process] made so far, oldest first *)
  processCalls : list (string * string)
}.

(** [Plugin.__init__], lines 196-222, as far as the timer, the thread and
    the model go; [doc] is the current document of the workspace. *)
Definition __init__ (doc : option document) : world :=
  {| currentDocument := doc;
     _typingTimer := {| Preview.interval := 1000;
                        Preview.remaining := None |};
     _thread := Worker.init initial;
     processCalls := [] |}.

Definition setTimer (t : Preview.QTimer) (w : world) : world :=
  {| currentDocument := currentDocument w;
     _typingTimer := t;
     _thread := _thread w;
     processCalls := processCalls w |}.

Definition setThread (th : Worker.world) (w : world) : world :=
  {| currentDocument := currentDocument w;
     _typingTimer := _typingTimer w;
     _thread := th;
     processCalls := processCalls w |}.

(** [self._thread.process(fileName, text)]. *)
Definition callProcess (f t : string) (w : world) : world :=
  {| currentDocument := currentDocument w;
     _typingTimer := _typingTimer w;
     _thread := Worker.process f t (_thread w);
     processCalls := processCalls w ++ [(f, t)] |}.

(** [Plugin._isEnabled], lines 231-232, and [Plugin._isSupported], lines
    234-235. *)
Definition _isEnabled : bool := true.

Definition _isSupported (doc : option document) : bool := true.

(** [Plugin._clear], lines 248-249: [self._model.setTags([])]. *)
Definition _clear (w : world) : world :=
  let th := _thread w in
  setThread
    {| Worker._fileName := Worker._fileName th;
       Worker._text := Worker._text th;
       Worker._haveData := Worker._haveData th;
       Worker.thread := Worker.thread th;
       Worker.emitted := Worker.emitted th;
       Worker.queued := Worker.queued th;
       Worker.escaped := Worker.escaped th;
       Worker.model_tags := initial |} w.

(** [Plugin._scheduleDocumentProcessing], lines 251-259. *)
Definition _scheduleDocumentProcessing (w : world) : world :=
  let w := setTimer (Preview.timer_stop (_typingTimer w)) w in
  match currentDocument w with
  | Some doc =>
      match fileName doc with
      | Some f => callProcess f (text doc) w
      | None => w
      end
  | None => w
  end.

(** [Plugin._onDocumentChanged], lines 237-241. *)
Definition _onDocumentChanged (old new : option document) (w : world)
  : world :=
  if _isEnabled && _isSupported new then _scheduleDocumentProcessing w
  else _clear w.

(** [Plugin._onTextChanged], lines 243-246. *)
Definition _onTextChanged (w : world) : world :=
  if _isEnabled
  then setTimer (Preview.timer_start (Preview.timer_stop (_typingTimer w))) w
  else w.

(** One millisecond passes.  The timer is not single shot: when it reaches
    zero it is rearmed for another interval and its [timeout] signal calls
    the one slot connected to it, [_scheduleDocumentProcessing]. *)
Definition elapse1 (w : world) : world :=
  let t := _typingTimer w in
  match Preview.remaining t with
  | Some (S (S k)) =>
      setTimer {| Preview.interval := Preview.interval t;
                  Preview.remaining := Some (S k) |} w
  | Some _ =>
      _scheduleDocumentProcessing (setTimer (Preview.timer_start t) w)
  | None => w
  end.

Fixpoint elapse (ms : nat) (w : world) : world :=
  match ms with
  | O => w
  | S k => elapse k (elapse1 w)
  end.

(** What happens to the plugin from outside. *)
Inductive event : Type :=
| SwitchDocument (new : option document)
    (* the workspace makes [new] current, emits currentDocumentChanged *)
| Edit (text' : string)
    (* the text of the current document becomes [text'], the workspace
       emits textChanged *)
| Elapse (ms : nat)
| ThreadStep             (* the worker thread takes a step *)
| Deliver.               (* the main thread handles a queued tagsReady *)

Definition setText (text' : string) (w : world) : world :=
  {| currentDocument :=
       match currentDocument w with
       | Some doc => Some {| fileName := fileName doc; text := text' |}
       | None => None
       end;
     _typingTimer := _typingTimer w;
     _thread := _thread w;
     processCalls := processCalls w |}.

Definition setDocument (new : option document) (w : world) : world :=
  {| currentDocument := new;
     _typingTimer := _typingTimer w;
     _thread := _thread w;
     processCalls := processCalls w |}.

Definition handle (ctags : Worker.tool) (w : world) (ev : event) : world :=
  match ev with
  | SwitchDocument new =>
      _onDocumentChanged (currentDocument w) new (setDocument new w)
  | Edit text' => _onTextChanged (setText text' w)
  | Elapse ms => elapse ms w
  | ThreadStep => setThread (Worker.threadStep ctags (_thread w)) w
  | Deliver => setThread (Worker.deliver (_thread w)) w
  end.

Definition run (ctags : Worker.tool) (w : world) (evs : list event)
  : world :=
  fold_left (handle ctags) evs w.

(** Keystrokes: each one comes [gap] milliseconds after what came before
    and leaves the document with the text [t]. *)
Definition typing (keys : list (nat * string)) : list event :=
  flat_map (fun k => [Elapse (fst k); Edit (snd k)]) keys.

(** The document has a file name. *)
Definition named (doc : option document) : option string :=
  match doc with
  | Some d => fileName d
  | None => None
  end.

(** Events after which a document without a file name is still current, or
    none: edits, time, and changes to such documents. *)
Definition nameless (ev : event) : bool :=
  match ev with
  | SwitchDocument new =>
      match named new with Some _ => false | None => true end
  | Edit _ | Elapse _ => true
  | ThreadStep | Deliver => false
  end.

(** The plugin with a current document that has a file name, as a function
    of what the typing timer has left. *)
Definition editing (f t : string) (left : option nat) (th : Worker.world)
    (calls : list (string * string)) : world :=
  {| currentDocument := Some {| fileName := Some f; text := t |};
     _typingTimer := {| Preview.interval := 1000;
                        Preview.remaining := left |};
     _thread := th;
     processCalls := calls |}.

End Plugin.

Module PluginFixtures.
Import Plugin Fixtures.
#[local] Open Scope string_scope.

(** A saved document and one that has no file yet. *)
Definition doc_foo : document :=
  {| fileName := Some "foo.py"; text := "x" |}.

Definition doc_unnamed : document :=
  {| fileName := None; text := "y" |}.

End PluginFixtures.

(** ** Clicks in the preview *)

Module PreviewClick.
Import PyStr Preview.

(** The editor of the current document: the length of its text and the
    position of its cursor. *)
Record qutepart : Type := mkQutepart {
  textLength : Z;
  position : Z
}.

Record world : Type := mkClick {
  (** the [PreviewSync] object *)
  sync : Preview.world;
  (** [core.workspace().currentDocument().qutepart]; [None] when there is no
      current document *)
  document : option qutepart;
  (** calls of [self._scrollSync()] *)
  scrollSyncs : nat
}.

(** [self._previewToTextSyncRunning = b] *)
Definition setRunning (b : bool) (w : Preview.world) : Preview.world :=
  {| capability := capability w; qwebchannel_js := qwebchannel_js w;
     _dock := _dock w; dockVisible := dockVisible w;
     _cursorMovementTimer := _cursorMovementTimer w;
     _previewToTextSyncRunning := Some b;
     _runLatest := _runLatest w; channel := channel w;
     connections := connections w;
     matchRequests := matchRequests w; cancels := cancels w |}.

(** [cursor.setPosition(textIndex, MoveAnchor)] on a copy of the cursor: Qt
    leaves the cursor where it is when the position is outside the text. *)
Definition setPosition (textIndex : Z) (qp : qutepart) : Z :=
  if ((0 <=? textIndex) && (textIndex <=? textLength qp))%Z then textIndex
  else position qp.

(** [PreviewSync._moveTextPaneToIndex(textIndex, noWebSync=True)], lines
    523-544.  [qp.setTextCursor(cursor)] emits [cursorPositionChanged] when
    the position is a new one, and the slots connected to the signal run
    before it returns.  [self._scrollSync()] starts by reading
    [self._dock]. *)
Definition _moveTextPaneToIndex (textIndex : Z) (noWebSync : bool)
    (w : world) : result world :=
  match document w with
  | None => Raise AttributeError
  | Some qp =>
      let cursor := setPosition textIndex qp in
      let s := setRunning noWebSync (sync w) in
      s ← (if (cursor =? position qp)%Z then Ok s
           else emitSignal cursorPositionChanged s);
      let s := setRunning false s in
      if _dock s
      then Ok {| sync := s;
                 document := Some {| textLength := textLength qp;
                                     position := cursor |};
                 scrollSyncs := S (scrollSyncs w) |}
      else Raise AttributeError
  end.

(** [PreviewSync._onWebviewClick(tc, webIndex)], lines 511-521.  [found] is
    the outcome of the call
    [findApproxTextInTarget(tc, webIndex, qp.text)]. *)
Definition _onWebviewClick (found : result Z) (w : world) : result world :=
  match document w with
  | None => Raise AttributeError
  | Some qp =>
      textIndex ← found;
      if (0 <=? textIndex)%Z then _moveTextPaneToIndex textIndex true w
      else Ok w
  end.

End PreviewClick.

(** ** Lines as ctags prints them *)

Module TagLine.
Import PyStr Ctags.

(** [c not in s] for a character [c]. *)
Fixpoint free (c : ascii) (s : string) : bool :=
  match s with
  | EmptyString => true
  | String x rest => negb (Ascii.eqb x c) && free c rest
  end.

(** [c.join(parts)] for a one-character string [c]. *)
Definition join (c : ascii) (parts : list string) : string :=
  String.concat (String c EmptyString) parts.

End TagLine.

(** * Properties *)

(** ** Scroll alignment *)

Section ScrollAlignFacts.
Import ScrollAlign.
#[local] Open Scope Z_scope.

Example alignScrollAmount_spec_example :
  _alignScrollAmount 0 100 0 50 500 20 10 = 50.
Proof. reflexivity. Qed.

Example alignScrollAmount_clamping_example :
  _alignScrollAmount 0 100 0 490 500 20 10 = -390.
Proof. reflexivity. Qed.

(** C1.  For all integer arguments [_alignScrollAmount] returns the value of
    the two-step clamp: the minimum of the bottom bound and the maximum of
    the top bound and the raw difference; on (0, 100, 0, 50, 500, 20, 10)
    that value is 50. *)
Theorem alignScrollAmount_formula :
  (forall sGT sCB tGT tCB tH tCH pad : Z,
      _alignScrollAmount sGT sCB tGT tCB tH tCH pad =
      Z.min (tH - tCB - pad)
            (Z.max (- tCB + tCH + pad) ((sGT + sCB) - (tGT + tCB))))
  /\ _alignScrollAmount 0 100 0 50 500 20 10 = 50.
Proof.
  split.
  - intros. unfold _alignScrollAmount. cbv zeta. reflexivity.
  - vm_compute. reflexivity.
Qed.

Lemma alignScrollAmount_le_bottom sGT sCB tGT tCB tH tCH pad :
  _alignScrollAmount sGT sCB tGT tCB tH tCH pad <= bottomBound tH tCB pad.
Proof. unfold _alignScrollAmount, bottomBound. cbv zeta. apply Z.le_min_l. Qed.

Lemma alignScrollAmount_ge_top sGT sCB tGT tCB tH tCH pad :
  topBound tCB tCH pad <= bottomBound tH tCB pad ->
  topBound tCB tCH pad <= _alignScrollAmount sGT sCB tGT tCB tH tCH pad.
Proof. unfold _alignScrollAmount, topBound, bottomBound. cbv zeta. lia. Qed.

(** C10.  The result never exceeds the bottom bound, whatever the arguments;
    and when the padded window is empty (targetHeight - targetCursorHeight -
    2*padding < 0) the result is the bottom bound itself, which lies strictly
    below the top bound: the top-padding constraint is the one given up. *)
Theorem alignScrollAmount_bottom_precedence :
  (forall sGT sCB tGT tCB tH tCH pad : Z,
      _alignScrollAmount sGT sCB tGT tCB tH tCH pad <= tH - tCB - pad)
  /\ (forall sGT sCB tGT tCB tH tCH pad : Z,
        tH - tCH - 2 * pad < 0 ->
        _alignScrollAmount sGT sCB tGT tCB tH tCH pad = tH - tCB - pad
        /\ ~ (_alignScrollAmount sGT sCB tGT tCB tH tCH pad
              >= - tCB + tCH + pad)).
Proof.
  split.
  - intros. apply alignScrollAmount_le_bottom.
  - intros sGT sCB tGT tCB tH tCH pad Hempty.
    unfold _alignScrollAmount. cbv zeta. lia.
Qed.

Lemma alignScrollAmount_bottom_precedence_witness :
  30 - 20 - 2 * 10 < 0
  /\ _alignScrollAmount 0 100 0 50 30 20 10 = 30 - 50 - 10
  /\ ~ (_alignScrollAmount 0 100 0 50 30 20 10 >= - 50 + 20 + 10).
Proof.
  split; [lia |].
  apply (proj2 alignScrollAmount_bottom_precedence 0 100 0 50 30 20 10).
  lia.
Defined.

End ScrollAlignFacts.

(** ** Python builtins *)

Section PyStrFacts.
Import PyStr.

Lemma split_nonempty sep s : split sep s <> [].
Proof.
  destruct s as [|c s]; simpl; [discriminate |].
  destruct (Ascii.eqb c sep); [discriminate |].
  destruct (split sep s); discriminate.
Qed.

Lemma length_split_pos sep s : (0 < length (split sep s))%nat.
Proof.
  pose proof (split_nonempty sep s) as H.
  destruct (split sep s); [congruence | simpl; lia].
Qed.

(** [l[-1]] of a list that is not empty is its last element. *)
Lemma getitem_neg_last {A} (l : list A) (d : A) :
  l <> [] -> getitem_neg l 1 = Ok (List.last l d).
Proof.
  intros Hne. unfold getitem_neg.
  destruct (Nat.ltb_spec (length l) 1) as [Hlt | Hge].
  - destruct l; [congruence | simpl in Hlt; lia].
  - destruct (@exists_last _ l Hne) as [l' [x ->]].
    rewrite last_last, length_app. simpl.
    replace (length l' + 1 - 1)%nat with (length l' + 0)%nat by lia.
    rewrite lookup_app_r by lia.
    replace (length l' + 0 - length l')%nat with 0%nat by lia.
    reflexivity.
Qed.

Lemma getitem_neg_short {A} (l : list A) (k : nat) :
  (length l < k)%nat -> getitem_neg l k = Raise IndexError.
Proof.
  intros H. unfold getitem_neg.
  destruct (Nat.ltb_spec (length l) k); [reflexivity | lia].
Qed.

Lemma getitem_neg_nth {A} (l : list A) (k : nat) (d : A) :
  (1 <= k <= length l)%nat ->
  getitem_neg l k = Ok (nth (length l - k) l d).
Proof.
  intros Hk. unfold getitem_neg.
  destruct (Nat.ltb_spec (length l) k) as [Hlt | _]; [lia |].
  destruct (nth_lookup_or_length l (length l - k) d) as [-> | Hge];
    [reflexivity | lia].
Qed.

Lemma prefix_spec (a b : string) :
  String.prefix a b = true <-> exists post, b = (a ++ post)%string.
Proof.
  revert b. induction a as [|c a IH]; intros b; simpl.
  - split; [intros _; exists b; reflexivity |].
    intros _; destruct b; reflexivity.
  - destruct b as [|c' b].
    + split; [discriminate | intros [post H]; discriminate].
    + simpl. destruct (ascii_dec c c') as [-> | Hne].
      * rewrite IH. split; intros [post H]; exists post;
          [rewrite H; reflexivity | injection H as H; exact H].
      * split; [discriminate |].
        intros [post H]. injection H as H1 H2. congruence.
Qed.

(** [needle in hay] holds exactly when [hay] is [needle] with something in
    front and something behind. *)
Lemma contains_spec (needle hay : string) :
  contains needle hay = true <->
  exists pre post, hay = (pre ++ needle ++ post)%string.
Proof.
  induction hay as [|c hay IH].
  - change (contains needle EmptyString)
      with (String.prefix needle EmptyString || false).
    rewrite orb_false_r, prefix_spec. split.
    + intros [post H]. exists EmptyString, post. exact H.
    + intros [pre [post H]]. destruct pre; [| discriminate].
      exists post. exact H.
  - change (contains needle (String c hay))
      with (String.prefix needle (String c hay) || contains needle hay).
    rewrite orb_true_iff, prefix_spec, IH. split.
    + intros [[post H] | [pre [post H]]].
      * exists EmptyString, post. exact H.
      * exists (String c pre), post. rewrite H. reflexivity.
    + intros [pre [post H]]. destruct pre as [|c' pre].
      * left. exists post. exact H.
      * right. exists pre, post. injection H as H1 H2. exact H2.
Qed.

End PyStrFacts.


(** ** The tag parser *)

Section CtagsFacts.
Import PyStr Ctags Fixtures.
#[local] Open Scope string_scope.
#[local] Open Scope list_scope.

(** *** The ignore test *)

Lemma ignored_spec (kind : string) :
  ignored kind = true <->
  exists pre post, "variable" = (pre ++ kind ++ post)%string.
Proof. unfold ignored, ignoredTypes. apply contains_spec. Qed.

Lemma addRecord_ignored st nm ln kind scope :
  ignored kind = true -> addRecord st (nm, ln, kind, scope) = Ok st.
Proof. intros H. unfold addRecord. rewrite H. reflexivity. Qed.

Example ignored_examples :
  ignored "v" = true /\ ignored "var" = true /\ ignored "able" = true
  /\ ignored EmptyString = true /\ ignored "variable" = true
  /\ ignored "f" = false /\ ignored "function" = false
  /\ ignored "variables" = false.
Proof. repeat split; reflexivity. Qed.

(** C9.  A record whose kind is a contiguous piece of the string "variable"
    is skipped: the ignore test is substring membership in that string, so
    the loop leaves its tags, its store and [lastTag] as they were, for the
    parsed record and for a line that parses to it. *)
Theorem substring_kinds_skipped (pre kind post : string) :
  (pre ++ kind ++ post)%string = "variable" ->
  ignored kind = true
  /\ (forall st nm ln scope, addRecord st (nm, ln, kind, scope) = Ok st)
  /\ (forall st line nm ln scope,
         parseTag line = Ok (nm, ln, kind, scope) -> loopBody st line = Ok st).
Proof.
  intros Hsub.
  assert (Hig : ignored kind = true).
  { apply ignored_spec. exists pre, post. symmetry. exact Hsub. }
  split; [exact Hig |]. split.
  - intros. apply addRecord_ignored. exact Hig.
  - intros st line nm ln scope Hp. unfold loopBody. rewrite Hp.
    apply addRecord_ignored. exact Hig.
Qed.

Lemma substring_kinds_skipped_witness :
  ("vari" ++ "able" ++ EmptyString)%string = "variable"
  /\ ignored "able" = true
  /\ (forall st nm ln scope, addRecord st (nm, ln, "able", scope) = Ok st)
  /\ (forall st line nm ln scope,
         parseTag line = Ok (nm, ln, "able", scope) ->
         loopBody st line = Ok st).
Proof.
  split; [reflexivity |].
  apply (substring_kinds_skipped "vari" "able" EmptyString). reflexivity.
Defined.

(** Other pieces of the string, and the empty kind. *)
Example skipped_kind_examples st nm ln scope :
  addRecord st (nm, ln, "v", scope) = Ok st
  /\ addRecord st (nm, ln, "var", scope) = Ok st
  /\ addRecord st (nm, ln, EmptyString, scope) = Ok st.
Proof.
  split; [| split]; apply addRecord_ignored; reflexivity.
Qed.

(** *** The example of the specification *)

Example spec_text_records :
  map parseTag (splitlines spec_text) = map Ok spec_stream
  /\ map parseTag (splitlines spec_text_foo) = map Ok spec_stream_foo.
Proof. split; vm_compute; reflexivity. Qed.



(** *** Records with a wrong number of fields *)

(** C5, as stated, fails: a line of four fields, and one of seven, are read
    as records and the parser returns a forest. *)
Lemma four_fields_accepted :
  length (split tab four_fields) = 4%nat
  /\ length (split tab seven_fields) = 7%nat
  /\ (exists st, parseTags four_fields = Ok st
                 /\ forest st = [Node "foo" 7 []])
  /\ (exists st, parseTags seven_fields = Ok st
                 /\ forest st = [Node "foo" 7 []]).
Proof.
  split; [reflexivity |]. split; [reflexivity |].
  split; eexists; split; vm_compute; reflexivity.
Qed.

(** *** Well-formed stores *)

Lemma wfStore_nil : wfStore [].
Proof. intros a t H. destruct a; discriminate H. Qed.

Lemma lookup_lt_length (h : store) a :
  (a < length h)%nat -> exists t, h !! a = Some t.
Proof.
  intros H. apply lookup_lt_is_Some_2 in H. destruct H as [t H]. eauto.
Qed.

(** With a budget of at least the reference it starts from, [findScope]
    returns, and what it returns is [None] or a reference not above the
    start. *)
Lemma findScope_returns (h : store) (scopeName : option string) :
  wfStore h ->
  forall fuel a,
    (a < length h)%nat -> (a <= fuel)%nat ->
    exists r, findScope h fuel (Some a) scopeName = Ok r
              /\ (forall p, r = Some p -> (p <= a)%nat).
Proof.
  intros Hwf. induction fuel as [|fuel IH]; intros a Ha Hfuel.
  - destruct (lookup_lt_length h a Ha) as [t Ht]. simpl. rewrite Ht.
    destruct (nameIs t scopeName).
    + eexists. split; [reflexivity |]. intros p [= <-]. lia.
    + destruct (parent t) as [p|] eqn:Hp.
      * destruct (Hwf a t Ht) as [Hpar _]. specialize (Hpar p Hp). lia.
      * eexists. split; [reflexivity |]. intros p [=].
  - destruct (lookup_lt_length h a Ha) as [t Ht]. simpl. rewrite Ht.
    destruct (nameIs t scopeName).
    + eexists. split; [reflexivity |]. intros p [= <-]. lia.
    + destruct (parent t) as [p|] eqn:Hp.
      * destruct (Hwf a t Ht) as [Hpar _]. specialize (Hpar p Hp).
        destruct (IH p) as [r [Hr Hle]]; [lia | lia |].
        exists r. split; [exact Hr |]. intros q Hq. specialize (Hle q Hq). lia.
      * eexists. split; [reflexivity |]. intros p [=].
Qed.

Lemma findScope_none (h : store) fuel scopeName :
  findScope h fuel None scopeName = Ok None.
Proof. destruct fuel; reflexivity. Qed.

(** The store after a tag is allocated, and after it is appended to the
    children of its parent. *)
Lemma lookup_alloc_old (h : store) (t : Tag) a :
  (a < length h)%nat -> (h ++ [t]) !! a = h !! a.
Proof. intros H. apply lookup_app_l. exact H. Qed.

Lemma lookup_alloc_new (h : store) (t : Tag) :
  (h ++ [t]) !! length h = Some t.
Proof.
  rewrite lookup_app_r by lia. rewrite Nat.sub_diag. reflexivity.
Qed.

Lemma lookup_appendChild_parent (h : store) p n t :
  h !! p = Some t ->
  appendChild p n h !! p =
  Some {| name := name t; lineNumber := lineNumber t;
          parent := parent t; children := children t ++ [n] |}.
Proof.
  intros H. unfold appendChild. rewrite list_lookup_alter_eq, H. reflexivity.
Qed.

Lemma lookup_appendChild_other (h : store) p n a :
  a <> p -> appendChild p n h !! a = h !! a.
Proof.
  intros H. unfold appendChild. apply list_lookup_alter_ne. congruence.
Qed.

Lemma length_appendChild (h : store) p n :
  length (appendChild p n h) = length h.
Proof. unfold appendChild. apply length_alter. Qed.

Lemma wfStore_alloc_root (h : store) nm ln :
  wfStore h -> wfStore (h ++ [mkTag nm ln None []]).
Proof.
  intros Hwf a t Ht.
  destruct (Nat.lt_ge_cases a (length h)) as [Hlt | Hge].
  - rewrite lookup_alloc_old in Ht by exact Hlt.
    destruct (Hwf a t Ht) as [Hp Hc]. split; [exact Hp |].
    intros c Hin. specialize (Hc c Hin). rewrite length_app. simpl. lia.
  - apply lookup_lt_Some in Ht as Hlen. rewrite length_app in Hlen.
    simpl in Hlen. assert (a = length h) as -> by lia.
    rewrite lookup_alloc_new in Ht. injection Ht as <-. simpl.
    split; [intros p [=] | intros c []].
Qed.

Lemma wfStore_alloc_child (h : store) nm ln p :
  wfStore h -> (p < length h)%nat ->
  wfStore (appendChild p (length h) (h ++ [mkTag nm ln (Some p) []])).
Proof.
  intros Hwf Hp a t Ht.
  rewrite length_appendChild, length_app. simpl.
  destruct (Nat.eq_dec a p) as [-> | Hne].
  - destruct (lookup_lt_length h p Hp) as [tp Htp].
    rewrite (lookup_appendChild_parent _ _ _ tp) in Ht
      by (rewrite lookup_alloc_old by exact Hp; exact Htp).
    injection Ht as <-. simpl.
    destruct (Hwf p tp Htp) as [Hpar Hch]. split; [exact Hpar |].
    intros c Hin. apply in_app_or in Hin as [Hin | [<- | []]].
    + specialize (Hch c Hin). lia.
    + lia.
  - rewrite lookup_appendChild_other in Ht by exact Hne.
    destruct (Nat.lt_ge_cases a (length h)) as [Hlt | Hge].
    + rewrite lookup_alloc_old in Ht by exact Hlt.
      destruct (Hwf a t Ht) as [Hpar Hch]. split; [exact Hpar |].
      intros c Hin. specialize (Hch c Hin). lia.
    + apply lookup_lt_Some in Ht as Hlen. rewrite length_app in Hlen.
      simpl in Hlen. assert (a = length h) as -> by lia.
      rewrite lookup_alloc_new in Ht. injection Ht as <-. simpl.
      split; [intros q [= <-]; exact Hp | intros c []].
Qed.

(** *** The nodes of the forest *)



(** The nodes below a reference depend on the store up to its length only,
    and not on the budget once it covers the references above the start. *)
Lemma nodesAt_agree (h h' : store) :
  wfStore h ->
  (forall b, (b < length h)%nat -> h' !! b = h !! b) ->
  forall fuel fuel' a,
    (a < length h)%nat ->
    (length h <= a + fuel)%nat -> (length h <= a + fuel')%nat ->
    nodesAt h' fuel' a = nodesAt h fuel a.
Proof.
  intros Hwf Hsame. induction fuel as [|fuel IH]; intros fuel' a Ha Hf Hf'.
  - lia.
  - destruct fuel' as [|fuel']; [lia |]. cbn [nodesAt].
    rewrite (Hsame a Ha). destruct (h !! a) as [t|] eqn:Ht; [| reflexivity].
    f_equal. f_equal. apply map_ext_in. intros c Hc.
    destruct (Hwf a t Ht) as [_ Hch]. specialize (Hch c Hc).
    apply IH; lia.
Qed.

Lemma nodesAt_fuel (h : store) fuel fuel' a :
  wfStore h -> (a < length h)%nat ->
  (length h <= a + fuel)%nat -> (length h <= a + fuel')%nat ->
  nodesAt h fuel' a = nodesAt h fuel a.
Proof. intros Hwf. apply nodesAt_agree; [exact Hwf | reflexivity]. Qed.

(** If every list grows by as many copies of [n] as it holds copies of [p],
    so does their concatenation. *)
Lemma concat_grows (F G : nat -> list nat) (p n : nat) (l : list nat) :
  (forall c, In c l -> F c ≡ₚ G c ++ repeat n (occ (G c) p)) ->
  concat (map F l) ≡ₚ
  concat (map G l) ++ repeat n (occ (concat (map G l)) p).
Proof.
  induction l as [|c l IH]; intros H; [reflexivity |].
  cbn [map concat]. rewrite count_occ_app, repeat_app.
  rewrite (H c) by (left; reflexivity).
  rewrite IH by (intros c' Hc'; apply H; right; exact Hc').
  rewrite <- !app_assoc. apply Permutation_app_head.
  rewrite !app_assoc. apply Permutation_app_tail.
  apply Permutation_app_comm.
Qed.

(** Allocating the tag [n = length h] as a child of [p] adds [n] to the
    nodes below [a] once for every time [p] is among them. *)
Lemma nodesAt_alloc_child (h : store) nm ln p :
  wfStore h -> (p < length h)%nat ->
  forall fuel a,
    (a < length h)%nat -> (length h + 1 <= a + fuel)%nat ->
    nodesAt (appendChild p (length h) (h ++ [mkTag nm ln (Some p) []])) fuel a
    ≡ₚ nodesAt h fuel a ++ repeat (length h) (occ (nodesAt h fuel a) p).
Proof.
  intros Hwf Hp.
  set (h' := appendChild p (length h) (h ++ [mkTag nm ln (Some p) []])).
  induction fuel as [|fuel IH]; intros a Ha Hf; [lia |].
  destruct (lookup_lt_length h a Ha) as [t Ht].
  destruct (Hwf a t Ht) as [_ Hch].
  assert (Hkids :
    concat (map (nodesAt h' fuel) (children t)) ≡ₚ
    concat (map (nodesAt h fuel) (children t)) ++
    repeat (length h) (occ (concat (map (nodesAt h fuel) (children t))) p)).
  { apply concat_grows. intros c Hc. specialize (Hch c Hc). apply IH; lia. }
  cbn [nodesAt]. rewrite Ht.
  destruct (Nat.eq_dec a p) as [-> | Hne].
  - unfold h'.
    rewrite (lookup_appendChild_parent _ _ _ t)
      by (rewrite lookup_alloc_old by exact Hp; exact Ht).
    cbn [children]. rewrite map_app, concat_app. cbn [map concat].
    rewrite app_nil_r. fold h'.
    assert (Hnew : nodesAt h' fuel (length h) = [length h]).
    { destruct fuel as [|fuel']; [lia |]. cbn [nodesAt]. unfold h'.
      rewrite lookup_appendChild_other by lia.
      rewrite lookup_alloc_new. reflexivity. }
    rewrite Hnew, Hkids.
    rewrite count_occ_cons_eq by reflexivity. cbn [repeat].
    rewrite <- !app_comm_cons. apply perm_skip.
    rewrite <- app_assoc. apply Permutation_app_head.
    symmetry. apply Permutation_cons_append.
  - unfold h'. rewrite lookup_appendChild_other by exact Hne.
    rewrite lookup_alloc_old by exact Ha. rewrite Ht. fold h'.
    rewrite Hkids.
    rewrite count_occ_cons_neq by exact Hne.
    reflexivity.
Qed.

(** *** The loop invariant *)

Lemma Inv_initial : Inv initial.
Proof.
  constructor; simpl.
  - apply wfStore_nil.
  - intros a [=].
  - intros r [].
  - intros a t H. destruct a; discriminate H.
  - reflexivity.
Qed.

Lemma occ_seq (n p : nat) : (p < n)%nat -> occ (seq 0 n) p = 1%nat.
Proof.
  intros H. apply NoDup_count_occ'; [apply seq_NoDup |].
  apply in_seq. lia.
Qed.

(** One iteration on a parsed record returns, keeps the invariant, and
    allocates one tag exactly when the record is kept. *)
Lemma addRecord_Inv (st : state) (r : record) :
  Inv st ->
  exists st', addRecord st r = Ok st' /\ Inv st'
              /\ length (heap st') =
                 (length (heap st) + (if kept r then 1 else 0))%nat.
Proof.
  intros [Hwf Hlast Htags Hroots Hnodes].
  destruct r as [[[nm ln] kind] scope]. unfold addRecord, kept.
  destruct (ignored kind); cbn [negb].
  { exists st. split; [reflexivity |]. split; [constructor; assumption | lia]. }
  set (N := length (heap st)) in *.
  assert (Hfind : exists par,
             findScope (heap st) N (lastTag st) scope = Ok par
             /\ (forall p, par = Some p -> (p < N)%nat)).
  { destruct (lastTag st) as [a|] eqn:Hl.
    - specialize (Hlast a eq_refl).
      destruct (findScope_returns (heap st) scope Hwf N a) as [par [Hr Hle]];
        [exact Hlast | lia |].
      exists par. split; [exact Hr |]. intros p Hp. specialize (Hle p Hp). lia.
    - exists None. split; [apply findScope_none | intros p [=]]. }
  destruct Hfind as [par [Hfind Hpar]]. rewrite Hfind. cbn [mbind result_bind].
  destruct par as [p|].
  - (* the tag goes under [p] *)
    specialize (Hpar p eq_refl).
    eexists. split; [reflexivity |].
    split; [| cbn [heap]; rewrite length_appendChild, length_app; reflexivity].
    constructor; cbn [heap tags lastTag].
    + apply wfStore_alloc_child; assumption.
    + intros a [= <-]. rewrite length_appendChild, length_app. simpl. lia.
    + intros r Hr. specialize (Htags r Hr).
      rewrite length_appendChild, length_app. simpl. lia.
    + intros a t Ht Hnone.
      destruct (Nat.eq_dec a p) as [-> | Hne].
      * destruct (lookup_lt_length (heap st) p Hpar) as [tp Htp].
        rewrite (lookup_appendChild_parent _ _ _ tp) in Ht
          by (rewrite lookup_alloc_old by exact Hpar; exact Htp).
        injection Ht as <-. apply (Hroots p tp Htp Hnone).
      * rewrite lookup_appendChild_other in Ht by exact Hne.
        destruct (Nat.lt_ge_cases a N) as [Hlt | Hge].
        -- rewrite lookup_alloc_old in Ht by exact Hlt.
           apply (Hroots a t Ht Hnone).
        -- apply lookup_lt_Some in Ht as Hlen. rewrite length_app in Hlen.
           simpl in Hlen. assert (a = N) as -> by (unfold N; lia).
           unfold N in Ht. rewrite lookup_alloc_new in Ht.
           injection Ht as <-. discriminate Hnone.
    + unfold nodes. cbn [heap tags].
      rewrite length_appendChild, length_app. cbn [length].
      rewrite (concat_grows _ (nodesAt (heap st) (N + 1)) p N).
      2:{ intros c Hc. specialize (Htags c Hc).
          apply nodesAt_alloc_child; [assumption | assumption | exact Htags |].
          unfold N. lia. }
      assert (Hsame :
        map (nodesAt (heap st) (N + 1)) (tags st) =
        map (nodesAt (heap st) N) (tags st)).
      { apply map_ext_in. intros c Hc. specialize (Htags c Hc).
        apply nodesAt_fuel; [assumption | exact Htags | |]; unfold N; lia. }
      rewrite Hsame.
      change (concat (map (nodesAt (heap st) N) (tags st))) with (nodes st).
      rewrite (proj1 (Permutation_count_occ Nat.eq_dec _ _) Hnodes p).
      rewrite occ_seq by exact Hpar. cbn [repeat].
      rewrite Hnodes. rewrite seq_app. reflexivity.
  - (* the tag is a root *)
    eexists. split; [reflexivity |].
    split; [| cbn [heap]; rewrite length_app; reflexivity].
    constructor; cbn [heap tags lastTag].
    + apply wfStore_alloc_root; assumption.
    + intros a [= <-]. rewrite length_app. simpl. lia.
    + intros r Hr. rewrite length_app. simpl.
      apply in_app_or in Hr as [Hr | [<- | []]]; [| lia].
      specialize (Htags r Hr). lia.
    + intros a t Ht Hnone. apply in_or_app.
      destruct (Nat.lt_ge_cases a N) as [Hlt | Hge].
      * left. rewrite lookup_alloc_old in Ht by exact Hlt.
        apply (Hroots a t Ht Hnone).
      * right. apply lookup_lt_Some in Ht as Hlen. rewrite length_app in Hlen.
        simpl in Hlen. left. unfold N in *. lia.
    + unfold nodes. cbn [heap tags]. subst N.
      rewrite length_app. cbn [length].
      rewrite map_app, concat_app. cbn [map concat]. rewrite app_nil_r.
      assert (Hsame :
        map (nodesAt (heap st ++ [mkTag nm ln None []])
                     (length (heap st) + 1)) (tags st) =
        map (nodesAt (heap st) (length (heap st))) (tags st)).
      { apply map_ext_in. intros c Hc. specialize (Htags c Hc).
        apply nodesAt_agree; [assumption | | exact Htags | lia | lia].
        intros b Hb. apply lookup_alloc_old. exact Hb. }
      rewrite Hsame.
      change (concat (map (nodesAt (heap st) (length (heap st))) (tags st)))
        with (nodes st).
      replace (length (heap st) + 1)%nat with (S (length (heap st))) by lia.
      cbn [nodesAt].
      rewrite lookup_alloc_new. cbn [children map concat].
      rewrite Hnodes. rewrite seq_S. reflexivity.
Qed.

(** *** What [parseTag] can do *)

Lemma benign_bind {A B} (m : result A) (f : A -> result B) :
  benign m -> (forall a, benign (f a)) -> benign (m ≫= f).
Proof.
  destruct m as [a | e |]; cbn; intros Hm Hf; [apply Hf | exact Hm | exact Hm].
Qed.

Lemma benign_getitem0 {A} (l : list A) : benign (getitem0 l).
Proof. destruct l; cbn; auto. Qed.

Lemma benign_getitem_neg {A} (l : list A) k : benign (getitem_neg l k).
Proof.
  unfold getitem_neg. destruct (length l <? k)%nat; cbn; auto.
  destruct (l !! _); cbn; auto.
Qed.

Lemma benign_int_ s : benign (int_ s).
Proof.
  unfold int_.
  destruct (match strip s with
            | String "-"%char r => ((-1)%Z, r)
            | String "+"%char r => (1%Z, r)
            | _ => (1%Z, strip s)
            end) as [sign body].
  destruct body as [|c body]; [cbn; auto |].
  destruct (digits 0 (String c body)); cbn; auto.
Qed.

Lemma benign_parseTag line : benign (parseTag line).
Proof.
  unfold parseTag.
  apply benign_bind; [apply benign_getitem0 | intros nm].
  apply benign_bind.
  - destruct (length _ =? 5)%nat;
      repeat (apply benign_bind; [apply benign_getitem_neg | intros ?]);
      exact I.
  - intros [[type_ lineText] scopeText].
    apply benign_bind; [apply benign_getitem_neg | intros lineField].
    apply benign_bind; [apply benign_int_ | intros ln].
    apply benign_bind; [| intros; exact I].
    destruct scopeText as [[|c s]|]; try exact I.
    repeat (apply benign_bind; [apply benign_getitem_neg | intros ?]).
    exact I.
Qed.

(** A line of fewer than three fields has no [items[-3]]. *)
Lemma parseTag_short line :
  (length (split tab line) < 3)%nat -> parseTag line = Raise IndexError.
Proof.
  intros Hlen. unfold parseTag.
  destruct (split tab line) as [|a items] eqn:Hs.
  { exfalso. exact (split_nonempty _ _ Hs). }
  cbn [getitem0 mbind result_bind].
  destruct (Nat.eqb_spec (length (a :: items)) 5) as [H5 | _]; [lia |].
  rewrite (getitem_neg_short (a :: items) 3 Hlen). reflexivity.
Qed.


Lemma int_raises s e : int_ s = Raise e -> e = ValueError.
Proof.
  unfold int_.
  destruct (match strip s with
            | String "-"%char r => ((-1)%Z, r)
            | String "+"%char r => (1%Z, r)
            | _ => (1%Z, strip s)
            end) as [sign body].
  destruct body as [|c body]; [intros [= <-]; reflexivity |].
  destruct (digits 0 (String c body)); [discriminate |].
  intros [= <-]. reflexivity.
Qed.

Lemma int_no_fuel s : int_ s <> OutOfFuel.
Proof.
  pose proof (benign_int_ s) as H.
  destruct (int_ s); cbn in H; [discriminate | discriminate | contradiction].
Qed.

(** A line of three fields or more, but not five, is read with the layout of
    six: the kind is [items[-3]], the line field [items[-2]], the scope comes
    from [items[-1]].  It is a record when what follows the last colon of the
    line field is an integer literal, and a [ValueError] otherwise. *)
Lemma parseTag_not_five (line : string) :
  (3 <= length (split tab line))%nat -> length (split tab line) <> 5%nat ->
  forall items, items = split tab line ->
  match int_ (List.last (split ":" (nth (length items - 2) items EmptyString))
                        EmptyString) with
  | Ok ln =>
      exists scope,
        parseTag line =
        Ok (nth 0 items EmptyString, ln,
            nth (length items - 3) items EmptyString, scope)
  | _ => parseTag line = Raise ValueError
  end.
Proof.
  intros H3 H5 items Hitems. unfold parseTag. rewrite <- Hitems in *.
  assert (Hget0 : getitem0 items = Ok (nth 0 items EmptyString)).
  { destruct items; [cbn in H3; lia | reflexivity]. }
  rewrite Hget0. cbn [mbind result_bind].
  destruct (Nat.eqb_spec (length items) 5) as [|_]; [contradiction |].
  rewrite (getitem_neg_nth items 3 EmptyString) by lia.
  cbn [mbind result_bind].
  rewrite (getitem_neg_nth items 2 EmptyString) by lia.
  cbn [mbind result_bind].
  rewrite (getitem_neg_nth items 1 EmptyString) by lia.
  cbn [mbind result_bind].
  rewrite (getitem_neg_last _ EmptyString) by apply split_nonempty.
  cbn [mbind result_bind].
  destruct (int_ _) as [ln | e |] eqn:Hint.
  - cbn [mbind result_bind].
    destruct (nth (length items - 1) items EmptyString) as [|c s].
    + cbn. eauto.
    + rewrite (getitem_neg_last _ EmptyString) by apply split_nonempty.
      cbn [mbind result_bind].
      rewrite (getitem_neg_last _ EmptyString) by apply split_nonempty.
      cbn. eauto.
  - cbn. rewrite (int_raises _ _ Hint). reflexivity.
  - exfalso. exact (int_no_fuel _ Hint).
Qed.

(** *** The loop *)

Lemma loopBody_Inv (st : state) (line : string) (r : record) :
  Inv st -> parseTag line = Ok r ->
  exists st', loopBody st line = Ok st' /\ Inv st'
              /\ length (heap st') =
                 (length (heap st) + (if keptLine line then 1 else 0))%nat.
Proof.
  intros HI Hp. unfold loopBody, keptLine. rewrite Hp. cbn [mbind result_bind].
  apply addRecord_Inv. exact HI.
Qed.

(** On lines that all parse, the loop returns, keeps the invariant and
    allocates one tag for every kept line. *)
Lemma loop_Inv (lines : list string) :
  Forall (fun l => exists r, parseTag l = Ok r) lines ->
  forall st, Inv st ->
  exists st', loop st lines = Ok st' /\ Inv st'
              /\ length (heap st') =
                 (length (heap st) + length (List.filter keptLine lines))%nat.
Proof.
  induction 1 as [|line lines [r Hr] _ IH]; intros st HI.
  - exists st. split; [reflexivity |]. split; [exact HI | simpl; lia].
  - destruct (loopBody_Inv st line r HI Hr) as [st1 [H1 [HI1 Hlen1]]].
    destruct (IH st1 HI1) as [st' [H' [HI' Hlen']]].
    exists st'. cbn [loop]. rewrite H1. cbn [mbind result_bind].
    split; [exact H' |]. split; [exact HI' |].
    rewrite Hlen', Hlen1. cbn [List.filter].
    destruct (keptLine line); simpl; lia.
Qed.

(** A line of fewer than three fields anywhere makes the loop raise. *)
Lemma loop_short_raises (lines : list string) :
  Exists (fun l => (length (split tab l) < 3)%nat) lines ->
  forall st, Inv st ->
  loop st lines = Raise IndexError \/ loop st lines = Raise ValueError.
Proof.
  intros Hex st. revert st.
  induction lines as [|line lines IH]; intros st HI.
  - inversion Hex.
  - cbn [loop]. unfold loopBody.
    pose proof (benign_parseTag line) as Hb.
    destruct (parseTag line) as [r | e |] eqn:Hp; cbn in Hb.
    + cbn [mbind result_bind].
      destruct (addRecord_Inv st r HI) as [st1 [H1 [HI1 _]]].
      rewrite H1. cbn [mbind result_bind].
      apply IH; [| exact HI1].
      inversion Hex as [? ? Hshort | ? ? Hrest]; subst; [| exact Hrest].
      rewrite (parseTag_short line Hshort) in Hp. discriminate Hp.
    + cbn [mbind result_bind]. destruct Hb as [-> | ->]; auto.
    + contradiction.
Qed.

(** *** Parent chains *)

Lemma parentChain_returns (h : store) :
  wfStore h ->
  forall fuel a,
    (a < length h)%nat -> (a < fuel)%nat ->
    exists chain top t,
      parentChain h fuel a = Some chain
      /\ Forall (fun x => (x <= a)%nat) chain
      /\ NoDup chain
      /\ last chain = Some top
      /\ h !! top = Some t /\ parent t = None.
Proof.
  intros Hwf. induction fuel as [|fuel IH]; intros a Ha Hf; [lia |].
  destruct (lookup_lt_length h a Ha) as [t Ht].
  destruct (Hwf a t Ht) as [Hpar _].
  cbn [parentChain]. rewrite Ht.
  destruct (parent t) as [p|] eqn:Hp.
  - specialize (Hpar p eq_refl).
    destruct (IH p) as [chain [top [tt [Hc [Hle [Hnd [Hlast [Htop Hnone]]]]]]]];
      [lia | lia |].
    rewrite Hc. cbn.
    exists (a :: chain), top, tt. split; [reflexivity |].
    split.
    { constructor; [lia |]. eapply Forall_impl; [exact Hle |].
      cbn. intros x Hx. lia. }
    split.
    { constructor; [| exact Hnd]. intros Hin.
      rewrite Forall_forall in Hle.
      specialize (Hle a Hin). cbn in Hle. lia. }
    split; [| split; assumption].
    destruct chain as [|c chain]; [discriminate Hlast | exact Hlast].
  - exists [a], a, t. split; [reflexivity |].
    split; [constructor; [lia | constructor] |].
    split; [apply NoDup_singleton |].
    split; [reflexivity |]. split; assumption.
Qed.

(** *** The forest returned by [parseTags] *)





Example parseTags_forest_example :
  exists st, parseTags spec_text_foo = Ok st
             /\ nodes st = [0; 1]%nat
             /\ parentChain (heap st) (length (heap st)) 1 = Some [1; 0]%nat
             /\ forestSize (forest st) = 2%nat
             /\ countKept spec_text_foo = 2%nat.
Proof. eexists. repeat split; vm_compute; reflexivity. Qed.

Example parseTags_empty :
  parseTags EmptyString = Ok initial /\ forest initial = [].
Proof. split; reflexivity. Qed.

(** C5, amended.  A text with a line of fewer than three tab-separated
    fields makes [parseTags] raise: [IndexError] at that line, unless an
    earlier line has raised [IndexError] or [ValueError] already.  A line of
    three fields or more whose count is not five is not refused for its
    count: it is read with the layout of six fields, and is a record exactly
    when what follows the last colon of [items[-2]] is an integer literal,
    a [ValueError] otherwise.  There is no [ParseError]. *)
Theorem parseTags_field_count :
  (forall text,
      Exists (fun l => (length (split tab l) < 3)%nat) (splitlines text) ->
      parseTags text = Raise IndexError \/ parseTags text = Raise ValueError)
  /\ (forall line,
        (3 <= length (split tab line))%nat ->
        length (split tab line) <> 5%nat ->
        let items := split tab line in
        match int_ (List.last
                      (split ":" (nth (length items - 2) items EmptyString))
                      EmptyString) with
        | Ok ln =>
            exists scope,
              parseTag line =
              Ok (nth 0 items EmptyString, ln,
                  nth (length items - 3) items EmptyString, scope)
        | _ => parseTag line = Raise ValueError
        end).
Proof.
  split.
  - intros text Hex. unfold parseTags.
    apply loop_short_raises; [exact Hex | apply Inv_initial].
  - intros line H3 H5 items. apply parseTag_not_five; auto.
Qed.

Lemma parseTags_field_count_witness :
  Exists (fun l => (length (split tab l) < 3)%nat) (splitlines two_fields)
  /\ (parseTags two_fields = Raise IndexError
      \/ parseTags two_fields = Raise ValueError)
  /\ (3 <= length (split tab four_fields))%nat
  /\ length (split tab four_fields) <> 5%nat
  /\ exists scope, parseTag four_fields = Ok ("foo", 7%Z, "function", scope).
Proof.
  assert (Hex : Exists (fun l => (length (split tab l) < 3)%nat)
                       (splitlines two_fields)).
  { vm_compute splitlines. apply Exists_cons_hd. vm_compute. lia. }
  assert (H3 : (3 <= length (split tab four_fields))%nat)
    by (vm_compute; lia).
  assert (H5 : length (split tab four_fields) <> 5%nat)
    by (vm_compute; lia).
  split; [exact Hex |].
  split; [apply (proj1 parseTags_field_count two_fields Hex) |].
  split; [exact H3 |]. split; [exact H5 |].
  exact (proj2 parseTags_field_count four_fields H3 H5).
Defined.

Example parseTags_short_line_example :
  parseTags two_fields = Raise IndexError
  /\ parseTags (String LF EmptyString) = Raise IndexError
  /\ parseTags (tsv ["foo"; "x.py"; "/^def foo/"; "function"; "line:x"])
     = Raise ValueError.
Proof. repeat split; vm_compute; reflexivity. Qed.

End CtagsFacts.


(** ** The extraction worker *)

Section WorkerFacts.
Import PyStr Ctags Worker Fixtures.
#[local] Open Scope string_scope.
#[local] Open Scope list_scope.

Variable ctags : tool.


Lemma execute_cons w ev s :
  execute ctags w (ev :: s) = execute ctags (step ctags w ev) s.
Proof. reflexivity. Qed.

(** *** Emissions are about the current request *)





(** *** A request replaced during its pass *)

Section Superseded.
Variables (fA tA fB tB : string) (ra rb : Ctags.state).
Hypothesis passA : processText ctags fA tA = Ok ra.
Hypothesis passB : processText ctags fB tB = Ok rb.








End Superseded.


(** *** Errors in the worker *)

(** Once the thread is past its loop, nothing more is emitted and nothing
    more escapes until the next request. *)
Lemma finished_execute post :
  noProcess post = true ->
  forall w,
    thread w = Returning \/ thread w = NotRunning ->
    let w' := execute ctags w post in
    emitted w' = emitted w /\ escaped w' = escaped w
    /\ (queued w = [] -> model_tags w' = model_tags w).
Proof.
  induction post as [|ev post IH]; intros Hnp w Hth; [cbn; auto |].
  cbn [noProcess forallb] in Hnp. apply andb_true_iff in Hnp as [Hev Hnp].
  cbn zeta. rewrite execute_cons.
  destruct ev as [fn tx | |]; [discriminate Hev | |]; cbn [step].
  - assert (Hs : thread (threadStep ctags w) = NotRunning
                 /\ emitted (threadStep ctags w) = emitted w
                 /\ escaped (threadStep ctags w) = escaped w
                 /\ queued (threadStep ctags w) = queued w
                 /\ model_tags (threadStep ctags w) = model_tags w).
    { unfold threadStep. destruct Hth as [-> | Hth]; [cbn; auto |].
      rewrite Hth. auto. }
    destruct Hs as (H1 & H2 & H3 & H4 & H5).
    destruct (IH Hnp (threadStep ctags w) (or_intror H1)) as (I1 & I2 & I3).
    rewrite I1, I2, H2, H3. repeat split; try reflexivity.
    intros Hq. rewrite I3 by congruence. exact H5.
  - assert (Hs : thread (deliver w) = thread w
                 /\ emitted (deliver w) = emitted w
                 /\ escaped (deliver w) = escaped w
                 /\ (queued w = [] -> deliver w = w)).
    { unfold deliver. destruct (queued w); cbn; auto.
      repeat split; auto. discriminate. }
    destruct Hs as (H1 & H2 & H3 & H4).
    destruct (IH Hnp (deliver w)) as (I1 & I2 & I3); [rewrite H1; exact Hth |].
    rewrite I1, I2, H2, H3. repeat split; try reflexivity.
    intros Hq. rewrite (H4 Hq) in I3 |- *. apply I3. exact Hq.
Qed.

(** C6, amended.  An exception raised by [processText] in the worker is not
    handled in [run]: it leaves [run] and ends the thread.  The step emits
    nothing and leaves the queue and the displayed tags as they are; and
    until the next request nothing is emitted, so that with no emission
    pending the displayed tags stay the ones shown before. *)
Theorem worker_error_escapes (w : world) (fileName text : string) (e : exn) :
  thread w = Processing fileName text ->
  processText ctags fileName text = Raise e ->
  let w' := threadStep ctags w in
  escaped w' = escaped w ++ [e]
  /\ thread w' = Returning
  /\ emitted w' = emitted w
  /\ queued w' = queued w
  /\ model_tags w' = model_tags w
  /\ (forall post, noProcess post = true ->
        emitted (execute ctags w' post) = emitted w
        /\ escaped (execute ctags w' post) = escaped w ++ [e]
        /\ (queued w = [] ->
            model_tags (execute ctags w' post) = model_tags w)).
Proof.
  intros Hth Hp w'.
  assert (Hw' : w' = uncaught e w).
  { unfold w', threadStep. rewrite Hth, Hp. reflexivity. }
  rewrite Hw'. cbn [uncaught escaped thread emitted queued model_tags].
  repeat split; try reflexivity.
  - destruct (finished_execute post H (uncaught e w) (or_introl eq_refl))
      as (H1 & _ & _). exact H1.
  - destruct (finished_execute post H (uncaught e w) (or_introl eq_refl))
      as (_ & H2 & _). exact H2.
  - intros Hq.
    destruct (finished_execute post H (uncaught e w) (or_introl eq_refl))
      as (_ & _ & H3). apply H3. exact Hq.
Qed.

End WorkerFacts.

Section WorkerExamples.
Import PyStr Ctags Worker Fixtures.
#[local] Open Scope string_scope.
#[local] Open Scope list_scope.


Example latest_request_wins_example :
  map em_text
      (emitted (execute echoCtags (init initial)
                    [Process "a.py" spec_text; ThreadStep;
                     Process "a.py" spec_text_foo;
                     ThreadStep; ThreadStep; ThreadStep; ThreadStep]))
  = [spec_text_foo].
Proof. vm_compute. reflexivity. Qed.

(** A request that arrives after the emission but before the thread has
    finished finds [isRunning()] true: nothing starts and nothing is
    emitted for it. *)
Example request_lost_while_returning :
  let w := execute echoCtags (init initial)
               [Process "a.py" spec_text; ThreadStep; ThreadStep;
                Process "a.py" spec_text_foo;
                ThreadStep; ThreadStep; ThreadStep; ThreadStep] in
  map em_text (emitted w) = [spec_text] /\ thread w = NotRunning
  /\ _haveData w = true.
Proof. vm_compute. repeat split; reflexivity. Qed.

(** C6, as stated, fails: when ctags cannot be started, and when its output
    is no tag file, the exception leaves [run]. *)
Lemma worker_error_not_caught :
  escaped (execute noCtags (init initial)
               [Process "a.py" "x = 1"; ThreadStep; ThreadStep]) = [OSError]
  /\ escaped (execute garbageCtags (init initial)
                  [Process "a.py" "x = 1"; ThreadStep; ThreadStep])
     = [IndexError].
Proof. split; vm_compute; reflexivity. Qed.

Lemma worker_error_escapes_witness :
  let w := execute noCtags (init initial)
                   [Process "a.py" "x = 1"; ThreadStep] in
  thread w = Processing "a.py" "x = 1"
  /\ processText noCtags "a.py" "x = 1" = Raise OSError
  /\ escaped (threadStep noCtags w) = escaped w ++ [OSError]
  /\ thread (threadStep noCtags w) = Returning
  /\ emitted (threadStep noCtags w) = emitted w
  /\ queued (threadStep noCtags w) = queued w
  /\ model_tags (threadStep noCtags w) = model_tags w.
Proof.
  intros w.
  assert (Hth : thread w = Processing "a.py" "x = 1") by reflexivity.
  assert (Hp : processText noCtags "a.py" "x = 1" = Raise OSError)
    by reflexivity.
  split; [exact Hth |]. split; [exact Hp |].
  destruct (worker_error_escapes noCtags w "a.py" "x = 1" OSError Hth Hp)
    as (H1 & H2 & H3 & H4 & H5 & _).
  repeat split; assumption.
Defined.

End WorkerExamples.


(** ** Preview synchronisation *)

Section PreviewFacts.
Import PyStr Preview.
#[local] Open Scope nat_scope.

(** *** Without the capability *)

Lemma elapse_no_timer (w : world) ms :
  _cursorMovementTimer w = None -> elapse ms w = Ok w.
Proof.
  intros Hno. induction ms as [|ms IH]; [reflexivity |].
  cbn [elapse]. unfold elapse1. rewrite Hno. cbn. exact IH.
Qed.

Lemma emitSignal_unconnected (w : world) sg :
  connections w = [] -> emitSignal sg w = Ok w.
Proof. intros Hno. unfold emitSignal, slotsOf. rewrite Hno. reflexivity. Qed.

(** C7.  When [findApproxTextInTarget] is [None], [__init__] sets nothing up
    and [syncTextToPreview] and [terminate] return at once; on the object
    [__init__] leaves behind, which has no connection and no timer, every
    event (cursor movement, document change, time passing, a call of
    [syncTextToPreview], [terminate]) changes nothing and raises nothing. *)
Theorem capability_absent_noop (w : world) :
  capability w = false ->
  __init__ w = Ok w
  /\ syncTextToPreview w = Ok w
  /\ terminate w = Ok w
  /\ (connections w = [] -> _cursorMovementTimer w = None ->
      forall evs, handleAll w evs = Ok w).
Proof.
  intros Hcap. unfold __init__, syncTextToPreview, terminate. rewrite Hcap.
  repeat split; try reflexivity.
  intros Hconn Htimer evs. induction evs as [|ev evs IH]; [reflexivity |].
  cbn [handleAll].
  assert (Hev : handle w ev = Ok w).
  { destruct ev as [| | ms | |]; cbn [handle].
    - apply emitSignal_unconnected. exact Hconn.
    - apply emitSignal_unconnected. exact Hconn.
    - apply elapse_no_timer. exact Htimer.
    - unfold syncTextToPreview. rewrite Hcap. reflexivity.
    - unfold terminate. rewrite Hcap. reflexivity. }
  rewrite Hev. cbn. exact IH.
Qed.

Lemma capability_absent_noop_witness :
  capability (fresh false true true) = false
  /\ __init__ (fresh false true true) = Ok (fresh false true true)
  /\ syncTextToPreview (fresh false true true) = Ok (fresh false true true)
  /\ terminate (fresh false true true) = Ok (fresh false true true)
  /\ handleAll (fresh false true true)
               [CursorMoved; Elapse 300; DocumentChanged; CallSync; Terminate]
     = Ok (fresh false true true).
Proof.
  split; [reflexivity |].
  destruct (capability_absent_noop (fresh false true true) eq_refl)
    as (H1 & H2 & H3 & H4).
  split; [exact H1 |]. split; [exact H2 |]. split; [exact H3 |].
  apply H4; reflexivity.
Defined.

(** The handlers themselves are not guarded: they are never connected. *)
Example unconnected_handler_raises :
  _onCursorPositionChanged (fresh false true true) = Raise AttributeError
  /\ slotsOf cursorPositionChanged (fresh false true true) = [].
Proof. split; reflexivity. Qed.

(** *** The cursor-movement timer *)

Lemma init_ready : __init__ (fresh true true true) = Ok (ready None 0).
Proof. reflexivity. Qed.

Lemma cursorMoved_ready left m :
  handle (ready left m) CursorMoved = Ok (ready (Some 300) m).
Proof. reflexivity. Qed.

Lemma elapse_idle m ms : elapse ms (ready None m) = Ok (ready None m).
Proof.
  induction ms as [|ms IH]; [reflexivity |]. cbn [elapse]. exact IH.
Qed.

(** While the timer has more left than the time that passes, it only counts
    down. *)
Lemma elapse_counts_down m ms :
  forall left, ms < left ->
    elapse ms (ready (Some left) m) = Ok (ready (Some (left - ms)) m).
Proof.
  induction ms as [|ms IH]; intros left Hlt.
  - rewrite Nat.sub_0_r. reflexivity.
  - destruct left as [|[|left]]; [lia | lia |].
    cbn [elapse]. change (elapse1 (ready (Some (S (S left))) m))
      with (Ok (ready (Some (S left)) m)).
    cbn [mbind result_bind]. rewrite IH by lia.
    replace (S (S left) - S ms) with (S left - ms) by lia. reflexivity.
Qed.

(** When the time left has passed, the timer fires once: [syncTextToPreview]
    stops it and requests one match. *)
Lemma elapse_fires m :
  forall left ms, 1 <= left -> left <= ms ->
    elapse ms (ready (Some left) m) = Ok (ready None (S m)).
Proof.
  induction left as [|left IH]; intros ms H1 Hle; [lia |].
  destruct ms as [|ms]; [lia |]. cbn [elapse].
  destruct left as [|left].
  - change (elapse1 (ready (Some 1) m)) with (Ok (ready None (S m))).
    cbn [mbind result_bind]. apply elapse_idle.
  - change (elapse1 (ready (Some (S (S left))) m))
      with (Ok (ready (Some (S left)) m)).
    cbn [mbind result_bind]. apply IH; lia.
Qed.

Lemma handleAll_cons w ev evs :
  handleAll w (ev :: evs) = handle w ev ≫= fun w' => handleAll w' evs.
Proof. reflexivity. Qed.

Lemma handle_elapse w ms : handle w (Elapse ms) = elapse ms w.
Proof. reflexivity. Qed.

(** C8.  [__init__] with the capability present leaves the timer created,
    at 300 ms and not running.  From there, or from any later state of the
    timer, with the dock visible: a cursor movement, less than 300 ms, and a
    second cursor movement leave the timer restarted with its full 300 ms and
    no further match requested; after that exactly one match is requested,
    when 300 ms have passed, and none before. *)
Theorem cursor_moves_debounced (left : option nat) (m d n : nat) :
  d < 300 ->
  __init__ (fresh true true true) = Ok (ready None 0)
  /\ exists w2 w3,
      handleAll (ready left m) [CursorMoved; Elapse d; CursorMoved] = Ok w2
      /\ _cursorMovementTimer w2
         = Some {| interval := 300; remaining := Some 300 |}
      /\ matchRequests w2 = m
      /\ handleAll w2 [Elapse n] = Ok w3
      /\ matchRequests w3 = m + (if 300 <=? n then 1 else 0).
Proof.
  intros Hd. split; [apply init_ready |].
  exists (ready (Some 300) m),
         (if 300 <=? n then ready None (S m) else ready (Some (300 - n)) m).
  split.
  { rewrite handleAll_cons, cursorMoved_ready. cbn [mbind result_bind].
    rewrite handleAll_cons, handle_elapse, (elapse_counts_down m d 300 Hd).
    cbn [mbind result_bind].
    rewrite handleAll_cons, cursorMoved_ready. reflexivity. }
  split; [reflexivity |]. split; [reflexivity |].
  destruct (Nat.leb_spec 300 n) as [Hge | Hlt].
  - split; [| cbn; lia]. rewrite handleAll_cons, handle_elapse.
    rewrite (elapse_fires m 300 n) by lia. reflexivity.
  - split; [| cbn; lia]. rewrite handleAll_cons, handle_elapse.
    rewrite (elapse_counts_down m n 300 Hlt). reflexivity.
Qed.

Lemma cursor_moves_debounced_witness :
  100 < 300
  /\ __init__ (fresh true true true) = Ok (ready None 0)
  /\ exists w2 w3,
      handleAll (ready None 0) [CursorMoved; Elapse 100; CursorMoved] = Ok w2
      /\ _cursorMovementTimer w2
         = Some {| interval := 300; remaining := Some 300 |}
      /\ matchRequests w2 = 0
      /\ handleAll w2 [Elapse 1000] = Ok w3
      /\ matchRequests w3 = 0 + (if 300 <=? 1000 then 1 else 0).
Proof.
  assert (H : 100 < 300) by lia.
  split; [exact H |].
  apply (cursor_moves_debounced None 0 100 1000 H).
Defined.

(** Two movements further apart than the interval request two matches; a
    movement while the dock is hidden requests none. *)
Example cursor_moves_apart :
  (w ← handleAll (ready None 0)
        [CursorMoved; Elapse 300; CursorMoved; Elapse 300];
   Ok (matchRequests w)) = Ok 2
  /\ (w0 ← __init__ (fresh true true false);
      w ← handleAll w0 [CursorMoved; Elapse 300];
      Ok (matchRequests w)) = Ok 0.
Proof. split; vm_compute; reflexivity. Qed.

End PreviewFacts.

(** * Further properties *)

(** ** Scroll alignment *)

Section ScrollAlignMore.
Import ScrollAlign.
#[local] Open Scope Z_scope.

(** X1.  When the target is high enough for the cursor and the padding on both
    sides, moving the target cursor by the result puts it inside the padded
    window: its top at least [padding] below the top of the widget, its
    bottom at least [padding] above the bottom. *)
Theorem alignScrollAmount_keeps_padding sGT sCB tGT tCB tH tCH pad :
  0 <= tH - tCH - 2 * pad ->
  let delta := _alignScrollAmount sGT sCB tGT tCB tH tCH pad in
  pad <= (tCB + delta) - tCH /\ tCB + delta <= tH - pad.
Proof. unfold _alignScrollAmount. cbv zeta. lia. Qed.

Lemma alignScrollAmount_keeps_padding_witness :
  0 <= 500 - 20 - 2 * 10
  /\ 10 <= (490 + _alignScrollAmount 0 100 0 490 500 20 10) - 20
  /\ 490 + _alignScrollAmount 0 100 0 490 500 20 10 <= 500 - 10.
Proof.
  split; [lia |].
  apply (alignScrollAmount_keeps_padding 0 100 0 490 500 20 10). lia.
Defined.

(** X2.  Among the amounts that keep the cursor inside the padded window, the
    result is the one nearest to the raw difference of the two cursors; when
    the raw difference is itself such an amount the two cursors end at the
    same global height. *)
Theorem alignScrollAmount_nearest sGT sCB tGT tCB tH tCH pad :
  0 <= tH - tCH - 2 * pad ->
  let raw := (sGT + sCB) - (tGT + tCB) in
  let delta := _alignScrollAmount sGT sCB tGT tCB tH tCH pad in
  (forall d, - tCB + tCH + pad <= d <= tH - tCB - pad ->
             Z.abs (delta - raw) <= Z.abs (d - raw))
  /\ (- tCB + tCH + pad <= raw <= tH - tCB - pad ->
      sGT + sCB = tGT + (tCB + delta)).
Proof. unfold _alignScrollAmount. cbv zeta. split; intros; lia. Qed.

Lemma alignScrollAmount_nearest_witness :
  0 <= 500 - 20 - 2 * 10
  /\ (forall d, - 50 + 20 + 10 <= d <= 500 - 50 - 10 ->
        Z.abs (_alignScrollAmount 0 100 0 50 500 20 10 - (0 + 100 - (0 + 50)))
        <= Z.abs (d - (0 + 100 - (0 + 50))))
  /\ (- 50 + 20 + 10 <= 0 + 100 - (0 + 50) <= 500 - 50 - 10 ->
      0 + 100 = 0 + (50 + _alignScrollAmount 0 100 0 50 500 20 10)).
Proof.
  split; [lia |].
  apply (alignScrollAmount_nearest 0 100 0 50 500 20 10). lia.
Defined.

End ScrollAlignMore.

(** ** Preview synchronisation: cancelling and disabling *)

Section PreviewMoreFacts.
Import PyStr Preview PreviewMore.
#[local] Open Scope nat_scope.

Lemma elapse_stopped (w : world) ms :
  timerStopped w -> elapse ms w = Ok w.
Proof.
  intros [t [Ht Hr]]. induction ms as [|ms IH]; [reflexivity |].
  cbn [elapse]. unfold elapse1. rewrite Ht, Hr. cbn. exact IH.
Qed.

Lemma handleAll_app w evs1 evs2 :
  handleAll w (evs1 ++ evs2)
  = handleAll w evs1 ≫= fun w' => handleAll w' evs2.
Proof.
  revert w. induction evs1 as [|ev evs1 IH]; intros w; [reflexivity |].
  cbn [app handleAll]. destruct (handle w ev) as [w' | e |]; cbn; auto.
Qed.

(** X3.  A document change while the timer runs stops it and cancels the match
    in flight: the cursor movement before it requests no match, however long
    one waits. *)
Theorem document_change_cancels_sync (left : option nat) (m d n : nat) :
  d < 300 ->
  exists w,
    handleAll (ready left m) [CursorMoved; Elapse d; DocumentChanged; Elapse n]
    = Ok w
    /\ matchRequests w = m
    /\ cancels w = 1
    /\ timerStopped w.
Proof.
  intros Hd.
  rewrite handleAll_cons, cursorMoved_ready. cbn [mbind result_bind].
  rewrite handleAll_cons, handle_elapse, (elapse_counts_down m d 300 Hd).
  cbn [mbind result_bind].
  rewrite handleAll_cons.
  change (handle (ready (Some (300 - d)) m) DocumentChanged)
    with (Ok (setTimer {| interval := 300; remaining := None |}
                       (cancelFuture (ready (Some (300 - d)) m)))).
  cbn [mbind result_bind].
  rewrite handleAll_cons, handle_elapse.
  rewrite elapse_stopped by (eexists; split; reflexivity).
  eexists. split; [reflexivity |].
  split; [reflexivity |]. split; [reflexivity |].
  eexists; split; reflexivity.
Qed.

Lemma document_change_cancels_sync_witness :
  100 < 300
  /\ exists w,
      handleAll (ready None 0)
                [CursorMoved; Elapse 100; DocumentChanged; Elapse 1000] = Ok w
      /\ matchRequests w = 0 /\ cancels w = 1 /\ timerStopped w.
Proof.
  assert (H : 100 < 300) by lia.
  split; [exact H |].
  apply (document_change_cancels_sync None 0 100 1000 H).
Defined.

(** X4.  A call of [syncTextToPreview] while the timer runs requests its match
    at once and stops the timer: the pending expiry requests no second one. *)
Theorem direct_sync_replaces_pending (left : option nat) (m d n : nat) :
  d < 300 ->
  exists w,
    handleAll (ready left m) [CursorMoved; Elapse d; CallSync; Elapse n] = Ok w
    /\ matchRequests w = S m
    /\ timerStopped w.
Proof.
  intros Hd.
  rewrite handleAll_cons, cursorMoved_ready. cbn [mbind result_bind].
  rewrite handleAll_cons, handle_elapse, (elapse_counts_down m d 300 Hd).
  cbn [mbind result_bind].
  rewrite handleAll_cons.
  change (handle (ready (Some (300 - d)) m) CallSync)
    with (Ok (ready None (S m))).
  cbn [mbind result_bind].
  rewrite handleAll_cons, handle_elapse, elapse_idle.
  eexists. split; [reflexivity |]. split; [reflexivity |].
  eexists; split; reflexivity.
Qed.

Lemma direct_sync_replaces_pending_witness :
  100 < 300
  /\ exists w,
      handleAll (ready None 0) [CursorMoved; Elapse 100; CallSync; Elapse 1000]
      = Ok w
      /\ matchRequests w = 1 /\ timerStopped w.
Proof.
  assert (H : 100 < 300) by lia.
  split; [exact H |].
  apply (direct_sync_replaces_pending None 0 100 1000 H).
Defined.

(** What [terminate] leaves: the timer stopped and only its own connection
    to [syncTextToPreview]. *)
Lemma terminate_ready left m :
  terminate (ready left m) =
  Ok (cancelFuture
        (setConnections [(timeout, syncTextToPreviewSlot)]
           (setTimer {| interval := 300; remaining := None |}
                     (ready left m)))).
Proof. reflexivity. Qed.

Lemma external_after_terminate (w : world) ev :
  timerStopped w ->
  connections w = [(timeout, syncTextToPreviewSlot)] ->
  external ev = true -> handle w ev = Ok w.
Proof.
  intros Hst Hconn Hev. destruct ev; try discriminate Hev; cbn [handle].
  - unfold emitSignal, slotsOf. rewrite Hconn. reflexivity.
  - unfold emitSignal, slotsOf. rewrite Hconn. reflexivity.
  - apply elapse_stopped. exact Hst.
Qed.

(** X5.  After [terminate], cursor movements, document changes and the passing
    of time change nothing: no match is requested any more. *)
Theorem terminate_disables_sync (left : option nat) (m : nat)
    (evs : list event) :
  forallb external evs = true ->
  exists w,
    terminate (ready left m) = Ok w
    /\ handleAll (ready left m) (Terminate :: evs) = Ok w
    /\ matchRequests w = m
    /\ timerStopped w.
Proof.
  intros Hext. rewrite handleAll_cons. cbn [handle].
  rewrite terminate_ready. cbn [mbind result_bind].
  eexists. split; [reflexivity |].
  split.
  - induction evs as [|ev evs IH]; [reflexivity |].
    cbn [forallb] in Hext. apply andb_true_iff in Hext as [Hev Hext].
    rewrite handleAll_cons.
    rewrite external_after_terminate;
      [| eexists; split; reflexivity | reflexivity | exact Hev].
    cbn [mbind result_bind]. apply IH. exact Hext.
  - split; [reflexivity |]. eexists; split; reflexivity.
Qed.

Lemma terminate_disables_sync_witness :
  forallb external [CursorMoved; Elapse 1000; DocumentChanged] = true
  /\ exists w,
      terminate (ready (Some 5) 2) = Ok w
      /\ handleAll (ready (Some 5) 2)
                   (Terminate :: [CursorMoved; Elapse 1000; DocumentChanged])
         = Ok w
      /\ matchRequests w = 2 /\ timerStopped w.
Proof.
  assert (H : forallb external [CursorMoved; Elapse 1000; DocumentChanged]
              = true) by reflexivity.
  split; [exact H |].
  apply (terminate_disables_sync (Some 5) 2 _ H).
Defined.

(** X6.  With the dock hidden, cursor movements never start the timer: whatever
    the editor and the clock do, no match is requested. *)
Theorem hidden_dock_never_syncs (evs : list event) :
  forallb external evs = true ->
  exists w0 w,
    __init__ (fresh true true false) = Ok w0
    /\ handleAll w0 evs = Ok w
    /\ matchRequests w = 0
    /\ timerStopped w.
Proof.
  intros Hext. eexists. 
  assert (Hgen : forall w0,
             timerStopped w0 -> dockVisible w0 = false ->
             _previewToTextSyncRunning w0 = Some false -> _dock w0 = true ->
             _runLatest w0 = true ->
             connections w0 = [(timeout, syncTextToPreviewSlot);
                               (cursorPositionChanged, onCursorPositionChanged);
                               (currentDocumentChanged, onDocumentChanged)] ->
             exists w, handleAll w0 evs = Ok w
                       /\ matchRequests w = matchRequests w0
                       /\ timerStopped w).
  { induction evs as [|ev evs IH]; intros w0 Hst Hvis Hflag Hdock Hrl Hconn.
    - exists w0. split; [reflexivity |]. split; [reflexivity | exact Hst].
    - cbn [forallb] in Hext. apply andb_true_iff in Hext as [Hev Hext].
      rewrite handleAll_cons.
      destruct ev; try discriminate Hev; cbn [handle].
      + assert (H : emitSignal cursorPositionChanged w0 = Ok w0).
        { unfold emitSignal, slotsOf. rewrite Hconn. cbn.
          unfold _onCursorPositionChanged. rewrite Hflag, Hdock, Hvis.
          reflexivity. }
        rewrite H. cbn [mbind result_bind]. apply IH; assumption.
      + destruct Hst as [t [Ht Hr]].
        assert (H : emitSignal currentDocumentChanged w0
                    = Ok (setTimer (timer_stop t) (cancelFuture w0))).
        { unfold emitSignal, slotsOf. rewrite Hconn. cbn.
          unfold _onDocumentChanged. rewrite Hrl. cbn. rewrite Ht.
          reflexivity. }
        rewrite H. cbn [mbind result_bind].
        destruct (IH Hext (setTimer (timer_stop t) (cancelFuture w0)))
          as [w [Hw [Hm Hs]]]; try assumption.
        * eexists; split; reflexivity.
        * exists w. split; [exact Hw |]. split; [exact Hm | exact Hs].
      + rewrite (elapse_stopped w0 ms Hst). cbn [mbind result_bind].
        apply IH; assumption. }
  destruct (Hgen (setup (fresh true true false))) as [w [Hw [Hm Hs]]];
    try reflexivity.
  { eexists; split; reflexivity. }
  exists w. split; [reflexivity |]. split; [exact Hw |].
  split; [exact Hm | exact Hs].
Qed.

Lemma hidden_dock_never_syncs_witness :
  forallb external [CursorMoved; Elapse 1000; CursorMoved] = true
  /\ exists w0 w,
      __init__ (fresh true true false) = Ok w0
      /\ handleAll w0 [CursorMoved; Elapse 1000; CursorMoved] = Ok w
      /\ matchRequests w = 0 /\ timerStopped w.
Proof.
  assert (H : forallb external [CursorMoved; Elapse 1000; CursorMoved] = true)
    by reflexivity.
  split; [exact H |].
  apply (hidden_dock_never_syncs _ H).
Defined.

End PreviewMoreFacts.

(** ** The extraction worker: bursts, lost requests, deliveries *)

Section WorkerMoreFacts.
Import PyStr Ctags Worker WorkerMore Fixtures.
#[local] Open Scope string_scope.
#[local] Open Scope list_scope.

Variable ctags : tool.






Lemma past_loop_execute post :
  noProcess post = true ->
  forall w,
    thread w = Returning \/ thread w = NotRunning ->
    let w' := execute ctags w post in
    emitted w' = emitted w /\ escaped w' = escaped w
    /\ _fileName w' = _fileName w /\ _text w' = _text w
    /\ _haveData w' = _haveData w
    /\ (thread w = NotRunning \/ (1 <= threadSteps post)%nat ->
        thread w' = NotRunning).
Proof.
  induction post as [|ev post IH]; intros Hnp w Hth; cbn zeta.
  - cbn. repeat split; try reflexivity.
    intros [H | H]; [exact H | unfold threadSteps in H; cbn in H; lia].
  - cbn [noProcess forallb] in Hnp. apply andb_true_iff in Hnp as [Hev Hnp].
    rewrite execute_cons.
    destruct ev as [fn tx | |]; [discriminate Hev | |]; cbn [step].
    + assert (Hs : threadStep ctags w = setThread NotRunning w
                   \/ threadStep ctags w = w /\ thread w = NotRunning).
      { unfold threadStep. destruct Hth as [-> | Hn]; [left; reflexivity |].
        right. rewrite Hn. auto. }
      destruct (IH Hnp (threadStep ctags w)) as (I1 & I2 & I3 & I4 & I5 & I6).
      { right. destruct Hs as [-> | [-> Hn]]; [reflexivity | exact Hn]. }
      rewrite I1, I2, I3, I4, I5.
      assert (Hsame : emitted (threadStep ctags w) = emitted w
                      /\ escaped (threadStep ctags w) = escaped w
                      /\ _fileName (threadStep ctags w) = _fileName w
                      /\ _text (threadStep ctags w) = _text w
                      /\ _haveData (threadStep ctags w) = _haveData w
                      /\ thread (threadStep ctags w) = NotRunning).
      { destruct Hs as [-> | [-> Hn]]; cbn; auto 10. }
      destruct Hsame as (S1 & S2 & S3 & S4 & S5 & S6).
      repeat split; try assumption.
      intros _. apply I6. left. exact S6.
    + assert (Hsame : emitted (deliver w) = emitted w
                      /\ escaped (deliver w) = escaped w
                      /\ _fileName (deliver w) = _fileName w
                      /\ _text (deliver w) = _text w
                      /\ _haveData (deliver w) = _haveData w
                      /\ thread (deliver w) = thread w).
      { unfold deliver. destruct (queued w); cbn; auto 10. }
      destruct Hsame as (S1 & S2 & S3 & S4 & S5 & S6).
      destruct (IH Hnp (deliver w)) as (I1 & I2 & I3 & I4 & I5 & I6).
      { rewrite S6. exact Hth. }
      rewrite I1, I2, I3, I4, I5. repeat split; try assumption.
      intros H. apply I6. rewrite S6.
      destruct H as [H | H]; [left; exact H | right].
      unfold threadSteps in H |- *. cbn [List.filter isThreadStep] in H.
      exact H.
Qed.

(** X8.  A request that arrives after the emission, while the thread has left
    its loop but has not finished, starts nothing ([isRunning()] is still
    true): until a further request, nothing is emitted for it; it stays in the
    attributes with [_haveData] set, and the thread ends. *)
Theorem request_while_returning_is_lost (w : world) (f t : string)
    (post : list event) :
  thread w = Returning ->
  noProcess post = true ->
  let w' := execute ctags (process f t w) post in
  emitted w' = emitted w
  /\ escaped w' = escaped w
  /\ _fileName w' = Some f /\ _text w' = Some t /\ _haveData w' = true
  /\ ((1 <= threadSteps post)%nat -> thread w' = NotRunning).
Proof.
  intros Hth Hnp. cbn zeta.
  assert (Hp : thread (process f t w) = Returning).
  { unfold process, isRunning. cbn. rewrite Hth. reflexivity. }
  destruct (past_loop_execute post Hnp (process f t w) (or_introl Hp))
    as (I1 & I2 & I3 & I4 & I5 & I6).
  rewrite I1, I2, I3, I4, I5. cbn.
  repeat split; try reflexivity.
  intros H. apply I6. right. exact H.
Qed.

(** *** Deliveries *)

Lemma shownAfter_snoc shown done e :
  shownAfter shown (done ++ [e]) = em_tags e.
Proof. unfold shownAfter. rewrite last_snoc. reflexivity. Qed.

(** X9.  On every schedule the emissions not yet handled by the main thread are
    the latest ones, in order; the model shows the result delivered last, or
    what it showed at the start when none was delivered; and every emission
    carries what [processText] returned on its request. *)
Theorem deliveries_in_order (shown : Ctags.state) (schedule : list event) :
  let w := execute ctags (init shown) schedule in
  (exists done, emitted w = done ++ queued w
                /\ model_tags w = shownAfter shown done)
  /\ Forall (fun e => processText ctags (em_fileName e) (em_text e)
                      = Ok (em_tags e)) (emitted w).
Proof.
  cbn zeta. unfold execute.
  assert (Hgen : forall w,
    ((exists done, emitted w = done ++ queued w
                   /\ model_tags w = shownAfter shown done)
     /\ Forall (fun e => processText ctags (em_fileName e) (em_text e)
                         = Ok (em_tags e)) (emitted w)) ->
    (exists done, emitted (fold_left (step ctags) schedule w)
                  = done ++ queued (fold_left (step ctags) schedule w)
                  /\ model_tags (fold_left (step ctags) schedule w)
                     = shownAfter shown done)
    /\ Forall (fun e => processText ctags (em_fileName e) (em_text e)
                        = Ok (em_tags e))
              (emitted (fold_left (step ctags) schedule w))).
  { induction schedule as [|ev s IH]; intros w Hw; [exact Hw |].
    cbn [fold_left]. apply IH.
    destruct Hw as [[done [Hem Hm]] Hall].
    destruct ev as [fn tx | |]; cbn [step].
    - split; [exists done; cbn; auto | exact Hall].
    - unfold threadStep. destruct (thread w) as [| | fn tx |].
      + split; [exists done; auto | exact Hall].
      + destruct (_fileName w); [destruct (_text w) |];
          (split; [exists done; cbn; auto | exact Hall]).
      + destruct (processText ctags fn tx) as [tags | e |] eqn:Hp.
        * destruct (_haveData w); cbn.
          -- split; [exists done; auto | exact Hall].
          -- split.
             ++ exists done. rewrite Hem, app_assoc. auto.
             ++ apply Forall_app. split; [exact Hall |].
                constructor; [exact Hp | constructor].
        * split; [exists done; cbn; auto | exact Hall].
        * split; [exists done; auto | exact Hall].
      + split; [exists done; cbn; auto | exact Hall].
    - unfold deliver. destruct (queued w) as [|e rest] eqn:Hq.
      + split; [exists done; rewrite Hq; auto | exact Hall].
      + cbn. split; [| exact Hall].
        exists (done ++ [e]). rewrite <- app_assoc. cbn.
        split; [exact Hem | rewrite shownAfter_snoc; reflexivity]. }
  apply Hgen. split; [| constructor].
  exists []. split; reflexivity.
Qed.

End WorkerMoreFacts.

Section WorkerMoreExamples.
Import PyStr Ctags Worker WorkerMore Fixtures.
#[local] Open Scope string_scope.
#[local] Open Scope list_scope.


Lemma request_while_returning_is_lost_witness :
  let w := execute echoCtags (init initial)
                   [Process "a.py" spec_text; ThreadStep; ThreadStep] in
  thread w = Returning
  /\ let w' := execute echoCtags (process "a.py" spec_text_foo w)
                      [ThreadStep; Deliver; ThreadStep] in
     emitted w' = emitted w
     /\ escaped w' = escaped w
     /\ _fileName w' = Some "a.py" /\ _text w' = Some spec_text_foo
     /\ _haveData w' = true
     /\ ((1 <= threadSteps [ThreadStep; Deliver; ThreadStep])%nat ->
         thread w' = NotRunning).
Proof.
  intros w.
  assert (Hth : thread w = Returning) by (vm_compute; reflexivity).
  split; [exact Hth |].
  apply (request_while_returning_is_lost echoCtags w "a.py" spec_text_foo
           [ThreadStep; Deliver; ThreadStep] Hth).
  reflexivity.
Defined.

End WorkerMoreExamples.

(** ** The tag parser: scope resolution and links *)

Section CtagsMoreFacts.
Import PyStr Ctags CtagsMore Fixtures FixturesMore.
#[local] Open Scope string_scope.
#[local] Open Scope list_scope.

(** *** Scope resolution *)

Lemma parentChain_S (h : store) fuel a :
  parentChain h (S fuel) a =
  match h !! a with
  | None => None
  | Some t =>
      match parent t with
      | None => Some [a]
      | Some p => cs ← parentChain h fuel p; Some (a :: cs)
      end
  end.
Proof. reflexivity. Qed.

Lemma findScope_find (h : store) (scopeName : option string) :
  wfStore h ->
  forall fuel a chain,
    (a < length h)%nat -> (a <= fuel)%nat ->
    parentChain h (S fuel) a = Some chain ->
    findScope h fuel (Some a) scopeName
    = Ok (List.find (hasName h scopeName) chain).
Proof.
  intros Hwf. induction fuel as [|fuel IH]; intros a chain Ha Hf Hc.
  - assert (a = 0)%nat as -> by lia.
    destruct (lookup_lt_length h 0 Ha) as [t Ht].
    destruct (Hwf 0%nat t Ht) as [Hpar _].
    cbn [parentChain] in Hc. rewrite Ht in Hc.
    destruct (parent t) as [p|] eqn:Hp; [specialize (Hpar p eq_refl); lia |].
    injection Hc as <-. cbn [findScope List.find]. rewrite Ht.
    unfold hasName. rewrite Ht, Hp.
    destruct (nameIs t scopeName); reflexivity.
  - destruct (lookup_lt_length h a Ha) as [t Ht].
    destruct (Hwf a t Ht) as [Hpar _].
    rewrite parentChain_S, Ht in Hc. cbn [findScope]. rewrite Ht.
    destruct (parent t) as [p|] eqn:Hp.
    + specialize (Hpar p eq_refl).
      destruct (parentChain h (S fuel) p) as [cs|] eqn:Hcs;
        cbn in Hc; [| discriminate Hc].
      injection Hc as <-. cbn [List.find].
      unfold hasName at 1. rewrite Ht.
      destruct (nameIs t scopeName); [reflexivity |].
      apply IH; [lia | lia | exact Hcs].
    + injection Hc as <-. cbn [List.find]. unfold hasName. rewrite Ht.
      destruct (nameIs t scopeName); reflexivity.
Qed.

(** X10.  [findScope] returns the nearest tag called [scopeName] on the way
    from [tag] up through its parents, [tag] included, and [None] when there is
    none. *)
Theorem findScope_innermost (h : store) (scopeName : option string)
    (a : nat) (chain : list nat) :
  wfStore h -> (a < length h)%nat ->
  parentChain h (length h) a = Some chain ->
  findScope h (length h) (Some a) scopeName
  = Ok (List.find (hasName h scopeName) chain).
Proof.
  intros Hwf Ha Hc.
  destruct (parentChain_returns h Hwf (S (length h)) a Ha)
    as (chain' & top & t & Hc' & _); [lia |].
  assert (chain' = chain) as ->.
  { destruct (parentChain_returns h Hwf (length h) a Ha Ha)
      as (c2 & _ & _ & Hc2 & _).
    rewrite Hc in Hc2. injection Hc2 as <-.
    clear - Hc Hc' Hwf Ha.
    assert (Hmono : forall fuel a chain,
               parentChain h fuel a = Some chain ->
               parentChain h (S fuel) a = Some chain).
    { induction fuel as [|fuel IH]; intros b c Hb; [discriminate Hb |].
      rewrite parentChain_S in Hb. rewrite parentChain_S.
      destruct (h !! b) as [tb|]; [| exact Hb].
      destruct (parent tb) as [p|]; [| exact Hb].
      destruct (parentChain h fuel p) as [cs|] eqn:Hcs;
        cbn in Hb; [| discriminate Hb].
      rewrite (IH p cs Hcs). exact Hb. }
    rewrite (Hmono _ _ _ Hc) in Hc'. congruence. }
  apply findScope_find; [exact Hwf | exact Ha | lia | exact Hc'].
Qed.


Lemma find_all_false {A} (f : A -> bool) (l : list A) :
  (forall x, f x = false) -> List.find f l = None.
Proof.
  intros H. induction l as [|x l IH]; [reflexivity |].
  cbn. rewrite (H x). exact IH.
Qed.

(** X11.  A record whose scope names no tag, and so a record without scope,
    makes a root and becomes the last tag, whatever the tag before it was. *)
Theorem unresolved_scope_is_root (st : state) nm ln kind scope :
  Inv st -> ignored kind = false ->
  (forall a, hasName (heap st) scope a = false) ->
  addRecord st (nm, ln, kind, scope)
  = Ok {| heap := heap st ++ [mkTag nm ln None []];
          tags := tags st ++ [length (heap st)];
          lastTag := Some (length (heap st)) |}.
Proof.
  intros HI Hk Hno. unfold addRecord. rewrite Hk. cbn [negb].
  assert (Hfind : findScope (heap st) (length (heap st)) (lastTag st) scope
                  = Ok None).
  { destruct (lastTag st) as [a|] eqn:Hl; [| apply findScope_none].
    pose proof (inv_last st HI a Hl) as Ha.
    destruct (parentChain_returns (heap st) (inv_store st HI)
                (S (length (heap st))) a Ha) as (chain & _ & _ & Hc & _);
      [lia |].
    rewrite (findScope_find (heap st) scope (inv_store st HI)
               (length (heap st)) a chain Ha) by (lia || exact Hc).
    rewrite (find_all_false _ _ Hno). reflexivity. }
  rewrite Hfind. reflexivity.
Qed.

Lemma parsed_foo_parse : parseTags spec_text_foo = Ok parsed_foo.
Proof. vm_compute. reflexivity. Qed.

Lemma Inv_parsed_foo : Inv parsed_foo.
Proof.
  destruct (loop_Inv (splitlines spec_text_foo)) with (st := initial)
    as (st' & Hrun & HI & _).
  - vm_compute splitlines. repeat constructor; eexists; reflexivity.
  - apply Inv_initial.
  - pose proof parsed_foo_parse as Hp. unfold parseTags in Hp.
    rewrite Hp in Hrun. injection Hrun as <-. exact HI.
Qed.

Lemma unresolved_scope_is_root_witness :
  Inv parsed_foo /\ ignored "function" = false
  /\ (forall a, hasName (heap parsed_foo) None a = false)
  /\ addRecord parsed_foo ("main", 9%Z, "function", None)
     = Ok {| heap := heap parsed_foo ++ [mkTag "main" 9%Z None []];
             tags := tags parsed_foo ++ [length (heap parsed_foo)];
             lastTag := Some (length (heap parsed_foo)) |}.
Proof.
  assert (Hno : forall a, hasName (heap parsed_foo) None a = false).
  { intros a. unfold hasName. destruct (heap parsed_foo !! a); reflexivity. }
  split; [exact Inv_parsed_foo |]. split; [reflexivity |].
  split; [exact Hno |].
  apply (unresolved_scope_is_root parsed_foo "main" 9%Z "function" None
           Inv_parsed_foo eq_refl Hno).
Defined.

Lemma findScope_innermost_witness :
  wfStore (heap parsed_foo) /\ (1 < length (heap parsed_foo))%nat
  /\ parentChain (heap parsed_foo) (length (heap parsed_foo)) 1
     = Some [1; 0]%nat
  /\ findScope (heap parsed_foo) (length (heap parsed_foo)) (Some 1%nat)
               (Some "foo")
     = Ok (List.find (hasName (heap parsed_foo) (Some "foo")) [1; 0]%nat).
Proof.
  assert (Hwf : wfStore (heap parsed_foo))
    by exact (inv_store _ Inv_parsed_foo).
  assert (Hlt : (1 < length (heap parsed_foo))%nat) by (cbn; lia).
  split; [exact Hwf |]. split; [exact Hlt |]. split; [reflexivity |].
  apply (findScope_innermost (heap parsed_foo) (Some "foo") 1 [1; 0]%nat
           Hwf Hlt eq_refl).
Defined.


(** *** Parent and children agree *)

Lemma Linked_initial : Linked initial.
Proof.
  constructor; cbn.
  - intros a t c H. destruct a; discriminate H.
  - intros c tc a H. destruct c; discriminate H.
  - intros r [].
  - intros a t H. destruct a; discriminate H.
  - constructor.
Qed.

(** The objects of the store after a tag was allocated under [p]. *)
Lemma lookup_child_store (h : store) nm ln p a t' :
  (p < length h)%nat ->
  appendChild p (length h) (h ++ [mkTag nm ln (Some p) []]) !! a = Some t' ->
  (a = p /\ exists tp, h !! p = Some tp
                       /\ t' = mkTag (name tp) (lineNumber tp) (parent tp)
                                     (children tp ++ [length h]))
  \/ (a = length h /\ t' = mkTag nm ln (Some p) [])
  \/ (a <> p /\ (a < length h)%nat /\ h !! a = Some t').
Proof.
  intros Hp Ht. destruct (Nat.eq_dec a p) as [-> | Hne].
  - left. split; [reflexivity |].
    destruct (lookup_lt_length h p Hp) as [tp Htp]. exists tp.
    split; [exact Htp |].
    rewrite (lookup_appendChild_parent _ _ _ tp) in Ht
      by (rewrite lookup_alloc_old by exact Hp; exact Htp).
    congruence.
  - right. rewrite lookup_appendChild_other in Ht by exact Hne.
    destruct (Nat.lt_ge_cases a (length h)) as [Hlt | Hge].
    + right. rewrite lookup_alloc_old in Ht by exact Hlt. auto.
    + left. apply lookup_lt_Some in Ht as Hlen. rewrite length_app in Hlen.
      cbn in Hlen. assert (a = length h) as -> by lia.
      rewrite lookup_alloc_new in Ht. split; congruence.
Qed.

Lemma lookup_child_store_old (h : store) nm ln p a t :
  a <> p -> h !! a = Some t ->
  appendChild p (length h) (h ++ [mkTag nm ln (Some p) []]) !! a = Some t.
Proof.
  intros Hne Ht. rewrite lookup_appendChild_other by exact Hne.
  rewrite lookup_alloc_old by (eapply lookup_lt_Some; exact Ht). exact Ht.
Qed.

Lemma lookup_child_store_new (h : store) nm ln p :
  (p < length h)%nat ->
  appendChild p (length h) (h ++ [mkTag nm ln (Some p) []]) !! length h
  = Some (mkTag nm ln (Some p) []).
Proof.
  intros Hp. rewrite lookup_appendChild_other by lia. apply lookup_alloc_new.
Qed.

Lemma lookup_child_store_parent (h : store) nm ln p tp :
  h !! p = Some tp ->
  appendChild p (length h) (h ++ [mkTag nm ln (Some p) []]) !! p
  = Some (mkTag (name tp) (lineNumber tp) (parent tp)
                (children tp ++ [length h])).
Proof.
  intros Htp. apply lookup_appendChild_parent.
  rewrite lookup_alloc_old by (eapply lookup_lt_Some; exact Htp). exact Htp.
Qed.

Lemma NoDup_snoc_fresh (l : list nat) n :
  List.NoDup l -> (forall x, In x l -> (x < n)%nat) -> List.NoDup (l ++ [n]).
Proof.
  intros Hnd Hlt. apply List.NoDup_app.
  - exact Hnd.
  - constructor; [intros [] | constructor].
  - intros a Ha [Heq | []]. specialize (Hlt a Ha). lia.
Qed.

(** What one iteration returns, when it returns. *)
Lemma addRecord_cases (st st' : state) nm ln kind scope :
  Inv st -> addRecord st (nm, ln, kind, scope) = Ok st' ->
  (ignored kind = true /\ st' = st)
  \/ (ignored kind = false
      /\ st' = {| heap := heap st ++ [mkTag nm ln None []];
                  tags := tags st ++ [length (heap st)];
                  lastTag := Some (length (heap st)) |})
  \/ (ignored kind = false
      /\ exists p, (p < length (heap st))%nat
         /\ findScope (heap st) (length (heap st)) (lastTag st) scope
            = Ok (Some p)
         /\ st' = {| heap := appendChild p (length (heap st))
                               (heap st ++ [mkTag nm ln (Some p) []]);
                     tags := tags st;
                     lastTag := Some (length (heap st)) |}).
Proof.
  intros HI. unfold addRecord.
  destruct (ignored kind); cbn [negb]; [intros [= <-]; auto |].
  destruct (findScope _ _ _ _) as [[p|] | e |] eqn:Hf; cbn;
    try discriminate.
  - intros [= <-]. right. right. split; [reflexivity |]. exists p.
    split; [| auto].
    destruct (lastTag st) as [a|] eqn:Hl;
      [| rewrite findScope_none in Hf; discriminate Hf].
    pose proof (inv_last st HI a Hl) as Ha.
    destruct (findScope_returns (heap st) scope (inv_store st HI)
                (length (heap st)) a Ha) as [r [Hr Hle]]; [lia |].
    rewrite Hr in Hf. injection Hf as ->. specialize (Hle p eq_refl). lia.
  - intros [= <-]. right. left. auto.
Qed.

Lemma addRecord_Linked (st st' : state) (r : record) :
  Inv st -> Linked st -> addRecord st r = Ok st' -> Linked st'.
Proof.
  intros HI HL Hadd. destruct r as [[[nm ln] kind] scope].
  destruct HL as [Lc Lp Lr Lcn Ltn].
  pose proof (inv_store st HI) as Hwf.
  destruct (addRecord_cases st st' nm ln kind scope HI Hadd)
    as [[_ ->] | [[_ ->] | [_ (p & Hp & _ & ->)]]].
  - constructor; assumption.
  - (* a new root *)
    constructor; cbn [heap tags].
    + intros a t c Ht Hc.
      destruct (Nat.lt_ge_cases a (length (heap st))) as [Hlt | Hge].
      * rewrite lookup_alloc_old in Ht by exact Hlt.
        destruct (Lc a t c Ht Hc) as [tc [Htc Hpc]]. exists tc.
        split; [| exact Hpc].
        rewrite lookup_alloc_old by (eapply lookup_lt_Some; exact Htc).
        exact Htc.
      * apply lookup_lt_Some in Ht as Hlen. rewrite length_app in Hlen.
        cbn in Hlen. assert (a = length (heap st)) as -> by lia.
        rewrite lookup_alloc_new in Ht. injection Ht as <-. destruct Hc.
    + intros c tc a Htc Hpc.
      destruct (Nat.lt_ge_cases c (length (heap st))) as [Hlt | Hge].
      * rewrite lookup_alloc_old in Htc by exact Hlt.
        destruct (Lp c tc a Htc Hpc) as [t [Ht Hin]]. exists t.
        split; [| exact Hin].
        rewrite lookup_alloc_old by (eapply lookup_lt_Some; exact Ht).
        exact Ht.
      * apply lookup_lt_Some in Htc as Hlen. rewrite length_app in Hlen.
        cbn in Hlen. assert (c = length (heap st)) as -> by lia.
        rewrite lookup_alloc_new in Htc. injection Htc as <-.
        discriminate Hpc.
    + intros r Hr. apply in_app_or in Hr as [Hr | [<- | []]].
      * destruct (Lr r Hr) as [t [Ht Hnone]]. exists t.
        split; [| exact Hnone].
        rewrite lookup_alloc_old by (eapply lookup_lt_Some; exact Ht).
        exact Ht.
      * eexists. split; [apply lookup_alloc_new | reflexivity].
    + intros a t Ht.
      destruct (Nat.lt_ge_cases a (length (heap st))) as [Hlt | Hge].
      * rewrite lookup_alloc_old in Ht by exact Hlt. apply (Lcn a t Ht).
      * apply lookup_lt_Some in Ht as Hlen. rewrite length_app in Hlen.
        cbn in Hlen. assert (a = length (heap st)) as -> by lia.
        rewrite lookup_alloc_new in Ht. injection Ht as <-. constructor.
    + apply NoDup_snoc_fresh; [exact Ltn | apply (inv_tags st HI)].
  - (* a new child of [p] *)
    destruct (lookup_lt_length (heap st) p Hp) as [tp Htp].
    constructor; cbn [heap tags].
    + intros a t c Ht Hc.
      destruct (lookup_child_store _ _ _ _ _ _ Hp Ht)
        as [[-> (tp' & Htp' & ->)] | [[-> ->] | (Hne & Hlt & Hold)]].
      * cbn in Hc. apply in_app_or in Hc as [Hc | [<- | []]].
        -- destruct (Lc p tp' c Htp' Hc) as [tc [Htc Hpc]]. exists tc.
           split; [| exact Hpc]. apply lookup_child_store_old; [| exact Htc].
           destruct (Hwf p tp' Htp') as [_ Hch]. specialize (Hch c Hc). lia.
        -- eexists. split; [apply lookup_child_store_new; exact Hp |].
           reflexivity.
      * destruct Hc.
      * destruct (Lc a t c Hold Hc) as [tc [Htc Hpc]].
        destruct (Nat.eq_dec c p) as [-> | Hcp].
        -- eexists. split; [apply lookup_child_store_parent; exact Htc |].
           exact Hpc.
        -- exists tc. split; [| exact Hpc].
           apply lookup_child_store_old; assumption.
    + intros c tc a Htc Hpc.
      destruct (lookup_child_store _ _ _ _ _ _ Hp Htc)
        as [[-> (tp' & Htp' & ->)] | [[-> ->] | (Hne & Hlt & Hold)]].
      * cbn in Hpc. destruct (Lp p tp' a Htp' Hpc) as [t [Ht Hin]].
        exists t. split; [| exact Hin].
        apply lookup_child_store_old; [| exact Ht].
        destruct (Hwf p tp' Htp') as [Hpar _]. specialize (Hpar a Hpc). lia.
      * injection Hpc as <-. eexists.
        split; [apply lookup_child_store_parent; exact Htp |].
        cbn. apply in_or_app. right. left. reflexivity.
      * destruct (Lp c tc a Hold Hpc) as [t [Ht Hin]].
        destruct (Nat.eq_dec a p) as [-> | Hap].
        -- eexists. split; [apply lookup_child_store_parent; exact Ht |].
           cbn. apply in_or_app. left. exact Hin.
        -- exists t. split; [| exact Hin].
           apply lookup_child_store_old; assumption.
    + intros r Hr. destruct (Lr r Hr) as [t [Ht Hnone]].
      destruct (Nat.eq_dec r p) as [-> | Hrp].
      * eexists. split; [apply lookup_child_store_parent; exact Ht |].
        exact Hnone.
      * exists t. split; [| exact Hnone].
        apply lookup_child_store_old; assumption.
    + intros a t Ht.
      destruct (lookup_child_store _ _ _ _ _ _ Hp Ht)
        as [[-> (tp' & Htp' & ->)] | [[-> ->] | (Hne & Hlt & Hold)]].
      * cbn. apply NoDup_snoc_fresh; [apply (Lcn p tp' Htp') |].
        intros x Hx. destruct (Hwf p tp' Htp') as [_ Hch].
        specialize (Hch x Hx). lia.
      * constructor.
      * apply (Lcn a t Hold).
    + exact Ltn.
Qed.

(** Whenever the loop returns, the invariant and the agreement of [parent]
    with [children] hold of what it returns. *)
Lemma loop_returns_Linked (lines : list string) :
  forall st st',
    Inv st -> Linked st -> loop st lines = Ok st' -> Inv st' /\ Linked st'.
Proof.
  induction lines as [|line lines IH]; intros st st' HI HL Hrun.
  - injection Hrun as <-. auto.
  - cbn [loop] in Hrun. unfold loopBody in Hrun.
    destruct (parseTag line) as [r | e |]; cbn in Hrun; try discriminate.
    destruct (addRecord_Inv st r HI) as (st1 & H1 & HI1 & _).
    rewrite H1 in Hrun. cbn in Hrun.
    apply (IH st1 st' HI1); [| exact Hrun].
    apply (addRecord_Linked st st1 r HI HL H1).
Qed.

(** X12.  In what [parseTags] returns, [parent] and [children] agree: a tag is
    a child of exactly the tag its [parent] names, the roots are the tags
    without parent, and neither the roots nor the children of a tag hold a tag
    twice. *)
Theorem parseTags_links_agree (text : string) (st : state) :
  parseTags text = Ok st ->
  Linked st
  /\ (forall a t, heap st !! a = Some t ->
        (parent t = None <-> In a (tags st))).
Proof.
  intros Hrun. unfold parseTags in Hrun.
  destruct (loop_returns_Linked _ _ _ Inv_initial Linked_initial Hrun)
    as [HI HL].
  split; [exact HL |].
  intros a t Ht. split.
  - apply (inv_roots st HI a t Ht).
  - intros Hin. destruct (linked_root st HL a Hin) as [t' [Ht' Hnone]].
    congruence.
Qed.

Lemma parseTags_links_agree_witness :
  parseTags spec_text_foo = Ok parsed_foo
  /\ Linked parsed_foo
  /\ (forall a t, heap parsed_foo !! a = Some t ->
        (parent t = None <-> In a (tags parsed_foo))).
Proof.
  split; [exact parsed_foo_parse |].
  apply (parseTags_links_agree spec_text_foo parsed_foo parsed_foo_parse).
Defined.


(** *** The forest lists the tags in input order *)

Lemma nodesAt_S (h : store) fuel a :
  nodesAt h (S fuel) a =
  match h !! a with
  | None => []
  | Some t => a :: concat (map (nodesAt h fuel) (children t))
  end.
Proof. reflexivity. Qed.

Lemma nodesAt_unfold (h : store) fuel a t :
  wfStore h -> h !! a = Some t -> (length h <= a + fuel)%nat ->
  nodesAt h fuel a = a :: concat (map (nodesAt h fuel) (children t)).
Proof.
  intros Hwf Ht Hf. apply lookup_lt_Some in Ht as Ha.
  destruct fuel as [|fuel]; [lia |]. rewrite nodesAt_S, Ht.
  f_equal. f_equal. apply map_ext_in. intros c Hc.
  destruct (Hwf a t Ht) as [_ Hch]. specialize (Hch c Hc).
  apply nodesAt_fuel; [exact Hwf | lia | lia | lia].
Qed.

Lemma nodesAt_ge (h : store) :
  wfStore h -> forall fuel a x, In x (nodesAt h fuel a) -> (a <= x)%nat.
Proof.
  intros Hwf. induction fuel as [|fuel IH]; intros a x Hx; [destruct Hx |].
  cbn [nodesAt] in Hx. destruct (h !! a) as [t|] eqn:Ht; [| destruct Hx].
  destruct Hx as [<- | Hx]; [lia |].
  apply in_concat in Hx as [l [Hl Hx]].
  apply in_map_iff in Hl as [c [<- Hc]].
  destruct (Hwf a t Ht) as [_ Hch]. specialize (Hch c Hc).
  specialize (IH c x Hx). lia.
Qed.

Lemma nodesAt_lt (h : store) :
  wfStore h ->
  forall fuel a x, In x (nodesAt h fuel a) -> (x < length h)%nat.
Proof.
  intros Hwf. induction fuel as [|fuel IH]; intros a x Hx; [destruct Hx |].
  cbn [nodesAt] in Hx. destruct (h !! a) as [t|] eqn:Ht; [| destruct Hx].
  destruct Hx as [<- | Hx]; [eapply lookup_lt_Some; exact Ht |].
  apply in_concat in Hx as [l [Hl Hx]].
  apply in_map_iff in Hl as [c [<- Hc]].
  apply (IH c x Hx).
Qed.

Lemma nodesAt_self (h : store) fuel a :
  (a < length h)%nat -> In a (nodesAt h (S fuel) a).
Proof.
  intros Ha. destruct (lookup_lt_length h a Ha) as [t Ht].
  cbn [nodesAt]. rewrite Ht. left. reflexivity.
Qed.

Lemma nodesAt_child_incl (h : store) fuel a t c x :
  wfStore h -> h !! a = Some t -> (length h <= a + fuel)%nat ->
  In c (children t) -> In x (nodesAt h fuel c) -> In x (nodesAt h fuel a).
Proof.
  intros Hwf Ht Hf Hc Hx. rewrite (nodesAt_unfold h fuel a t Hwf Ht Hf).
  right. apply in_concat. exists (nodesAt h fuel c).
  split; [apply in_map; exact Hc | exact Hx].
Qed.

(** Allocating a tag under [p] leaves the subtrees without [p] as they
    are. *)
Lemma nodesAt_child_store_same (h : store) nm ln p :
  wfStore h -> (p < length h)%nat ->
  forall fuel a,
    (a < length h)%nat -> (length h <= a + fuel)%nat ->
    ~ In p (nodesAt h fuel a) ->
    nodesAt (appendChild p (length h) (h ++ [mkTag nm ln (Some p) []]))
            (S fuel) a
    = nodesAt h fuel a.
Proof.
  intros Hwf Hp. induction fuel as [|fuel IH]; intros a Ha Hf Hno; [lia |].
  destruct (lookup_lt_length h a Ha) as [t Ht].
  assert (Hap : a <> p).
  { intros ->. apply Hno. apply nodesAt_self. exact Hp. }
  rewrite (nodesAt_S _ (S fuel) a), (nodesAt_S h fuel a).
  rewrite (lookup_child_store_old h nm ln p a t Hap Ht), Ht.
  f_equal. f_equal. apply map_ext_in. intros c Hc.
  destruct (Hwf a t Ht) as [_ Hch]. specialize (Hch c Hc).
  apply IH; [lia | lia |].
  intros Hin. apply Hno.
  apply (nodesAt_child_incl h (S fuel) a t c p Hwf Ht Hf Hc).
  rewrite (nodesAt_fuel h fuel (S fuel) c Hwf); [exact Hin | lia | lia | lia].
Qed.


(** The subtree of the parent gains the new tag at its end. *)
Lemma nodesAt_child_store_parent_fuel (h : store) nm ln p fuel :
  wfStore h -> (p < length h)%nat -> (length h <= p + S fuel)%nat ->
  nodesAt (appendChild p (length h) (h ++ [mkTag nm ln (Some p) []]))
          (S (S fuel)) p
  = nodesAt h (S fuel) p ++ [length h].
Proof.
  intros Hwf Hp Hf. destruct (lookup_lt_length h p Hp) as [tp Htp].
  destruct (Hwf p tp Htp) as [_ Hch].
  rewrite (nodesAt_S _ (S fuel) p), (nodesAt_S h fuel p).
  rewrite (lookup_child_store_parent h nm ln p tp Htp), Htp.
  cbn [children]. rewrite map_app, concat_app. cbn [map concat].
  rewrite app_nil_r, (nodesAt_S _ fuel (length h)).
  rewrite (lookup_child_store_new h nm ln p Hp). cbn [children map concat].
  cbn [app]. f_equal. f_equal. f_equal.
  apply map_ext_in. intros c Hc. specialize (Hch c Hc).
  apply nodesAt_child_store_same; [exact Hwf | exact Hp | lia | lia |].
  intros Hin. apply (nodesAt_ge h Hwf) in Hin. lia.
Qed.

Lemma nodesAt_child_store_parent (h : store) nm ln p :
  wfStore h -> (p < length h)%nat ->
  nodesAt (appendChild p (length h) (h ++ [mkTag nm ln (Some p) []]))
          (S (length h)) p
  = nodesAt h (length h) p ++ [length h].
Proof.
  intros Hwf Hp.
  assert (HN : exists M, length h = S M).
  { destruct (length h) as [|M]; [lia | eauto]. }
  destruct HN as [M HN].
  pose proof (nodesAt_child_store_parent_fuel h nm ln p M Hwf Hp) as H.
  rewrite <- HN in H. apply H. lia.
Qed.

(** The subtrees along the spine hold no tag twice. *)
Lemma spine_NoDup (st : state) :
  wfStore (heap st) -> List.NoDup (nodes st) ->
  forall c, OnSpine (heap st) (tags st) c ->
            List.NoDup (nodesAt (heap st) (length (heap st)) c).
Proof.
  intros Hwf Hnd c Hsp. induction Hsp as [r t Hr Hnone Hlast
                                         | c tc q t Hc Hpc Hq Hlast Hsp IH].
  - apply last_Some in Hlast as [ts0 Hts]. unfold nodes in Hnd.
    rewrite Hts, map_app, concat_app in Hnd. cbn [map concat] in Hnd.
    rewrite app_nil_r in Hnd. apply NoDup_app_remove_l in Hnd. exact Hnd.
  - apply last_Some in Hlast as [cs0 Hcs].
    rewrite (nodesAt_unfold _ _ q t Hwf Hq) in IH by lia.
    rewrite Hcs, map_app, concat_app in IH. cbn [map concat] in IH.
    rewrite app_nil_r in IH. apply List.NoDup_cons_iff in IH as [_ IH].
    apply NoDup_app_remove_l in IH. exact IH.
Qed.

Lemma NoDup_app_disjoint {A} (l1 l2 : list A) x :
  List.NoDup (l1 ++ l2) -> In x l2 -> ~ In x l1.
Proof.
  induction l1 as [|y l1 IH]; intros Hnd Hx; [intros [] |].
  cbn in Hnd. apply List.NoDup_cons_iff in Hnd as [Hy Hnd].
  intros [-> | Hin].
  - apply Hy. apply in_or_app. right. exact Hx.
  - exact (IH Hnd Hx Hin).
Qed.

(** Allocating a tag under a tag of the spine puts it at the end of the
    forest. *)
Lemma spine_extend (st : state) nm ln p :
  Inv st -> List.NoDup (nodes st) -> (p < length (heap st))%nat ->
  forall c,
    OnSpine (heap st) (tags st) c ->
    In p (nodesAt (heap st) (length (heap st)) c) ->
    nodesAt (appendChild p (length (heap st))
               (heap st ++ [mkTag nm ln (Some p) []]))
            (S (length (heap st))) c
    = nodesAt (heap st) (length (heap st)) c ++ [length (heap st)] ->
    concat (map (nodesAt (appendChild p (length (heap st))
                            (heap st ++ [mkTag nm ln (Some p) []]))
                         (S (length (heap st)))) (tags st))
    = nodes st ++ [length (heap st)].
Proof.
  intros HI Hnd Hp c Hsp.
  pose proof (inv_store st HI) as Hwf.
  set (h := heap st) in *. set (N := length h) in *.
  set (h' := appendChild p N (h ++ [mkTag nm ln (Some p) []])).
  induction Hsp as [r t Hr Hnone Hlast
                   | c tc q t Hc Hpc Hq Hlast Hsp IH]; intros Hin Hext.
  - apply last_Some in Hlast as [ts0 Hts]. unfold nodes in *.
    fold h in Hnd |- *. fold N in Hnd |- *.
    assert (Hbound : forall x, In x ts0 -> (x < N)%nat).
    { intros x Hx. apply (inv_tags st HI). rewrite Hts.
      apply in_or_app. left. exact Hx. }
    rewrite Hts, map_app, concat_app in Hnd. cbn [map concat] in Hnd.
    rewrite app_nil_r in Hnd.
    rewrite Hts, !map_app, !concat_app. cbn [map concat].
    rewrite !app_nil_r, Hext, app_assoc. f_equal. f_equal. f_equal.
    apply map_ext_in. intros x Hx.
    apply nodesAt_child_store_same;
      [exact Hwf | exact Hp | apply Hbound; exact Hx | lia |].
    intros Hpx. eapply (NoDup_app_disjoint _ _ p Hnd Hin).
    apply in_concat. exists (nodesAt h N x).
    split; [apply in_map; exact Hx | exact Hpx].
  - apply last_Some in Hlast as [cs0 Hcs].
    destruct (Hwf c tc Hc) as [Hpar _]. specialize (Hpar q Hpc).
    destruct (Hwf q t Hq) as [_ Hch].
    apply (nodesAt_ge h Hwf) in Hin as Hcp.
    assert (Hqp : q <> p) by lia.
    assert (Hql : (q < N)%nat) by (eapply lookup_lt_Some; exact Hq).
    assert (Hwf' : wfStore h') by (apply wfStore_alloc_child; assumption).
    pose proof (spine_NoDup st Hwf Hnd q Hsp) as Hndq.
    fold h in Hndq. fold N in Hndq.
    rewrite (nodesAt_unfold h N q t Hwf Hq) in Hndq by lia.
    rewrite Hcs, map_app, concat_app in Hndq. cbn [map concat] in Hndq.
    rewrite app_nil_r in Hndq. apply List.NoDup_cons_iff in Hndq as [_ Hndq].
    apply IH.
    + apply (nodesAt_child_incl h N q t c p Hwf Hq); [lia | | exact Hin].
      rewrite Hcs. apply in_or_app. right. left. reflexivity.
    + rewrite (nodesAt_unfold h' (S N) q t Hwf'
                 (lookup_child_store_old h nm ln p q t Hqp Hq)).
      2:{ unfold h'. rewrite length_appendChild, length_app. cbn. lia. }
      rewrite (nodesAt_unfold h N q t Hwf Hq) by lia.
      rewrite Hcs, !map_app, !concat_app. cbn [map concat].
      rewrite !app_nil_r, Hext. cbn [app]. f_equal.
      rewrite app_assoc. f_equal. f_equal. f_equal.
      apply map_ext_in. intros x Hx.
      assert (Hxc : In x (children t)).
      { rewrite Hcs. apply in_or_app. left. exact Hx. }
      specialize (Hch x Hxc).
      apply nodesAt_child_store_same; [exact Hwf | exact Hp | lia | lia |].
      intros Hpx. eapply (NoDup_app_disjoint _ _ p Hndq Hin).
      apply in_concat. exists (nodesAt h N x).
      split; [apply in_map; exact Hx | exact Hpx].
Qed.


(** What [findScope] returns from a tag of the spine is on the spine. *)
Lemma findScope_onSpine (h : store) (roots : list nat) scopeName :
  forall a, OnSpine h roots a ->
  forall fuel p,
    findScope h fuel (Some a) scopeName = Ok (Some p) -> OnSpine h roots p.
Proof.
  intros a Hsp. induction Hsp as [r t Hr Hnone Hlast
                                 | c tc q t Hc Hpc Hq Hlast Hsp IH];
    intros fuel p Hf.
  - destruct fuel; cbn [findScope] in Hf; rewrite Hr, Hnone in Hf;
      (destruct (nameIs t scopeName); [| discriminate Hf]);
      injection Hf as <-; eapply spine_root; eassumption.
  - destruct fuel as [|fuel]; cbn [findScope] in Hf; rewrite Hc, Hpc in Hf.
    + destruct (nameIs tc scopeName); [| discriminate Hf].
      injection Hf as <-. eapply spine_child; eassumption.
    + destruct (nameIs tc scopeName).
      * injection Hf as <-. eapply spine_child; eassumption.
      * apply (IH fuel p Hf).
Qed.

Lemma OnSpine_child_store (h : store) (roots : list nat) nm ln p :
  wfStore h -> (p < length h)%nat ->
  forall c, OnSpine h roots c -> (c <= p)%nat ->
  OnSpine (appendChild p (length h) (h ++ [mkTag nm ln (Some p) []])) roots c.
Proof.
  intros Hwf Hp c Hsp. induction Hsp as [r t Hr Hnone Hlast
                                        | c tc q t Hc Hpc Hq Hlast Hsp IH];
    intros Hle.
  - destruct (Nat.eq_dec r p) as [-> | Hne].
    + eapply spine_root;
        [apply lookup_child_store_parent; exact Hr | exact Hnone | exact Hlast].
    + eapply spine_root;
        [apply lookup_child_store_old; eassumption | exact Hnone | exact Hlast].
  - destruct (Hwf c tc Hc) as [Hpar _]. specialize (Hpar q Hpc).
    assert (Hqp : q <> p) by lia.
    destruct (Nat.eq_dec c p) as [-> | Hne].
    + eapply spine_child.
      * apply lookup_child_store_parent. exact Hc.
      * exact Hpc.
      * apply lookup_child_store_old; eassumption.
      * exact Hlast.
      * apply IH. lia.
    + eapply spine_child.
      * apply lookup_child_store_old; eassumption.
      * exact Hpc.
      * apply lookup_child_store_old; eassumption.
      * exact Hlast.
      * apply IH. lia.
Qed.

Lemma Ordered_initial : Ordered initial.
Proof. constructor; [intros a [=] | reflexivity]. Qed.

Lemma addRecord_Ordered (st st' : state) (r : record) :
  Inv st -> Ordered st -> addRecord st r = Ok st' -> Ordered st'.
Proof.
  intros HI [Hsp Hnodes] Hadd. destruct r as [[[nm ln] kind] scope].
  pose proof (inv_store st HI) as Hwf.
  destruct (addRecord_cases st st' nm ln kind scope HI Hadd)
    as [[_ ->] | [[_ ->] | [_ (p & Hp & Hfind & ->)]]].
  - constructor; assumption.
  - (* a new root *)
    constructor; cbn [heap tags lastTag].
    + intros a [= <-]. eapply spine_root.
      * apply lookup_alloc_new.
      * reflexivity.
      * apply last_snoc.
    + unfold nodes. cbn [heap tags]. rewrite length_app. cbn [length].
      rewrite map_app, concat_app. cbn [map concat]. rewrite app_nil_r.
      assert (Hsame :
        map (nodesAt (heap st ++ [mkTag nm ln None []])
                     (length (heap st) + 1)) (tags st) =
        map (nodesAt (heap st) (length (heap st))) (tags st)).
      { apply map_ext_in. intros c Hc. pose proof (inv_tags st HI c Hc).
        apply nodesAt_agree; [assumption | | assumption | lia | lia].
        intros b Hb. apply lookup_alloc_old. exact Hb. }
      rewrite Hsame.
      change (concat (map (nodesAt (heap st) (length (heap st))) (tags st)))
        with (nodes st).
      replace (length (heap st) + 1)%nat with (S (length (heap st))) by lia.
      rewrite nodesAt_S, lookup_alloc_new. cbn [children map concat].
      rewrite Hnodes, seq_S. reflexivity.
  - (* a new child of [p] *)
    assert (Hspp : OnSpine (heap st) (tags st) p).
    { destruct (lastTag st) as [a|] eqn:Hl.
      - apply (findScope_onSpine _ _ scope a (Hsp a eq_refl) _ p Hfind).
      - rewrite findScope_none in Hfind. discriminate Hfind. }
    destruct (lookup_lt_length (heap st) p Hp) as [tp Htp].
    constructor; cbn [heap tags lastTag].
    + intros a [= <-]. eapply spine_child.
      * apply lookup_child_store_new. exact Hp.
      * reflexivity.
      * apply lookup_child_store_parent. exact Htp.
      * cbn. apply last_snoc.
      * apply OnSpine_child_store; [exact Hwf | exact Hp | exact Hspp | lia].
    + unfold nodes at 1. cbn [heap tags].
      rewrite length_appendChild, length_app. cbn [length].
      replace (length (heap st) + 1)%nat with (S (length (heap st))) by lia.
      assert (Hnd : List.NoDup (nodes st)).
      { rewrite Hnodes. apply seq_NoDup. }
      rewrite (spine_extend st nm ln p HI Hnd Hp p Hspp).
      * rewrite Hnodes, seq_S. reflexivity.
      * destruct (length (heap st)) as [|M] eqn:HN; [lia |].
        apply nodesAt_self. lia.
      * apply nodesAt_child_store_parent; assumption.
Qed.

Lemma loop_returns_Ordered (lines : list string) :
  forall st st',
    Inv st -> Ordered st -> loop st lines = Ok st' -> Inv st' /\ Ordered st'.
Proof.
  induction lines as [|line lines IH]; intros st st' HI HO Hrun.
  - injection Hrun as <-. auto.
  - cbn [loop] in Hrun. unfold loopBody in Hrun.
    destruct (parseTag line) as [r | e |]; cbn in Hrun; try discriminate.
    destruct (addRecord_Inv st r HI) as (st1 & H1 & HI1 & _).
    rewrite H1 in Hrun. cbn in Hrun.
    apply (IH st1 st' HI1); [| exact Hrun].
    apply (addRecord_Ordered st st1 r HI HO H1).
Qed.


(** *** Names and line numbers *)

Lemma map_label_appendChild (h : store) p n :
  map label (appendChild p n h) = map label h.
Proof.
  unfold appendChild. revert p.
  induction h as [|t h IH]; intros p; [reflexivity |].
  destruct p as [|p]; cbn; [reflexivity |]. f_equal. apply IH.
Qed.

Lemma addRecord_labels (st st' : state) (r : record) :
  Inv st -> addRecord st r = Ok st' ->
  map label (heap st')
  = map label (heap st) ++ (if kept r then [recordLabel r] else []).
Proof.
  intros HI Hadd. destruct r as [[[nm ln] kind] scope].
  unfold kept, recordLabel.
  destruct (addRecord_cases st st' nm ln kind scope HI Hadd)
    as [[-> ->] | [[-> ->] | [-> (p & _ & _ & ->)]]]; cbn [negb heap].
  - rewrite app_nil_r. reflexivity.
  - rewrite map_app. reflexivity.
  - rewrite map_label_appendChild, map_app. reflexivity.
Qed.

Lemma loop_labels (lines : list string) :
  forall rs st st',
    map parseTag lines = map Ok rs ->
    Inv st -> loop st lines = Ok st' ->
    map label (heap st')
    = map label (heap st) ++ map recordLabel (List.filter kept rs).
Proof.
  induction lines as [|line lines IH]; intros rs st st' Hrs HI Hrun.
  - destruct rs; [| discriminate Hrs]. injection Hrun as <-.
    cbn. rewrite app_nil_r. reflexivity.
  - destruct rs as [|r rs]; [discriminate Hrs |].
    cbn [map] in Hrs. injection Hrs as Hr Hrs.
    cbn [loop] in Hrun. unfold loopBody in Hrun. rewrite Hr in Hrun.
    cbn in Hrun.
    destruct (addRecord_Inv st r HI) as (st1 & H1 & HI1 & _).
    rewrite H1 in Hrun. cbn in Hrun.
    rewrite (IH rs st1 st' Hrs HI1 Hrun), (addRecord_labels st st1 r HI H1).
    rewrite <- app_assoc. f_equal. cbn [List.filter].
    destruct (kept r); reflexivity.
Qed.

Lemma treeAt_preorder (h : store) fuel (l : list nat) :
  map Some (forestLabels (concat (map (treeAt h fuel) l)))
  = map (fun a => label <$> h !! a) (concat (map (nodesAt h fuel) l)).
Proof.
  unfold forestLabels. revert l. induction fuel as [|fuel IH]; intros l.
  - induction l as [|a l IHl]; [reflexivity | exact IHl].
  - induction l as [|a l IHl]; [reflexivity |].
    cbn [map concat]. rewrite !map_app, !concat_app, !map_app, IHl.
    f_equal. cbn [treeAt]. rewrite nodesAt_S.
    destruct (h !! a) as [t|] eqn:Ht; [| reflexivity].
    cbn [map concat preorder]. rewrite app_nil_r. cbn [map].
    rewrite Ht. cbn. f_equal. apply IH.
Qed.

Lemma lookup_all (h : store) :
  map (fun a => label <$> h !! a) (seq 0 (length h)) = map Some (map label h).
Proof.
  induction h as [|t h IH] using rev_ind; [reflexivity |].
  rewrite length_app, seq_app, !map_app. cbn [length seq map Nat.add].
  rewrite lookup_alloc_new. cbn. f_equal.
  rewrite <- IH. apply map_ext_in. intros a Ha. apply in_seq in Ha.
  rewrite lookup_alloc_old by lia. reflexivity.
Qed.

Lemma map_Some_inj {A} (l1 l2 : list A) :
  map Some l1 = map Some l2 -> l1 = l2.
Proof.
  revert l2. induction l1 as [|x l1 IH]; intros [|y l2] H;
    try discriminate; [reflexivity |].
  cbn in H. injection H as -> H. f_equal. apply IH. exact H.
Qed.

Lemma parsed_lines (lines : list string) (rs : list record) :
  map parseTag lines = map Ok rs ->
  Forall (fun l => exists r, parseTag l = Ok r) lines.
Proof.
  revert rs. induction lines as [|line lines IH]; intros rs H;
    [constructor |].
  destruct rs as [|r rs]; [discriminate H |]. cbn in H. injection H as Hr H.
  constructor; [eauto | apply (IH rs H)].
Qed.

(** X13.  The forest lists the records that are not ignored, with their names
    and line numbers, in the order of the text: each tag before its children,
    the children of a tag and the roots in the order of their lines. *)
Theorem parseTags_preorder_is_input_order (text : string)
    (rs : list record) :
  map parseTag (splitlines text) = map Ok rs ->
  exists st,
    parseTags text = Ok st
    /\ forestLabels (forest st) = map recordLabel (List.filter kept rs).
Proof.
  intros Hrs.
  destruct (loop_Inv (splitlines text) (parsed_lines _ _ Hrs)
                     initial Inv_initial) as (st & Hrun & HI & _).
  exists st. split; [exact Hrun |].
  destruct (loop_returns_Ordered _ _ _ Inv_initial Ordered_initial Hrun)
    as [_ [_ Hnodes]].
  apply map_Some_inj. unfold forest. rewrite treeAt_preorder.
  change (concat (map (nodesAt (heap st) (length (heap st))) (tags st)))
    with (nodes st).
  rewrite Hnodes, lookup_all.
  rewrite (loop_labels _ rs initial st Hrs Inv_initial Hrun). reflexivity.
Qed.

Lemma parseTags_preorder_is_input_order_witness :
  map parseTag (splitlines spec_text_foo) = map Ok spec_stream_foo
  /\ exists st,
      parseTags spec_text_foo = Ok st
      /\ forestLabels (forest st)
         = map recordLabel (List.filter kept spec_stream_foo).
Proof.
  assert (H : map parseTag (splitlines spec_text_foo) = map Ok spec_stream_foo)
    by (vm_compute; reflexivity).
  split; [exact H |].
  apply (parseTags_preorder_is_input_order spec_text_foo spec_stream_foo H).
Defined.

End CtagsMoreFacts.
(** ** The tree model over a parsed text *)

Section TagViewFacts.
Import PyStr Ctags CtagsMore TagView Fixtures FixturesMore.
#[local] Open Scope string_scope.
#[local] Open Scope list_scope.

Lemma getitem_ok {A} (l : list A) (i : Z) :
  (0 <= i < Z.of_nat (length l))%Z ->
  exists x, getitem l i = Ok x /\ l !! Z.to_nat i = Some x.
Proof.
  intros Hi. unfold getitem.
  destruct (Z.ltb_spec i 0) as [Hneg | _]; [lia |].
  destruct (Z.ltb_spec i 0) as [Hneg | _]; [lia |].
  destruct (Z.leb_spec (Z.of_nat (length l)) i) as [Hge | _]; [lia |].
  cbn [orb].
  destruct (l !! Z.to_nat i) as [x|] eqn:Hx.
  - exists x. split; reflexivity.
  - apply lookup_ge_None in Hx. lia.
Qed.



Lemma list_index_In (l : list nat) (x : nat) :
  In x l ->
  exists i, list_index l x = Ok i
            /\ (0 <= i < Z.of_nat (length l))%Z
            /\ l !! Z.to_nat i = Some x.
Proof.
  induction l as [|y l IH]; intros Hin; [destruct Hin |].
  cbn [list_index]. destruct (Nat.eqb_spec y x) as [-> | Hne].
  - exists 0%Z. cbn. split; [reflexivity |]. split; [lia | reflexivity].
  - destruct Hin as [Heq | Hin]; [congruence |].
    destruct (IH Hin) as (i & Hi & Hr & Hl).
    exists (i + 1)%Z. rewrite Hi. cbn [mbind result_bind length].
    split; [reflexivity |]. split; [lia |].
    replace (Z.to_nat (i + 1)) with (S (Z.to_nat i)) by lia. exact Hl.
Qed.

Lemma list_index_lookup (l : list nat) (n : nat) (x : nat) :
  List.NoDup l -> l !! n = Some x -> list_index l x = Ok (Z.of_nat n).
Proof.
  intros Hnd. revert n. induction Hnd as [|y l Hy Hnd IH]; intros n Hn.
  - destruct n; discriminate Hn.
  - cbn [list_index]. destruct n as [|n].
    + injection Hn as ->. rewrite Nat.eqb_refl. reflexivity.
    + cbn in Hn. destruct (Nat.eqb_spec y x) as [-> | Hne].
      * exfalso. apply Hy. apply list_elem_of_In.
        apply (list_elem_of_lookup_2 _ _ _ Hn).
      * rewrite (IH n Hn). cbn [mbind result_bind]. f_equal. lia.
Qed.



Lemma getitem_lookup {A} (l : list A) (i : Z) (x : A) :
  (0 <= i)%Z -> l !! Z.to_nat i = Some x -> getitem l i = Ok x.
Proof.
  intros Hi Hx. apply lookup_lt_Some in Hx as Hlt.
  destruct (getitem_ok l i) as (y & Hy & Hl); [lia |].
  rewrite Hy. congruence.
Qed.


(** What [parent] answers for the index of a tag of the store. *)
Lemma parent_answer (m : state) (r c : Z) (a : nat) (t : Tag) :
  Inv m -> Linked m -> heap m !! a = Some t ->
  match Ctags.parent t with
  | None => parent_ m (Some (createIndex r c a)) = Ok None
  | Some pa =>
      exists tp r',
        heap m !! pa = Some tp
        /\ parent_ m (Some (createIndex r c a))
           = Ok (Some (createIndex r' 0 pa))
        /\ (0 <= r')%Z
        /\ siblings m tp !! Z.to_nat r' = Some pa
  end.
Proof.
  intros HI HL Ht. unfold parent_, deref. cbn [internalPointer].
  rewrite Ht. cbn [mbind result_bind].
  destruct (Ctags.parent t) as [pa|] eqn:Hp; [| reflexivity].
  destruct (linked_parent m HL a t pa Ht Hp) as (tp & Htp & Hin).
  exists tp. rewrite Htp. cbn [mbind result_bind]. unfold siblings.
  destruct (Ctags.parent tp) as [g|] eqn:Hg.
  - destruct (linked_parent m HL pa tp g Htp Hg) as (tg & Htg & Hing).
    rewrite Htg. cbn [mbind result_bind].
    destruct (list_index_In (children tg) pa Hing) as (r' & Hr & Hb & Hl).
    exists r'. rewrite Hr. cbn [mbind result_bind].
    split; [reflexivity |]. split; [reflexivity |]. split; [lia | exact Hl].
  - pose proof (inv_roots m HI pa tp Htp Hg) as Hroot.
    destruct (list_index_In (tags m) pa Hroot) as (r' & Hr & Hb & Hl).
    exists r'. rewrite Hr. cbn [mbind result_bind].
    split; [reflexivity |]. split; [reflexivity |]. split; [lia | exact Hl].
Qed.

Lemma parse_Inv_Linked (text : string) (m : state) :
  parseTags text = Ok m -> Inv m /\ Linked m.
Proof.
  intros Hrun. unfold parseTags in Hrun.
  apply (loop_returns_Linked _ _ _ Inv_initial Linked_initial Hrun).
Qed.


(** X15.  [parent] never raises on the index of a tag, and the index it
    returns is the one [index] gives for its row and column 0 below its
    own parent: the row that [list.index] found is the row of that tag. *)
Theorem parent_then_index (text : string) (m : state) (i : QModelIndex) :
  parseTags text = Ok m ->
  validIndex m (Some i) ->
  exists q,
    parent_ m (Some i) = Ok q
    /\ validIndex m q
    /\ (forall qi, q = Some qi ->
          exists g, parent_ m q = Ok g
                    /\ index m (TagView.row qi) 0 g = Ok q).
Proof.
  intros Hrun Hv.
  destruct (parse_Inv_Linked text m Hrun) as [HI HL].
  destruct i as [r c a]. cbn in Hv.
  destruct (lookup_lt_is_Some_2 _ _ Hv) as [t Ht].
  pose proof (parent_answer m r c a t HI HL Ht) as Hpar.
  destruct (Ctags.parent t) as [pa|] eqn:Hp.
  - destruct Hpar as (tp & r' & Htp & Hq & Hr' & Hsib).
    exists (Some (createIndex r' 0 pa)).
    split; [exact Hq |]. split; [apply (lookup_lt_Some _ _ _ Htp) |].
    intros qi [= <-]. cbn [TagView.row].
    pose proof (parent_answer m r' 0 pa tp HI HL Htp) as Hpar2.
    unfold siblings in Hsib.
    destruct (Ctags.parent tp) as [g|] eqn:Hg.
    + destruct Hpar2 as (tg & r2 & Htg & Hq2 & _).
      exists (Some (createIndex r2 0 g)). split; [exact Hq2 |].
      cbn [index internalPointer]. unfold deref. rewrite Htg in Hsib |- *.
      cbn [mbind result_bind].
      rewrite (getitem_lookup _ _ _ Hr' Hsib). reflexivity.
    + exists None. split; [exact Hpar2 |].
      cbn [index]. rewrite (getitem_lookup _ _ _ Hr' Hsib). reflexivity.
  - exists None. split; [exact Hpar |]. split; [exact I |].
    intros qi [=].
Qed.



Lemma parent_then_index_witness :
  parseTags spec_text_foo = Ok parsed_foo
  /\ validIndex parsed_foo (Some (createIndex 0 0 1))
  /\ exists q,
       parent_ parsed_foo (Some (createIndex 0 0 1)) = Ok q
       /\ validIndex parsed_foo q
       /\ (forall qi, q = Some qi ->
             exists g, parent_ parsed_foo q = Ok g
                       /\ index parsed_foo (TagView.row qi) 0 g = Ok q).
Proof.
  split; [exact parsed_foo_parse |].
  split; [cbn; lia |].
  apply (parent_then_index spec_text_foo parsed_foo (createIndex 0 0 1)
           parsed_foo_parse).
  cbn. lia.
Defined.


(** *** [Tag.format] *)

Lemma sapp_assoc (a b c : string) : (a +:+ b) +:+ c = a +:+ (b +:+ c).
Proof.
  induction a as [|x a IH]; [reflexivity |].
  change (String x ((a +:+ b) +:+ c) = String x (a +:+ (b +:+ c))).
  rewrite IH. reflexivity.
Qed.

Lemma join_cons (sep x : string) (l : list string) :
  l <> [] ->
  String.concat sep (x :: l) = x +:+ sep +:+ String.concat sep l.
Proof. destruct l; [congruence | reflexivity]. Qed.

Lemma join_app (sep : string) (l1 l2 : list string) :
  l1 <> [] -> l2 <> [] ->
  String.concat sep (l1 ++ l2)
  = String.concat sep l1 +:+ sep +:+ String.concat sep l2.
Proof.
  intros H1 H2. induction l1 as [|x l1 IH]; [congruence |].
  destruct l1 as [|y l1].
  - cbn [app]. rewrite (join_cons sep x l2 H2). reflexivity.
  - change ((x :: y :: l1) ++ l2) with (x :: ((y :: l1) ++ l2)).
    rewrite (join_cons sep x ((y :: l1) ++ l2)) by discriminate.
    rewrite IH by discriminate.
    rewrite (join_cons sep x (y :: l1)) by discriminate.
    rewrite !sapp_assoc. reflexivity.
Qed.

Lemma join_concat (sep : string) (ls : list (list string)) :
  (forall l, In l ls -> l <> []) ->
  String.concat sep (List.concat ls)
  = String.concat sep (map (String.concat sep) ls).
Proof.
  induction ls as [|l ls IH]; intros Hne; [reflexivity |].
  cbn [List.concat map].
  destruct ls as [|l' ls].
  - cbn [List.concat map]. rewrite app_nil_r. reflexivity.
  - rewrite join_app.
    + rewrite IH by (intros l0 H0; apply Hne; right; exact H0).
      rewrite join_cons by discriminate. reflexivity.
    + apply Hne. left. reflexivity.
    + cbn [List.concat]. intros Happ. apply app_eq_nil in Happ as [Hl' _].
      apply (Hne l'); [right; left; reflexivity | exact Hl'].
Qed.

Lemma mapM_ok {A B} (f : A -> result B) (g : A -> B) (l : list A) :
  (forall x, In x l -> f x = Ok (g x)) -> mapM f l = Ok (map g l).
Proof.
  induction l as [|x l IH]; intros H; [reflexivity |].
  cbn [mapM map]. rewrite (H x) by (left; reflexivity).
  cbn [mbind result_bind].
  rewrite IH by (intros y Hy; apply H; right; exact Hy).
  reflexivity.
Qed.

Lemma format_S (h : store) fuel a k :
  format h (S fuel) a k =
  match h !! a with
  | None => Raise AttributeError
  | Some t =>
      formattedChildren ←
        mapM (fun child => format h fuel child (k + 1)) (children t);
      Ok (match formattedChildren with
          | [] =>
              times tab (Z.to_nat k) +:+ str_int (lineNumber t)
              +:+ " " +:+ name t
          | _ :: _ =>
              ((times tab (Z.to_nat k) +:+ str_int (lineNumber t)
                +:+ " " +:+ name t) +:+ newline)
              +:+ String.concat newline formattedChildren
          end)
  end.
Proof. reflexivity. Qed.

Lemma rowsAt_S (h : store) fuel a k :
  rowsAt h (S fuel) a k =
  match h !! a with
  | None => []
  | Some t =>
      (k, a) :: concat (map (fun c => rowsAt h fuel c (k + 1)) (children t))
  end.
Proof. reflexivity. Qed.

Lemma format_rows (h : store) :
  wfStore h ->
  forall fuel a k,
    (a < length h)%nat -> (length h <= a + fuel)%nat ->
    format h fuel a k
    = Ok (String.concat newline (map (formatLine h) (rowsAt h fuel a k)))
    /\ rowsAt h fuel a k <> [].
Proof.
  intros Hwf. induction fuel as [|fuel IH]; intros a k Ha Hf; [lia |].
  rewrite format_S, rowsAt_S.
  destruct (lookup_lt_is_Some_2 h a Ha) as [t Ht]. rewrite Ht.
  split; [| discriminate].
  destruct (Hwf a t Ht) as [_ Hch].
  rewrite (mapM_ok _
    (fun c => String.concat newline
                (map (formatLine h) (rowsAt h fuel c (k + 1))))).
  2:{ intros c Hc. destruct (Hch c Hc) as [Hlt Hc'].
      apply (proj1 (IH c (k + 1)%Z Hc' ltac:(lia))). }
  cbn [mbind result_bind]. f_equal.
  assert (formatLine h (k, a)
          = times tab (Z.to_nat k) +:+ str_int (lineNumber t)
            +:+ " " +:+ name t) as Hline.
  { unfold formatLine. cbn [fst snd]. rewrite Ht. reflexivity. }
  destruct (children t) as [|c cs] eqn:Hcs.
  - cbn [map concat String.concat]. exact (eq_sym Hline).
  - set (l := c :: cs) in *.
    assert (forall x, In x l ->
              map (formatLine h) (rowsAt h fuel x (k + 1)) <> []) as Hne.
    { intros x Hx. destruct (Hch x Hx) as [Hlt Hx'].
      destruct (IH x (k + 1)%Z Hx' ltac:(lia)) as [_ Hr].
      destruct (rowsAt h fuel x (k + 1)); [congruence | discriminate]. }
    cbn [map]. rewrite Hline.
    rewrite concat_map, join_cons.
    + rewrite join_concat.
      * rewrite !map_map. subst l. cbn [map]. rewrite !sapp_assoc.
        reflexivity.
      * intros x Hx. apply in_map_iff in Hx as (y & <- & Hy).
        apply in_map_iff in Hy as (z & <- & Hz). apply Hne. exact Hz.
    + subst l. cbn [map concat]. intros Happ.
      apply app_eq_nil in Happ as [Hc0 _].
      apply (Hne c); [left; reflexivity | exact Hc0].
Qed.

Lemma rowsAt_nodes (h : store) fuel a k :
  map snd (rowsAt h fuel a k) = nodesAt h fuel a.
Proof.
  revert a k. induction fuel as [|fuel IH]; intros a k; [reflexivity |].
  rewrite rowsAt_S, nodesAt_S. destruct (h !! a) as [t|]; [| reflexivity].
  cbn [map snd]. f_equal. rewrite concat_map, map_map. f_equal.
  apply map_ext. intros c. apply IH.
Qed.

Lemma rowsAt_levels (st : state) :
  Linked st ->
  forall fuel a k d c,
    In (d, c) (rowsAt (heap st) fuel a k) ->
    (c = a /\ d = k)
    \/ exists tc pc,
         heap st !! c = Some tc /\ Ctags.parent tc = Some pc
         /\ In ((d - 1)%Z, pc) (rowsAt (heap st) fuel a k).
Proof.
  intros HL. induction fuel as [|fuel IH]; intros a k d c Hin;
    [destruct Hin |].
  rewrite rowsAt_S in Hin |- *.
  destruct (heap st !! a) as [t|] eqn:Ht; [| destruct Hin].
  destruct Hin as [Heq | Hin].
  - injection Heq as <- <-. left. split; reflexivity.
  - right. apply in_concat in Hin as (l & Hl & Hin).
    apply in_map_iff in Hl as (c' & <- & Hc').
    destruct (IH c' (k + 1)%Z d c Hin)
      as [[-> ->] | (tc & pc & Htc & Hp & Hin')].
    + destruct (linked_child st HL a t c' Ht Hc') as (tc & Htc & Hp).
      exists tc, a. split; [exact Htc |]. split; [exact Hp |].
      left. f_equal. lia.
    + exists tc, pc. split; [exact Htc |]. split; [exact Hp |].
      right. apply in_concat. eexists. split; [| exact Hin'].
      apply in_map_iff. exists c'. split; [reflexivity | exact Hc'].
Qed.

(** X17.  [format] of a tag of a parsed text prints one line per tag of the
    tree below it, the tag first and its descendants in the order of the
    forest, joined by newlines with none at the end; the line of the tag is
    indented by [indentLevel] tabs, every other line by one tab more than
    the line of its parent. *)
Theorem format_prints_subtree (text : string) (st : state) (a : nat)
    (indentLevel : Z) :
  parseTags text = Ok st ->
  (a < length (heap st))%nat ->
  let h := heap st in
  let rows := rowsAt h (length h) a indentLevel in
  format h (length h) a indentLevel
  = Ok (String.concat newline (map (formatLine h) rows))
  /\ map snd rows = nodesAt h (length h) a
  /\ (forall d c, In (d, c) rows ->
        (c = a /\ d = indentLevel)
        \/ exists tc pc,
             h !! c = Some tc /\ Ctags.parent tc = Some pc
             /\ In ((d - 1)%Z, pc) rows).
Proof.
  intros Hrun Ha h rows.
  destruct (parse_Inv_Linked text st Hrun) as [HI HL].
  split; [| split].
  - apply (format_rows h (inv_store st HI)); [exact Ha | lia].
  - apply rowsAt_nodes.
  - apply (rowsAt_levels st HL).
Qed.

Lemma format_prints_subtree_witness :
  parseTags spec_text_foo = Ok parsed_foo
  /\ (0 < length (heap parsed_foo))%nat
  /\ format (heap parsed_foo) (length (heap parsed_foo)) 0 0
     = Ok (String.concat newline
             (map (formatLine (heap parsed_foo))
                  (rowsAt (heap parsed_foo) (length (heap parsed_foo)) 0 0)))
  /\ map snd (rowsAt (heap parsed_foo) (length (heap parsed_foo)) 0 0)
     = nodesAt (heap parsed_foo) (length (heap parsed_foo)) 0
  /\ (forall d c,
        In (d, c) (rowsAt (heap parsed_foo) (length (heap parsed_foo)) 0 0)
        -> (c = 0%nat /\ d = 0%Z)
           \/ exists tc pc,
                heap parsed_foo !! c = Some tc
                /\ Ctags.parent tc = Some pc
                /\ In ((d - 1)%Z, pc)
                      (rowsAt (heap parsed_foo)
                              (length (heap parsed_foo)) 0 0)).
Proof.
  split; [exact parsed_foo_parse |].
  split; [cbn; lia |].
  apply (format_prints_subtree spec_text_foo parsed_foo 0 0
           parsed_foo_parse).
  cbn. lia.
Defined.

(** The text [format] gives for the example. *)
Example format_example :
  format (heap parsed_foo) 2 0 0
  = Ok ("1 foo" +:+ newline +:+ String tab "3 baz").
Proof. reflexivity. Qed.

End TagViewFacts.
(** ** The navigator plugin: when a document is processed *)

Section PluginFacts.
Import PyStr Ctags Plugin.
Variable ctags : Worker.tool.
#[local] Open Scope nat_scope.
#[local] Open Scope list_scope.

Lemma last_cons_default {A} (l : list A) (x d : A) :
  List.last (x :: l) d = List.last l x.
Proof.
  revert x d. induction l as [|y l IH]; intros x d; [reflexivity |].
  change (List.last (x :: y :: l) d) with (List.last (y :: l) d).
  rewrite (IH y d). symmetry. apply (IH y x).
Qed.

Lemma plugin_elapse_stopped (w : world) ms :
  Preview.remaining (_typingTimer w) = None -> elapse ms w = w.
Proof.
  revert w. induction ms as [|ms IH]; intros w H; [reflexivity |].
  cbn [elapse]. unfold elapse1. rewrite H. apply IH. exact H.
Qed.

Lemma plugin_elapse_counts_down f t th calls :
  forall ms left, ms < left ->
    elapse ms (editing f t (Some left) th calls)
    = editing f t (Some (left - ms)) th calls.
Proof.
  induction ms as [|ms IH]; intros left Hlt.
  - rewrite Nat.sub_0_r. reflexivity.
  - destruct left as [|[|left]]; [lia | lia |].
    cbn [elapse].
    change (elapse1 (editing f t (Some (S (S left))) th calls))
      with (editing f t (Some (S left)) th calls).
    rewrite IH by lia. reflexivity.
Qed.

Lemma plugin_elapse_fires f t th calls :
  forall left ms, 1 <= left -> left <= ms ->
    elapse ms (editing f t (Some left) th calls)
    = editing f t None (Worker.process f t th) (calls ++ [(f, t)]).
Proof.
  induction left as [|left IH]; intros ms H1 Hle; [lia |].
  destruct ms as [|ms]; [lia |]. cbn [elapse].
  destruct left as [|left].
  - change (elapse1 (editing f t (Some 1) th calls))
      with (editing f t None (Worker.process f t th) (calls ++ [(f, t)])).
    apply plugin_elapse_stopped. reflexivity.
  - change (elapse1 (editing f t (Some (S (S left))) th calls))
      with (editing f t (Some (S left)) th calls).
    apply IH; lia.
Qed.

Lemma run_app (w : world) (evs1 evs2 : list event) :
  run ctags w (evs1 ++ evs2) = run ctags (run ctags w evs1) evs2.
Proof. apply fold_left_app. Qed.

Lemma run_typing f th calls (keys : list (nat * string)) :
  Forall (fun k => fst k < 1000) keys ->
  forall t0,
    run ctags (editing f t0 (Some 1000) th calls) (typing keys)
    = editing f (List.last (map snd keys) t0) (Some 1000) th calls.
Proof.
  induction 1 as [|[gap t] keys Hgap _ IH]; intros t0; [reflexivity |].
  cbn [fst] in Hgap.
  change (typing ((gap, t) :: keys))
    with ([Elapse gap; Edit t] ++ typing keys).
  rewrite run_app.
  change (run ctags (editing f t0 (Some 1000) th calls) [Elapse gap; Edit t])
    with (_onTextChanged
            (setText t (elapse gap (editing f t0 (Some 1000) th calls)))).
  rewrite (plugin_elapse_counts_down f t0 th calls gap 1000 Hgap).
  change (_onTextChanged
            (setText t (editing f t0 (Some (1000 - gap)) th calls)))
    with (editing f t (Some 1000) th calls).
  rewrite IH. f_equal.
  cbn [map snd]. symmetry. apply last_cons_default.
Qed.

Lemma first_edit (w : world) (doc : document) f t0 :
  Preview.interval (_typingTimer w) = 1000 ->
  currentDocument w = Some doc -> fileName doc = Some f ->
  handle ctags w (Edit t0)
  = editing f t0 (Some 1000) (_thread w) (processCalls w).
Proof.
  destruct w as [d [i r] th calls]. cbn. intros -> -> Hf.
  unfold _onTextChanged, setText, editing. cbn. rewrite Hf. reflexivity.
Qed.

Lemma typing_state (w : world) (doc : document) (f t0 : string)
    (keys : list (nat * string)) :
  Preview.interval (_typingTimer w) = 1000 ->
  currentDocument w = Some doc -> fileName doc = Some f ->
  Forall (fun k => fst k < 1000) keys ->
  run ctags w (Edit t0 :: typing keys)
  = editing f (List.last (map snd keys) t0) (Some 1000)
      (_thread w) (processCalls w).
Proof.
  intros Hi Hdoc Hf Hkeys.
  change (Edit t0 :: typing keys) with ([Edit t0] ++ typing keys).
  rewrite run_app.
  change (run ctags w [Edit t0]) with (handle ctags w (Edit t0)).
  rewrite (first_edit w doc f t0 Hi Hdoc Hf).
  apply run_typing. exact Hkeys.
Qed.

Lemma run_elapse (w : world) n : run ctags w [Elapse n] = elapse n w.
Proof. reflexivity. Qed.

(** X18.  Typing is debounced.  With a document that has a file name, however
    many keystrokes come less than 1000 ms apart, nothing is handed to the
    worker while they come; once 1000 ms have passed after the last one the
    worker is called exactly once, with the text the last keystroke left,
    and the timer is stopped, so that waiting longer adds no call. *)
Theorem typing_debounced (w : world) (doc : document) (f t0 : string)
    (keys : list (nat * string)) (extra : nat) :
  Preview.interval (_typingTimer w) = 1000 ->
  currentDocument w = Some doc -> fileName doc = Some f ->
  Forall (fun k => fst k < 1000) keys ->
  let w1 := run ctags w (Edit t0 :: typing keys) in
  let w2 := run ctags w1 [Elapse (1000 + extra)] in
  processCalls w1 = processCalls w
  /\ processCalls w2
     = processCalls w ++ [(f, List.last (map snd keys) t0)]
  /\ Preview.remaining (_typingTimer w2) = None.
Proof.
  intros Hi Hdoc Hf Hkeys w1 w2. unfold w2, w1.
  rewrite (typing_state w doc f t0 keys Hi Hdoc Hf Hkeys).
  rewrite run_elapse, (plugin_elapse_fires _ _ _ _ 1000) by lia.
  split; [reflexivity |]. split; reflexivity.
Qed.

(** X19.  The tree follows the typing.  With the worker idle and nothing
    queued, a burst of keystrokes in a document that has a file name, 1000 ms
    of rest, the three steps of the worker thread and the delivery of its
    signal leave the model with the tags of the text the last keystroke
    left, when extracting them succeeds. *)
Theorem tree_follows_typing (w : world) (doc : document) (f t0 : string)
    (keys : list (nat * string)) (extra : nat) (r : Ctags.state) :
  Preview.interval (_typingTimer w) = 1000 ->
  currentDocument w = Some doc -> fileName doc = Some f ->
  Forall (fun k => fst k < 1000) keys ->
  Worker.thread (_thread w) = Worker.NotRunning ->
  Worker.queued (_thread w) = [] ->
  Worker.processText ctags f (List.last (map snd keys) t0) = Ok r ->
  let w' := run ctags w
              ((Edit t0 :: typing keys)
               ++ [Elapse (1000 + extra);
                   ThreadStep; ThreadStep; ThreadStep; Deliver]) in
  Worker.model_tags (_thread w') = r
  /\ Worker.isRunning (_thread w') = false
  /\ processCalls w'
     = processCalls w ++ [(f, List.last (map snd keys) t0)].
Proof.
  intros Hi Hdoc Hf Hkeys Hidle Hq Hproc w'. unfold w'.
  rewrite run_app, (typing_state w doc f t0 keys Hi Hdoc Hf Hkeys).
  change (run ctags ?x (Elapse ?n :: ?rest))
    with (run ctags (elapse n x) rest).
  rewrite (plugin_elapse_fires _ _ _ _ 1000) by lia.
  destruct (_thread w) as [fn tx hd th em qu es mt]. cbn in Hidle, Hq.
  subst th qu.
  cbn [run fold_left handle editing _thread setThread Worker.process
       Worker.isRunning Worker.thread negb Worker.threadStep
       Worker._fileName Worker._text Worker._haveData].
  rewrite Hproc.
  cbn. split; [reflexivity |]. split; reflexivity.
Qed.

(** X20.  Changing to a document that has a file name hands its text to the
    worker at once, and stops the typing timer: a keystroke made shortly
    before the change causes no second call, however long one waits. *)
Theorem document_change_processes_at_once (w : world) (doc : document)
    (f : string) (ms : nat) :
  fileName doc = Some f ->
  let w1 := run ctags w [SwitchDocument (Some doc)] in
  processCalls w1 = processCalls w ++ [(f, text doc)]
  /\ Preview.remaining (_typingTimer w1) = None
  /\ processCalls (run ctags w1 [Elapse ms]) = processCalls w1.
Proof.
  intros Hf w1.
  assert (processCalls w1 = processCalls w ++ [(f, text doc)]
          /\ Preview.remaining (_typingTimer w1) = None) as [Hc Ht].
  { unfold w1. cbn [run fold_left handle].
    unfold _onDocumentChanged, _scheduleDocumentProcessing. cbn.
    rewrite Hf. cbn. split; reflexivity. }
  split; [exact Hc |]. split; [exact Ht |].
  rewrite run_elapse, (plugin_elapse_stopped w1 ms Ht). reflexivity.
Qed.

Lemma nameless_elapse1 (w : world) :
  named (currentDocument w) = None ->
  named (currentDocument (elapse1 w)) = None
  /\ _thread (elapse1 w) = _thread w
  /\ processCalls (elapse1 w) = processCalls w.
Proof.
  destruct w as [[[fn tx]|] [i [[|[|k]]|]] th calls]; cbn; intros Hn;
    try subst fn; cbn; auto.
Qed.

Lemma nameless_elapse ms :
  forall w, named (currentDocument w) = None ->
    named (currentDocument (elapse ms w)) = None
    /\ _thread (elapse ms w) = _thread w
    /\ processCalls (elapse ms w) = processCalls w.
Proof.
  induction ms as [|ms IH]; intros w Hn; [auto |].
  cbn [elapse]. destruct (nameless_elapse1 w Hn) as (H1 & H2 & H3).
  destruct (IH (elapse1 w) H1) as (H4 & H5 & H6).
  split; [exact H4 |]. split; congruence.
Qed.

Lemma nameless_handle (w : world) (ev : event) :
  named (currentDocument w) = None -> nameless ev = true ->
  named (currentDocument (handle ctags w ev)) = None
  /\ _thread (handle ctags w ev) = _thread w
  /\ processCalls (handle ctags w ev) = processCalls w.
Proof.
  intros Hn Hev. destruct ev as [new | t | ms | |]; try discriminate Hev.
  - cbn in Hev. cbn [handle].
    unfold _onDocumentChanged, _scheduleDocumentProcessing. cbn.
    destruct new as [d|]; cbn in Hev |- *; [| auto].
    destruct (fileName d) eqn:Hf; [discriminate Hev |]. cbn. rewrite Hf. auto.
  - cbn [handle]. unfold _onTextChanged, setText. cbn.
    destruct (currentDocument w) as [d|]; cbn in Hn |- *; auto.
  - cbn [handle]. apply nameless_elapse. exact Hn.
Qed.

(** X21.  A document without a file name is never processed, and the tree is
    not cleared for it.  While no document is current, or documents that
    have no file name, edits, changes between such documents and the passing
    of time make no call of the worker and leave the thread and the tags the
    model shows as they were. *)
Theorem unnamed_document_never_processed (w : world) (evs : list event) :
  named (currentDocument w) = None ->
  Forall (fun ev => nameless ev = true) evs ->
  _thread (run ctags w evs) = _thread w
  /\ processCalls (run ctags w evs) = processCalls w.
Proof.
  intros Hn Hevs. revert w Hn.
  induction Hevs as [|ev evs Hev _ IH]; intros w Hn; [auto |].
  destruct (nameless_handle w ev Hn Hev) as (H1 & H2 & H3).
  destruct (IH (handle ctags w ev) H1) as [H4 H5].
  change (run ctags w (ev :: evs)) with (run ctags (handle ctags w ev) evs).
  split; congruence.
Qed.

End PluginFacts.

Section PluginExamples.
Import PyStr Ctags Plugin Fixtures FixturesMore PluginFixtures.
#[local] Open Scope string_scope.
#[local] Open Scope nat_scope.
#[local] Open Scope list_scope.

Lemma typing_debounced_witness :
  Preview.interval (_typingTimer (__init__ (Some doc_foo))) = 1000
  /\ currentDocument (__init__ (Some doc_foo)) = Some doc_foo
  /\ fileName doc_foo = Some "foo.py"
  /\ Forall (fun k => fst k < 1000) [(100, "xyz"); (999, "xy")]
  /\ processCalls
       (run echoCtags (__init__ (Some doc_foo))
            (Edit "xy" :: typing [(100, "xyz"); (999, "xy")]))
     = processCalls (__init__ (Some doc_foo))
  /\ processCalls
       (run echoCtags
            (run echoCtags (__init__ (Some doc_foo))
                 (Edit "xy" :: typing [(100, "xyz"); (999, "xy")]))
            [Elapse (1000 + 5)])
     = processCalls (__init__ (Some doc_foo))
       ++ [("foo.py", List.last (map snd [(100, "xyz"); (999, "xy")]) "xy")]
  /\ Preview.remaining
       (_typingTimer
          (run echoCtags
               (run echoCtags (__init__ (Some doc_foo))
                    (Edit "xy" :: typing [(100, "xyz"); (999, "xy")]))
               [Elapse (1000 + 5)]))
     = None.
Proof.
  assert (Forall (fun k : nat * string => fst k < 1000)
            [(100, "xyz"); (999, "xy")]) as Hk.
  { repeat constructor; cbn [fst]; lia. }
  split; [reflexivity |]. split; [reflexivity |]. split; [reflexivity |].
  split; [exact Hk |].
  apply (typing_debounced echoCtags (__init__ (Some doc_foo)) doc_foo
           "foo.py" "xy" [(100, "xyz"); (999, "xy")] 5
           eq_refl eq_refl eq_refl Hk).
Defined.

Lemma tree_follows_typing_witness :
  Preview.interval (_typingTimer (__init__ (Some doc_foo))) = 1000
  /\ currentDocument (__init__ (Some doc_foo)) = Some doc_foo
  /\ fileName doc_foo = Some "foo.py"
  /\ Forall (fun k => fst k < 1000) [(100, spec_text_foo)]
  /\ Worker.thread (_thread (__init__ (Some doc_foo))) = Worker.NotRunning
  /\ Worker.queued (_thread (__init__ (Some doc_foo))) = []
  /\ Worker.processText echoCtags "foo.py"
       (List.last (map snd [(100, spec_text_foo)]) "d")
     = Ok parsed_foo
  /\ Worker.model_tags
       (_thread
          (run echoCtags (__init__ (Some doc_foo))
               ((Edit "d" :: typing [(100, spec_text_foo)])
                ++ [Elapse (1000 + 0);
                    ThreadStep; ThreadStep; ThreadStep; Deliver])))
     = parsed_foo
  /\ Worker.isRunning
       (_thread
          (run echoCtags (__init__ (Some doc_foo))
               ((Edit "d" :: typing [(100, spec_text_foo)])
                ++ [Elapse (1000 + 0);
                    ThreadStep; ThreadStep; ThreadStep; Deliver])))
     = false
  /\ processCalls
       (run echoCtags (__init__ (Some doc_foo))
            ((Edit "d" :: typing [(100, spec_text_foo)])
             ++ [Elapse (1000 + 0);
                 ThreadStep; ThreadStep; ThreadStep; Deliver]))
     = processCalls (__init__ (Some doc_foo))
       ++ [("foo.py", List.last (map snd [(100, spec_text_foo)]) "d")].
Proof.
  assert (Forall (fun k : nat * string => fst k < 1000)
            [(100, spec_text_foo)]) as Hk.
  { repeat constructor; cbn [fst]; lia. }
  assert (Worker.processText echoCtags "foo.py"
            (List.last (map snd [(100, spec_text_foo)]) "d")
          = Ok parsed_foo) as Hp.
  { vm_compute. reflexivity. }
  split; [reflexivity |]. split; [reflexivity |]. split; [reflexivity |].
  split; [exact Hk |]. split; [reflexivity |]. split; [reflexivity |].
  split; [exact Hp |].
  apply (tree_follows_typing echoCtags (__init__ (Some doc_foo)) doc_foo
           "foo.py" "d" [(100, spec_text_foo)] 0 parsed_foo
           eq_refl eq_refl eq_refl Hk eq_refl eq_refl Hp).
Defined.

Lemma document_change_processes_at_once_witness :
  fileName doc_foo = Some "foo.py"
  /\ processCalls (run echoCtags (__init__ None)
                       [SwitchDocument (Some doc_foo)])
     = processCalls (__init__ None) ++ [("foo.py", text doc_foo)]
  /\ Preview.remaining
       (_typingTimer (run echoCtags (__init__ None)
                          [SwitchDocument (Some doc_foo)]))
     = None
  /\ processCalls
       (run echoCtags
            (run echoCtags (__init__ None) [SwitchDocument (Some doc_foo)])
            [Elapse 5000])
     = processCalls (run echoCtags (__init__ None)
                         [SwitchDocument (Some doc_foo)]).
Proof.
  split; [reflexivity |].
  apply (document_change_processes_at_once echoCtags (__init__ None)
           doc_foo "foo.py" 5000 eq_refl).
Defined.

Lemma unnamed_document_never_processed_witness :
  named (currentDocument (__init__ None)) = None
  /\ Forall (fun ev => nameless ev = true)
       [Edit "a"; Elapse 2000; SwitchDocument (Some doc_unnamed);
        Edit "b"; Elapse 1000]
  /\ _thread
       (run echoCtags (__init__ None)
            [Edit "a"; Elapse 2000; SwitchDocument (Some doc_unnamed);
             Edit "b"; Elapse 1000])
     = _thread (__init__ None)
  /\ processCalls
       (run echoCtags (__init__ None)
            [Edit "a"; Elapse 2000; SwitchDocument (Some doc_unnamed);
             Edit "b"; Elapse 1000])
     = processCalls (__init__ None).
Proof.
  assert (Forall (fun ev => nameless ev = true)
            [Edit "a"; Elapse 2000; SwitchDocument (Some doc_unnamed);
             Edit "b"; Elapse 1000]) as He.
  { repeat constructor. }
  split; [reflexivity |]. split; [exact He |].
  apply (unnamed_document_never_processed echoCtags (__init__ None) _
           eq_refl He).
Defined.

End PluginExamples.
(** ** Clicks in the preview do not start the opposite synchronisation *)

Section PreviewClickFacts.
Import PyStr Preview PreviewClick.
#[local] Open Scope nat_scope.

Lemma emit_cursor_running (left : option nat) (m : nat) :
  emitSignal cursorPositionChanged (setRunning true (ready left m))
  = Ok (setRunning true (ready left m)).
Proof. reflexivity. Qed.

Lemma emit_cursor_ready (left : option nat) (m : nat) :
  emitSignal cursorPositionChanged (setRunning false (ready left m))
  = Ok (ready (Some 300) m).
Proof. reflexivity. Qed.

(** X22.  A click in the preview moves the text cursor without starting the
    text-to-preview timer.  With the synchronisation set up and the dock
    visible, [_onWebviewClick] with a match at [found >= 0] leaves the timer,
    the flag and the match count as they were and calls [_scrollSync] once;
    with no match ([found < 0]) it changes nothing.  The same cursor
    movement made with [noWebSync=False] to a new position arms the timer
    with its 300 ms. *)
Theorem preview_click_keeps_timer (left : option nat) (m n : nat)
    (qp : qutepart) (found : Z) :
  let w := {| sync := ready left m; document := Some qp;
              scrollSyncs := n |} in
  let qp' := {| textLength := textLength qp;
                position := setPosition found qp |} in
  _onWebviewClick (Ok found) w
  = Ok (if (0 <=? found)%Z
        then {| sync := ready left m; document := Some qp';
                scrollSyncs := S n |}
        else w)
  /\ (setPosition found qp <> position qp ->
      _moveTextPaneToIndex found false w
      = Ok {| sync := ready (Some 300) m; document := Some qp';
              scrollSyncs := S n |}).
Proof.
  intros w qp'. split.
  - unfold _onWebviewClick, w. cbn [document mbind result_bind].
    destruct (0 <=? found)%Z; [| reflexivity].
    unfold _moveTextPaneToIndex. cbn [document sync scrollSyncs].
    destruct (setPosition found qp =? position qp)%Z.
    + reflexivity.
    + rewrite emit_cursor_running. reflexivity.
  - intros Hne. unfold _moveTextPaneToIndex, w.
    cbn [document sync scrollSyncs].
    destruct (Z.eqb_spec (setPosition found qp) (position qp)) as [He | _];
      [contradiction |].
    rewrite emit_cursor_ready. reflexivity.
Qed.

Lemma preview_click_keeps_timer_witness :
  setPosition 7 {| textLength := 10; position := 2 |}
  <> position {| textLength := 10; position := 2 |}
  /\ _onWebviewClick (Ok 7%Z)
       {| sync := ready None 0;
          document := Some {| textLength := 10; position := 2 |};
          scrollSyncs := 0 |}
     = Ok {| sync := ready None 0;
             document := Some {| textLength := 10; position := 7 |};
             scrollSyncs := 1 |}
  /\ _moveTextPaneToIndex 7 false
       {| sync := ready None 0;
          document := Some {| textLength := 10; position := 2 |};
          scrollSyncs := 0 |}
     = Ok {| sync := ready (Some 300) 0;
             document := Some {| textLength := 10; position := 7 |};
             scrollSyncs := 1 |}.
Proof.
  assert (setPosition 7 {| textLength := 10; position := 2 |}
          <> position {| textLength := 10; position := 2 |}) as Hne.
  { cbn. lia. }
  split; [exact Hne |].
  destruct (preview_click_keeps_timer None 0 0
              {| textLength := 10; position := 2 |} 7) as [H1 H2].
  split; [exact H1 | exact (H2 Hne)].
Defined.

End PreviewClickFacts.
(** ** Reading the fields of a line *)

Section TagLineFacts.
Import PyStr Ctags TagLine.
#[local] Open Scope string_scope.
#[local] Open Scope list_scope.

Lemma split_cons_sep (c : ascii) (s : string) :
  split c (String c s) = EmptyString :: split c s.
Proof. cbn [split]. rewrite Ascii.eqb_refl. reflexivity. Qed.

Lemma split_cons_other (c x : ascii) (s : string) :
  Ascii.eqb x c = false ->
  exists w ws, split c s = w :: ws /\ split c (String x s) = String x w :: ws.
Proof.
  intros Hx. cbn [split]. rewrite Hx.
  destruct (split c s) as [|w ws] eqn:Hs.
  - exfalso. apply (split_nonempty c s Hs).
  - exists w, ws. split; reflexivity.
Qed.

Lemma split_app_sep (c : ascii) (a b : string) :
  split c (a +:+ String c b) = split c a ++ split c b.
Proof.
  induction a as [|x a IH].
  - change (EmptyString +:+ String c b) with (String c b).
    rewrite split_cons_sep. reflexivity.
  - change (String x a +:+ String c b) with (String x (a +:+ String c b)).
    destruct (Ascii.eqb x c) eqn:Hx.
    + apply Ascii.eqb_eq in Hx as ->. rewrite !split_cons_sep, IH.
      reflexivity.
    + destruct (split_cons_other c x a Hx) as (w & ws & Hs & ->).
      destruct (split_cons_other c x (a +:+ String c b) Hx)
        as (w' & ws' & Hs' & ->).
      rewrite IH, Hs in Hs'. injection Hs' as <- <-. reflexivity.
Qed.

Lemma split_free (c : ascii) (s : string) :
  free c s = true -> split c s = [s].
Proof.
  induction s as [|x s IH]; intros H; [reflexivity |].
  cbn [free] in H. apply andb_true_iff in H as [Hx Hs].
  apply negb_true_iff in Hx.
  destruct (split_cons_other c x s Hx) as (w & ws & Hw & ->).
  rewrite (IH Hs) in Hw. injection Hw as <- <-. reflexivity.
Qed.

Lemma split_join (c : ascii) (parts : list string) :
  parts <> [] -> Forall (fun s => free c s = true) parts ->
  split c (join c parts) = parts.
Proof.
  intros Hne Hfree. induction Hfree as [|p parts Hp Hparts IH];
    [congruence |].
  destruct parts as [|q parts].
  - apply split_free. exact Hp.
  - change (join c (p :: q :: parts))
      with (p +:+ String c (join c (q :: parts))).
    rewrite split_app_sep, (split_free c p Hp), IH by discriminate.
    reflexivity.
Qed.

Lemma free_app (c : ascii) (a b : string) :
  free c (a +:+ b) = free c a && free c b.
Proof.
  induction a as [|x a IH]; [reflexivity |].
  change (String x a +:+ b) with (String x (a +:+ b)).
  cbn [free]. rewrite IH, andb_assoc. reflexivity.
Qed.

Lemma free_join (c d : ascii) (parts : list string) :
  Ascii.eqb d c = false ->
  Forall (fun s => free c s = true) parts ->
  free c (join d parts) = true.
Proof.
  intros Hd. induction 1 as [|p parts Hp Hparts IH]; [reflexivity |].
  destruct parts as [|q parts]; [exact Hp |].
  change (join d (p :: q :: parts))
    with (p +:+ String d (join d (q :: parts))).
  rewrite free_app, Hp. cbn [free andb]. rewrite Hd, IH. reflexivity.
Qed.

Lemma last_app_nonempty {A} (l l' : list A) (d : A) :
  l' <> [] -> List.last (l ++ l') d = List.last l' d.
Proof.
  intros Hne. induction l as [|x l IH]; [reflexivity |].
  cbn [app]. destruct (l ++ l') eqn:Happ.
  - apply app_eq_nil in Happ as [_ Hl']. congruence.
  - exact IH.
Qed.

Lemma last_split_app_sep (c : ascii) (a b : string) :
  List.last (split c (a +:+ String c b)) EmptyString
  = List.last (split c b) EmptyString.
Proof.
  rewrite split_app_sep. apply last_app_nonempty. apply split_nonempty.
Qed.

(** X23.  The fields of a line with a qualified scope.  For a line of six
    tab-separated fields whose fifth is [line:] and an integer literal and
    whose sixth is a kind, a colon and a dotted path, [parseTag] gives the
    name, the integer, the kind of the fourth field, and as scope the last
    component of the path only: the outer components and the kind of the
    scope are dropped. *)
Theorem parseTag_qualified_scope
    (name_ file pattern kind ds scopeKind : string)
    (path : list string) (inner : string) (n : Z) :
  let lineField := "line:" +:+ ds in
  let scopeField :=
    scopeKind +:+ String ":" (join "." (path ++ [inner])) in
  Forall (fun s => free tab s = true)
         [name_; file; pattern; kind; lineField; scopeField] ->
  free ":" ds = true -> int_ ds = Ok n ->
  Forall (fun s => free ":" s = true) (path ++ [inner]) ->
  Forall (fun s => free "." s = true) (path ++ [inner]) ->
  parseTag (join tab [name_; file; pattern; kind; lineField; scopeField])
  = Ok (name_, n, kind, Some inner).
Proof.
  intros lineField scopeField Htab Hds Hint Hcolon Hdot.
  assert (path ++ [inner] <> []) as Hne by (destruct path; discriminate).
  unfold parseTag.
  rewrite (split_join tab) by (discriminate || exact Htab).
  cbn [getitem0 length Nat.eqb mbind result_bind].
  change (getitem_neg [name_; file; pattern; kind; lineField; scopeField] 3)
    with (@Ok string kind).
  change (getitem_neg [name_; file; pattern; kind; lineField; scopeField] 2)
    with (@Ok string lineField).
  change (getitem_neg [name_; file; pattern; kind; lineField; scopeField] 1)
    with (@Ok string scopeField).
  cbn [mbind result_bind].
  rewrite (getitem_neg_last (split ":" lineField) EmptyString)
    by apply split_nonempty.
  unfold lineField. change ("line:" +:+ ds) with ("line" +:+ String ":" ds).
  rewrite last_split_app_sep, (split_free ":" ds Hds).
  cbn [List.last mbind result_bind]. rewrite Hint. cbn [mbind result_bind].
  assert (List.last (split ":" scopeField) EmptyString
          = join "." (path ++ [inner])) as Hlast.
  { unfold scopeField. rewrite last_split_app_sep.
    rewrite split_free; [reflexivity |].
    apply free_join; [reflexivity | exact Hcolon]. }
  assert (exists c s, scopeField = String c s) as (c & s & Hsf).
  { unfold scopeField. destruct scopeKind as [|c k].
    - eexists _, _. reflexivity.
    - eexists _, _. reflexivity. }
  rewrite Hsf, <- Hsf.
  rewrite (getitem_neg_last (split ":" scopeField) EmptyString)
    by apply split_nonempty.
  rewrite Hlast. cbn [mbind result_bind].
  rewrite (split_join "." _ Hne Hdot).
  rewrite (getitem_neg_last (path ++ [inner]) EmptyString Hne).
  rewrite last_last. reflexivity.
Qed.

Lemma parseTag_qualified_scope_witness :
  Forall (fun s => free tab s = true)
         ["baz"; "a.py"; "/^x/"; "member"; "line:" +:+ "3";
          "class" +:+ String ":" (join "." (["Outer"] ++ ["Inner"]))]
  /\ free ":" "3" = true /\ int_ "3" = Ok 3%Z
  /\ Forall (fun s => free ":" s = true) (["Outer"] ++ ["Inner"])
  /\ Forall (fun s => free "." s = true) (["Outer"] ++ ["Inner"])
  /\ parseTag
       (join tab
          ["baz"; "a.py"; "/^x/"; "member"; "line:" +:+ "3";
           "class" +:+ String ":" (join "." (["Outer"] ++ ["Inner"]))])
     = Ok ("baz", 3%Z, "member", Some "Inner").
Proof.
  assert (Forall (fun s => free tab s = true)
            ["baz"; "a.py"; "/^x/"; "member"; "line:" +:+ "3";
             "class" +:+ String ":" (join "." (["Outer"] ++ ["Inner"]))])
    as H1 by (repeat constructor).
  assert (Forall (fun s => free ":" s = true) (["Outer"] ++ ["Inner"]))
    as H2 by (repeat constructor).
  assert (Forall (fun s => free "." s = true) (["Outer"] ++ ["Inner"]))
    as H3 by (repeat constructor).
  assert (int_ "3" = Ok 3%Z) as H4 by reflexivity.
  split; [exact H1 |]. split; [reflexivity |]. split; [exact H4 |].
  split; [exact H2 |]. split; [exact H3 |].
  apply (parseTag_qualified_scope "baz" "a.py" "/^x/" "member" "3" "class"
           ["Outer"] "Inner" 3 H1 eq_refl H4 H2 H3).
Defined.

End TagLineFacts.
(** ** Scrolling twice *)

Section ScrollAlignAgain.
Import ScrollAlign.
#[local] Open Scope Z_scope.

(** X24.  Scrolling is done in one go.  When the target is high enough for
    the cursor and the padding on both sides, and the target cursor has been
    moved by the amount computed, computing the amount again for the new
    position gives 0. *)
Theorem alignScrollAmount_settles sGT sCB tGT tCB tH tCH pad :
  0 <= tH - tCH - 2 * pad ->
  let delta := _alignScrollAmount sGT sCB tGT tCB tH tCH pad in
  _alignScrollAmount sGT sCB tGT (tCB + delta) tH tCH pad = 0.
Proof. unfold _alignScrollAmount. cbv zeta. lia. Qed.

Lemma alignScrollAmount_settles_witness :
  0 <= 500 - 20 - 2 * 10
  /\ _alignScrollAmount 0 700 0
       (50 + _alignScrollAmount 0 700 0 50 500 20 10) 500 20 10 = 0.
Proof.
  split; [lia |].
  apply (alignScrollAmount_settles 0 700 0 50 500 20 10). lia.
Defined.

End ScrollAlignAgain.
